(** * Structural-node tree of taichi/ir/snode.cpp

    A shallow embedding of the SNode builder and its layout queries, and the
    properties of the specification that concern them.

    Objects that the C++ code reaches through pointers live in two stores:
    [nodes] for SNode objects and [exprs] for expression objects.  An address
    is the position of the object in its store; objects are never freed.
    Machine integers are mathematical integers with the wrap-around of two's
    complement written out where the code computes with them. *)

From Stdlib Require Import ZArith Lia String.
From stdpp Require Import base list strings pretty.

Local Open Scope Z_scope.

(** ** Machine integers *)

Definition wrap (w x : Z) : Z := (x + 2 ^ (w - 1)) mod 2 ^ w - 2 ^ (w - 1).

Definition int32 (x : Z) : Z := wrap 32 x.

Definition is_int (x : Z) : Prop := - 2 ^ 31 <= x < 2 ^ 31.

(** ** Helpers of namespace bit *)

(** Modelled from the spec: bit::is_power_of_two, declared in a header outside
    snode.cpp; the spec promotes a size "if not already" a power of two, so
    the test holds exactly of 1, 2, 4, 8, ... *)
Definition is_power_of_two (x : Z) : bool := (0 <? x) && (2 ^ Z.log2 x =? x).

(** Modelled from the spec: bit::least_pot_bound, "the least power of two
    greater than or equal to" its argument. *)
Definition least_pot_bound (x : Z) : Z := 2 ^ Z.log2_up x.

(** Modelled from the spec: bit::log2int, the base-two logarithm of a
    (promoted, hence power-of-two) size. *)
Definition log2int (x : Z) : Z := Z.log2 x.

(** ** Data model *)

Module SNodeType.
Inductive t : Type :=
| root | dense | dynamic | pointer | bitmasked | hash
| bit_struct | bit_array | place | undefined.

#[global] Instance eq_dec : EqDecision t.
Proof. solve_decision. Defined.
End SNodeType.

(** Addresses of SNode objects ([SNode *]) and of expression objects. *)
Abbreviation addr := nat (only parsing).

(** [Expr] is a shared pointer to an expression object; it may be null. *)
Abbreviation Expr := (option nat) (only parsing).

(** Interned [Type *] handles: two handles are equal exactly when the pointers
    are. *)
Abbreviation DataType := nat (only parsing).

Record Index : Type := mkIndex { value : Z }.

(** Modelled from the spec: the per-axis extractor
    [{active, num_bits, trailing_bits, num_elements}]; its declaration is in
    snode.h. *)
Record Extractor : Type := mkExtractor {
  active : bool;
  num_bits : Z;
  trailing_bits : Z;
  num_elements : Z
}.

(** Modelled from the spec: "activate that axis's extractor at this node with
    num_bits = ...". *)
Definition activate (num_bits_ : Z) (e : Extractor) : Extractor :=
  mkExtractor true num_bits_ (trailing_bits e) (num_elements e).

Definition with_num_elements (v : Z) (e : Extractor) : Extractor :=
  mkExtractor (active e) (num_bits e) (trailing_bits e) v.

(** Modelled from the spec: the field-expression capability
    [{declared_type, identifier, is_primal, ambient_flag, ambient_value,
    adjoint_reference, bound_node}] consumed from the field-declaration
    layer. *)
Record GlobalVariableExpression : Type := mkGlobalVariableExpression {
  gv_ident : string;
  gv_dt : DataType;
  gv_snode : option addr;
  gv_has_ambient : bool;
  gv_ambient_value : Z;
  gv_is_primal : bool;
  gv_adjoint : Expr
}.

Definition set_snode (v : option addr) (g : GlobalVariableExpression)
  : GlobalVariableExpression :=
  mkGlobalVariableExpression (gv_ident g) (gv_dt g) v (gv_has_ambient g)
    (gv_ambient_value g) (gv_is_primal g) (gv_adjoint g).

(** An expression object is a global variable or something else; a cast to
    GlobalVariableExpression yields null on the latter. *)
Inductive Expression : Type :=
| GlobalVariable (g : GlobalVariableExpression)
| OtherExpression.

(** What snode.cpp takes from declarations outside this file: the fixed
    number of axes, the width of the integer type of field [n], the default
    extractor and the type layer. *)
Class Declarations : Type := {
  taichi_max_num_indices : nat;
  n_bits : Z;
  IndexExtractor_default : Extractor;
  PrimitiveType_gen : DataType;
  get_exponent_type : DataType → option DataType;
  needs_grad : DataType → bool;
  get_primitive_int_type : Z → bool → DataType
}.

Record SNode : Type := mkSNode {
  id : Z;
  depth : Z;
  type : SNodeType.t;
  ch : list addr;
  parent : option addr;
  extractors : list Extractor;
  num_active_indices : Z;
  physical_index_position : list Z;
  n : Z;
  total_num_bits : Z;
  total_bit_start : Z;
  chunk_size : Z;
  physical_type : option DataType;
  dt : DataType;
  name : string;
  has_ambient : bool;
  ambient_val : Z;
  expr : Expr;
  exp_snode : option addr;
  exponent_users : list addr;
  owns_shared_exponent : bool;
  index_offsets : list Z;
  is_path_all_dense : bool
}.

Definition with_ch (v : list addr) (nd : SNode) : SNode :=
  mkSNode (id nd) (depth nd) (type nd) v (parent nd) (extractors nd) (num_active_indices
    nd) (physical_index_position nd) (n nd) (total_num_bits nd) (total_bit_start nd)
    (chunk_size nd) (physical_type nd) (dt nd) (name nd) (has_ambient nd) (ambient_val
    nd) (expr nd) (exp_snode nd) (exponent_users nd) (owns_shared_exponent nd)
    (index_offsets nd) (is_path_all_dense nd).

Definition with_parent (v : option addr) (nd : SNode) : SNode :=
  mkSNode (id nd) (depth nd) (type nd) (ch nd) v (extractors nd) (num_active_indices nd)
    (physical_index_position nd) (n nd) (total_num_bits nd) (total_bit_start nd)
    (chunk_size nd) (physical_type nd) (dt nd) (name nd) (has_ambient nd) (ambient_val
    nd) (expr nd) (exp_snode nd) (exponent_users nd) (owns_shared_exponent nd)
    (index_offsets nd) (is_path_all_dense nd).

Definition with_extractors (v : list Extractor) (nd : SNode) : SNode :=
  mkSNode (id nd) (depth nd) (type nd) (ch nd) (parent nd) v (num_active_indices nd)
    (physical_index_position nd) (n nd) (total_num_bits nd) (total_bit_start nd)
    (chunk_size nd) (physical_type nd) (dt nd) (name nd) (has_ambient nd) (ambient_val
    nd) (expr nd) (exp_snode nd) (exponent_users nd) (owns_shared_exponent nd)
    (index_offsets nd) (is_path_all_dense nd).

Definition with_physical_index_position (v : list Z) (nd : SNode) : SNode :=
  mkSNode (id nd) (depth nd) (type nd) (ch nd) (parent nd) (extractors nd)
    (num_active_indices nd) v (n nd) (total_num_bits nd) (total_bit_start nd)
    (chunk_size nd) (physical_type nd) (dt nd) (name nd) (has_ambient nd) (ambient_val
    nd) (expr nd) (exp_snode nd) (exponent_users nd) (owns_shared_exponent nd)
    (index_offsets nd) (is_path_all_dense nd).

Definition with_n (v : Z) (nd : SNode) : SNode :=
  mkSNode (id nd) (depth nd) (type nd) (ch nd) (parent nd) (extractors nd)
    (num_active_indices nd) (physical_index_position nd) v (total_num_bits nd)
    (total_bit_start nd) (chunk_size nd) (physical_type nd) (dt nd) (name nd)
    (has_ambient nd) (ambient_val nd) (expr nd) (exp_snode nd) (exponent_users nd)
    (owns_shared_exponent nd) (index_offsets nd) (is_path_all_dense nd).

Definition with_chunk_size (v : Z) (nd : SNode) : SNode :=
  mkSNode (id nd) (depth nd) (type nd) (ch nd) (parent nd) (extractors nd)
    (num_active_indices nd) (physical_index_position nd) (n nd) (total_num_bits nd)
    (total_bit_start nd) v (physical_type nd) (dt nd) (name nd) (has_ambient nd)
    (ambient_val nd) (expr nd) (exp_snode nd) (exponent_users nd) (owns_shared_exponent
    nd) (index_offsets nd) (is_path_all_dense nd).

Definition with_physical_type (v : option DataType) (nd : SNode) : SNode :=
  mkSNode (id nd) (depth nd) (type nd) (ch nd) (parent nd) (extractors nd)
    (num_active_indices nd) (physical_index_position nd) (n nd) (total_num_bits nd)
    (total_bit_start nd) (chunk_size nd) v (dt nd) (name nd) (has_ambient nd)
    (ambient_val nd) (expr nd) (exp_snode nd) (exponent_users nd) (owns_shared_exponent
    nd) (index_offsets nd) (is_path_all_dense nd).

Definition with_dt (v : DataType) (nd : SNode) : SNode :=
  mkSNode (id nd) (depth nd) (type nd) (ch nd) (parent nd) (extractors nd)
    (num_active_indices nd) (physical_index_position nd) (n nd) (total_num_bits nd)
    (total_bit_start nd) (chunk_size nd) (physical_type nd) v (name nd) (has_ambient nd)
    (ambient_val nd) (expr nd) (exp_snode nd) (exponent_users nd) (owns_shared_exponent
    nd) (index_offsets nd) (is_path_all_dense nd).

Definition with_name (v : string) (nd : SNode) : SNode :=
  mkSNode (id nd) (depth nd) (type nd) (ch nd) (parent nd) (extractors nd)
    (num_active_indices nd) (physical_index_position nd) (n nd) (total_num_bits nd)
    (total_bit_start nd) (chunk_size nd) (physical_type nd) (dt nd) v (has_ambient nd)
    (ambient_val nd) (expr nd) (exp_snode nd) (exponent_users nd) (owns_shared_exponent
    nd) (index_offsets nd) (is_path_all_dense nd).

Definition with_has_ambient (v : bool) (nd : SNode) : SNode :=
  mkSNode (id nd) (depth nd) (type nd) (ch nd) (parent nd) (extractors nd)
    (num_active_indices nd) (physical_index_position nd) (n nd) (total_num_bits nd)
    (total_bit_start nd) (chunk_size nd) (physical_type nd) (dt nd) (name nd) v
    (ambient_val nd) (expr nd) (exp_snode nd) (exponent_users nd) (owns_shared_exponent
    nd) (index_offsets nd) (is_path_all_dense nd).

Definition with_ambient_val (v : Z) (nd : SNode) : SNode :=
  mkSNode (id nd) (depth nd) (type nd) (ch nd) (parent nd) (extractors nd)
    (num_active_indices nd) (physical_index_position nd) (n nd) (total_num_bits nd)
    (total_bit_start nd) (chunk_size nd) (physical_type nd) (dt nd) (name nd)
    (has_ambient nd) v (expr nd) (exp_snode nd) (exponent_users nd)
    (owns_shared_exponent nd) (index_offsets nd) (is_path_all_dense nd).

Definition with_expr (v : Expr) (nd : SNode) : SNode :=
  mkSNode (id nd) (depth nd) (type nd) (ch nd) (parent nd) (extractors nd)
    (num_active_indices nd) (physical_index_position nd) (n nd) (total_num_bits nd)
    (total_bit_start nd) (chunk_size nd) (physical_type nd) (dt nd) (name nd)
    (has_ambient nd) (ambient_val nd) v (exp_snode nd) (exponent_users nd)
    (owns_shared_exponent nd) (index_offsets nd) (is_path_all_dense nd).

Definition with_exp_snode (v : option addr) (nd : SNode) : SNode :=
  mkSNode (id nd) (depth nd) (type nd) (ch nd) (parent nd) (extractors nd)
    (num_active_indices nd) (physical_index_position nd) (n nd) (total_num_bits nd)
    (total_bit_start nd) (chunk_size nd) (physical_type nd) (dt nd) (name nd)
    (has_ambient nd) (ambient_val nd) (expr nd) v (exponent_users nd)
    (owns_shared_exponent nd) (index_offsets nd) (is_path_all_dense nd).

Definition with_exponent_users (v : list addr) (nd : SNode) : SNode :=
  mkSNode (id nd) (depth nd) (type nd) (ch nd) (parent nd) (extractors nd)
    (num_active_indices nd) (physical_index_position nd) (n nd) (total_num_bits nd)
    (total_bit_start nd) (chunk_size nd) (physical_type nd) (dt nd) (name nd)
    (has_ambient nd) (ambient_val nd) (expr nd) (exp_snode nd) v (owns_shared_exponent
    nd) (index_offsets nd) (is_path_all_dense nd).

Definition with_owns_shared_exponent (v : bool) (nd : SNode) : SNode :=
  mkSNode (id nd) (depth nd) (type nd) (ch nd) (parent nd) (extractors nd)
    (num_active_indices nd) (physical_index_position nd) (n nd) (total_num_bits nd)
    (total_bit_start nd) (chunk_size nd) (physical_type nd) (dt nd) (name nd)
    (has_ambient nd) (ambient_val nd) (expr nd) (exp_snode nd) (exponent_users nd) v
    (index_offsets nd) (is_path_all_dense nd).

Definition with_index_offsets (v : list Z) (nd : SNode) : SNode :=
  mkSNode (id nd) (depth nd) (type nd) (ch nd) (parent nd) (extractors nd)
    (num_active_indices nd) (physical_index_position nd) (n nd) (total_num_bits nd)
    (total_bit_start nd) (chunk_size nd) (physical_type nd) (dt nd) (name nd)
    (has_ambient nd) (ambient_val nd) (expr nd) (exp_snode nd) (exponent_users nd)
    (owns_shared_exponent nd) v (is_path_all_dense nd).

Definition with_is_path_all_dense (v : bool) (nd : SNode) : SNode :=
  mkSNode (id nd) (depth nd) (type nd) (ch nd) (parent nd) (extractors nd)
    (num_active_indices nd) (physical_index_position nd) (n nd) (total_num_bits nd)
    (total_bit_start nd) (chunk_size nd) (physical_type nd) (dt nd) (name nd)
    (has_ambient nd) (ambient_val nd) (expr nd) (exp_snode nd) (exponent_users nd)
    (owns_shared_exponent nd) (index_offsets nd) v.

(** ** Program state *)

(** The two object stores, the static id counter [SNode::counter] and the
    static state of the shared-exponent builder session. *)
Record State : Type := mkState {
  nodes : list SNode;
  exprs : list Expression;
  counter : Z;
  placing_shared_exp : bool;
  currently_placing_exp_snode : option addr;
  currently_placing_exp_snode_dtype : option DataType
}.

Definition set_nodes (v : list SNode) (st : State) : State :=
  mkState v (exprs st) (counter st) (placing_shared_exp st)
    (currently_placing_exp_snode st) (currently_placing_exp_snode_dtype st).

Definition set_exprs (v : list Expression) (st : State) : State :=
  mkState (nodes st) v (counter st) (placing_shared_exp st)
    (currently_placing_exp_snode st) (currently_placing_exp_snode_dtype st).

Definition set_counter (v : Z) (st : State) : State :=
  mkState (nodes st) (exprs st) v (placing_shared_exp st)
    (currently_placing_exp_snode st) (currently_placing_exp_snode_dtype st).

Definition set_session (b : bool) (e : option addr) (d : option DataType) (st : State)
  : State :=
  mkState (nodes st) (exprs st) (counter st) b e d.

(** Of the diagnostic functions of the source, [get_node_type_name] is
    embedded below; [get_node_type_name_hinted] and [print] format names that
    the type layer supplies and are not embedded. *)

(** ** Computations

    A member function either returns a value in a new state, stops at a
    failed TI_ASSERT / TI_ERROR with the state reached so far, has no defined
    behaviour (null or out-of-bounds access), or exhausts the fuel that bounds
    the pointer-chasing loops and the recursion of this embedding. *)
Inductive outcome (A : Type) : Type :=
| Ok (a : A) (st : State)
| Fatal (msg : string) (st : State)
| Undefined
| OutOfFuel.

Arguments Ok {A} a st.
Arguments Fatal {A} msg st.
Arguments Undefined {A}.
Arguments OutOfFuel {A}.

Definition M (A : Type) : Type := State → outcome A.

Definition ret {A} (a : A) : M A := λ st, Ok a st.

Definition bind {A B} (m : M A) (k : A → M B) : M B :=
  λ st, match m st with
        | Ok a st' => k a st'
        | Fatal msg st' => Fatal msg st'
        | Undefined => Undefined
        | OutOfFuel => OutOfFuel
        end.

Notation "'let!' x ':=' m 'in' k" := (bind m (λ x, k))
  (at level 10, x name, m at level 100, k at level 200).
Notation "m1 '>>' m2" := (bind m1 (λ _, m2))
  (at level 100, m2 at level 200, right associativity).

Definition fatal {A} (msg : string) : M A := λ st, Fatal msg st.
Definition undefined {A} : M A := λ _, Undefined.
Definition out_of_fuel {A} : M A := λ _, OutOfFuel.

Definition TI_ASSERT (b : bool) (msg : string) : M unit :=
  if b then ret tt else fatal msg.

Definition when (b : bool) (m : M unit) : M unit := if b then m else ret tt.

Fixpoint for_each {A} (l : list A) (body : A → M unit) : M unit :=
  match l with
  | [] => ret tt
  | x :: l' => body x >> for_each l' body
  end.

(** Element [i] of a C array or vector; [None] when out of bounds. *)
Definition array_get {A} (l : list A) (i : Z) : option A :=
  if i <? 0 then None else l !! Z.to_nat i.

Definition get_state : M State := λ st, Ok st st.

Definition deref (p : addr) : M SNode :=
  λ st, match nodes st !! p with
        | Some nd => Ok nd st
        | None => Undefined
        end.

Definition modify (p : addr) (f : SNode → SNode) : M unit :=
  λ st, match nodes st !! p with
        | Some nd => Ok tt (set_nodes (<[p := f nd]> (nodes st)) st)
        | None => Undefined
        end.

(** [e.cast<GlobalVariableExpression>()] followed by a dereference.  [Expr]
    and its [cast] are declared outside snode.cpp: what the cast of a null
    [Expr], or of an expression of another kind, does before the dereference
    is not known here.  That case is given the outcome of which the properties
    promise nothing, and no property below is stated about it. *)
Definition deref_gve (e : Expr) : M GlobalVariableExpression :=
  λ st, match e with
        | Some a => match exprs st !! a with
                    | Some (GlobalVariable g) => Ok g st
                    | _ => Undefined
                    end
        | None => Undefined
        end.

Definition modify_gve (a : nat) (f : GlobalVariableExpression → GlobalVariableExpression)
  : M unit :=
  λ st, match exprs st !! a with
        | Some (GlobalVariable g) =>
            Ok tt (set_exprs (<[a := GlobalVariable (f g)]> (exprs st)) st)
        | _ => Undefined
        end.

Section SNode.
Context `{Declarations}.

(** [SNode::need_activation] *)
Definition need_activation_type (t : SNodeType.t) : bool :=
  match t with
  | SNodeType.pointer | SNodeType.hash | SNodeType.bitmasked | SNodeType.dynamic => true
  | _ => false
  end.

Definition need_activation (nd : SNode) : bool := need_activation_type (type nd).

(** [SNode::SNode(int depth, SNodeType t)].  Modelled from the spec: the
    members that the constructor body does not assign take the in-class
    initialisers of snode.h; in particular a fresh node has no children, no
    bound expression, no exponent links, and [is_path_all_dense] set. *)
Definition SNode_init (id_ depth_ : Z) (t : SNodeType.t) : SNode :=
  {| id := id_; depth := depth_; type := t; ch := []; parent := None;
     extractors := replicate taichi_max_num_indices IndexExtractor_default;
     num_active_indices := 0;
     physical_index_position := replicate taichi_max_num_indices (-1);
     n := 0; total_num_bits := 0; total_bit_start := 0; chunk_size := 0;
     physical_type := None; dt := PrimitiveType_gen; name := EmptyString;
     has_ambient := false; ambient_val := 0; expr := None; exp_snode := None;
     exponent_users := []; owns_shared_exponent := false; index_offsets := [];
     is_path_all_dense := true |}.

(** [std::make_unique<SNode>(depth, t)]: [id = counter++], then the object is
    stored at a fresh address. *)
Definition new_SNode (depth_ : Z) (t : SNodeType.t) : M addr :=
  λ st, Ok (length (nodes st))
           (set_counter (int32 (counter st + 1))
              (set_nodes (nodes st ++ [SNode_init (counter st) depth_ t]) st)).

(** [SNode::insert_children] *)
Definition insert_children (this : addr) (t : SNodeType.t) : M addr :=
  TI_ASSERT (negb (bool_decide (t = SNodeType.root))) "t != SNodeType::root" >>
  let! nd := deref this in
  let! new_ch := new_SNode (int32 (depth nd + 1)) t in
  let! c := deref new_ch in
  modify new_ch
    (with_is_path_all_dense (is_path_all_dense nd && negb (need_activation c))) >>
  modify this (λ p, with_ch (ch p ++ [new_ch]) p) >>
  ret new_ch.

(** The size list after the broadcast of a single size to all axes. *)
Definition broadcast (indices : list Index) (sizes : list Z) : list Z :=
  match sizes with
  | [s] => replicate (length indices) s
  | _ => sizes
  end.

(** One iteration of the first loop of [create_node]. *)
Definition accumulate_size (new_node : addr) (size : Z) : M unit :=
  TI_ASSERT (0 <? size) "sizes[i] > 0" >>
  let s := if is_power_of_two size then size else int32 (least_pot_bound size) in
  TI_ASSERT (is_power_of_two s) "bit::is_power_of_two(s)" >>
  modify new_node (λ c, with_n (wrap n_bits (n c * s)) c).

(** One iteration of the second loop of [create_node]. *)
Definition activate_axis (new_node : addr) (ax : Index * Z) : M unit :=
  let! c := deref new_node in
  match array_get (extractors c) (value ax.1) with
  | None => undefined
  | Some e =>
      let e' := with_num_elements ax.2 (activate (log2int (least_pot_bound ax.2)) e) in
      modify new_node
        (λ c, with_extractors (<[Z.to_nat (value ax.1) := e']> (extractors c)) c)
  end.

(** [SNode::create_node] *)
Definition create_node (this : addr) (indices : list Index) (sizes : list Z)
    (t : SNodeType.t) : M addr :=
  TI_ASSERT (bool_decide (length indices = length sizes)
             || bool_decide (length sizes = 1%nat))
    "indices.size() == sizes.size() || sizes.size() == 1" >>
  let sizes := broadcast indices sizes in
  let! nd := deref this in
  when (bool_decide (t = SNodeType.hash))
    (TI_ASSERT (depth nd =? 0)
       "hashed node must be child of root due to initialization memset limitation.") >>
  let! new_node := insert_children this t in
  modify new_node (with_n 1) >>
  for_each sizes (accumulate_size new_node) >>
  for_each (zip indices sizes) (activate_axis new_node) >>
  ret new_node.

(** Modelled from the spec: [dense] is declared in snode.h; it is
    [create_node] at kind dense. *)
Definition dense (this : addr) (indices : list Index) (sizes : list Z) : M addr :=
  create_node this indices sizes SNodeType.dense.

(** [SNode::dynamic] *)
Definition dynamic (this : addr) (expr_ : Index) (n_ chunk_size_ : Z) : M addr :=
  let! snode := create_node this [expr_] [n_] SNodeType.dynamic in
  modify snode (with_chunk_size chunk_size_) >>
  ret snode.

(** [SNode::bit_struct] *)
Definition bit_struct (this : addr) (num_bits_ : Z) : M addr :=
  let! snode := create_node this [] [] SNodeType.bit_struct in
  modify snode (with_physical_type (Some (get_primitive_int_type num_bits_ false))) >>
  ret snode.

(** [SNode::bit_array] *)
Definition bit_array (this : addr) (indices : list Index) (sizes : list Z) (bits : Z)
  : M addr :=
  let! snode := create_node this indices sizes SNodeType.bit_array in
  modify snode (with_physical_type (Some (get_primitive_int_type bits false))) >>
  ret snode.

(** [SNode::set_index_offsets] *)
Definition set_index_offsets (this : addr) (index_offsets_ : list Z) : M unit :=
  let! nd := deref this in
  TI_ASSERT (bool_decide (index_offsets nd = [])) "this->index_offsets.empty()" >>
  TI_ASSERT (negb (bool_decide (index_offsets_ = []))) "!index_offsets_.empty()" >>
  TI_ASSERT (bool_decide (type nd = SNodeType.place)) "type == SNodeType::place" >>
  modify this (with_index_offsets index_offsets_).

(** The exponent leaf of a field whose custom-float type has exponent type
    [exp]: reused from the running session, or freshly inserted. *)
Definition place_exponent (this : addr) (g : GlobalVariableExpression)
    (exp : DataType) : M addr :=
  let! st := get_state in
  match placing_shared_exp st, currently_placing_exp_snode st with
  | true, Some cur =>
      TI_ASSERT (bool_decide (currently_placing_exp_snode_dtype st = Some exp))
        "CustomFloatTypes with shared exponents must have exactly the same exponent type." >>
      ret cur
  | _, _ =>
      let! exp_node := insert_children this SNodeType.place in
      modify exp_node (with_dt exp) >>
      modify exp_node (with_name (gv_ident g ++ "_exp")) >>
      when (placing_shared_exp st)
        (λ s, Ok tt (set_session (placing_shared_exp s) (Some exp_node) (Some exp) s)) >>
      ret exp_node
  end.

(** The second half of the else branch of [SNode::place]: the leaf for the
    value of field [e], whose exponent leaf, if any, is [new_exp_snode]. *)
Definition place_value (this : addr) (e : nat) (g : GlobalVariableExpression)
    (new_exp_snode : option addr) (offset : list Z) : M unit :=
  let! child := insert_children this SNodeType.place in
  modify_gve e (set_snode (Some child)) >>
  modify child (with_name (gv_ident g)) >>
  when (gv_has_ambient g)
    (modify child (with_has_ambient true) >>
     modify child (with_ambient_val (gv_ambient_value g))) >>
  modify child (with_expr (Some e)) >>
  let! st' := get_state in
  when (placing_shared_exp st') (modify child (with_owns_shared_exponent true)) >>
  modify child (with_dt (gv_dt g)) >>
  match new_exp_snode with
  | Some x =>
      modify child (with_exp_snode (Some x)) >>
      modify x (λ nd, with_exponent_users (exponent_users nd ++ [child]) nd)
  | None => ret tt
  end >>
  when (negb (bool_decide (offset = []))) (set_index_offsets child offset).

(** The else branch of [SNode::place]: [this] is not the root. *)
Definition place_here (this : addr) (expr_ : Expr) (offset : list Z) : M unit :=
  let! st := get_state in
  match expr_ with
  | None => fatal "expr_.is<GlobalVariableExpression>()"
  | Some e =>
      match exprs st !! e with
      | None => undefined
      | Some OtherExpression => fatal "expr_.is<GlobalVariableExpression>()"
      | Some (GlobalVariable g) =>
          when (bool_decide (gv_snode g ≠ None))
            (fatal "This variable has been placed.") >>
          let! new_exp_snode :=
            match get_exponent_type (gv_dt g) with
            | Some exp => let! x := place_exponent this g exp in ret (Some x)
            | None => ret None
            end in
          place_value this e g new_exp_snode offset
      end
  end.

(** [SNode::place].  On the root the call goes to a fresh zero-axis dense
    child, which is not a root, so the recursion of the source ends there. *)
Definition place (this : addr) (expr_ : Expr) (offset : list Z) : M unit :=
  let! nd := deref this in
  if bool_decide (type nd = SNodeType.root)
  then let! d := dense this [] [] in place_here d expr_ offset
  else place_here this expr_ offset.

(** [SNode::is_primal] *)
Definition is_primal (this : addr) : M bool :=
  let! nd := deref this in
  TI_ASSERT (bool_decide (expr nd ≠ None)) "expr.expr != nullptr" >>
  let! g := deref_gve (expr nd) in
  ret (gv_is_primal g).

(** [SNode::is_place] *)
Definition is_place (nd : SNode) : bool := bool_decide (type nd = SNodeType.place).

(** [SNode::is_scalar] *)
Definition is_scalar (nd : SNode) : bool := is_place nd && (num_active_indices nd =? 0).

(** [SNode::get_node_type_name]: the letter S and the id in decimal. *)
Definition get_node_type_name (nd : SNode) : string := "S" +:+ pretty (id nd).

(** [SNode::has_grad] *)
Definition has_grad (this : addr) : M bool :=
  let! nd := deref this in
  let! g := deref_gve (expr nd) in
  let adjoint := gv_adjoint g in
  let! p := is_primal this in
  if p && bool_decide (adjoint ≠ None)
  then let! ga := deref_gve adjoint in ret (bool_decide (gv_snode ga ≠ None))
  else ret false.

(** [SNode::get_grad] *)
Definition get_grad (this : addr) : M (option addr) :=
  let! b := has_grad this in
  TI_ASSERT b "has_grad()" >>
  let! nd := deref this in
  let! g := deref_gve (expr nd) in
  let! ga := deref_gve (gv_adjoint g) in
  ret (gv_snode ga).

(** The test of the second loop of [lazy_grad] on child [c]: the adjoint to
    place, if the child asks for one. *)
Definition grad_to_place (c : addr) : M (option Expr) :=
  let! cn := deref c in
  if bool_decide (type cn = SNodeType.place) then
    let! p := is_primal c in
    if p && needs_grad (dt cn) then
      let! hg := has_grad c in
      if negb hg
      then let! g := deref_gve (expr cn) in ret (Some (gv_adjoint g))
      else ret None
    else ret None
  else ret None.

Fixpoint collect_grads (cs : list addr) : M (list Expr) :=
  match cs with
  | [] => ret []
  | c :: cs' =>
      let! o := grad_to_place c in
      let! rest := collect_grads cs' in
      ret (match o with Some p => p :: rest | None => rest end)
  end.

(** [SNode::lazy_grad]; [fuel] bounds the depth of the recursion. *)
Fixpoint lazy_grad (fuel : nat) (this : addr) : M unit :=
  match fuel with
  | O => out_of_fuel
  | S fuel' =>
      let! nd := deref this in
      if bool_decide (type nd = SNodeType.place) then ret tt else
      for_each (ch nd) (lazy_grad fuel') >>
      let! nd' := deref this in
      let! new_grads := collect_grads (ch nd') in
      for_each new_grads (λ p, place this p [])
  end.

(** The loop of [SNode::get_least_sparse_ancestor]. *)
Fixpoint sparse_ancestor_loop (fuel : nat) (result : addr) : M (option addr) :=
  match fuel with
  | O => out_of_fuel
  | S fuel' =>
      let! nd := deref result in
      if need_activation nd then ret (Some result) else
      match parent nd with
      | None => fatal "result"
      | Some p => sparse_ancestor_loop fuel' p
      end
  end.

(** [SNode::get_least_sparse_ancestor] *)
Definition get_least_sparse_ancestor (fuel : nat) (this : addr) : M (option addr) :=
  let! nd := deref this in
  if is_path_all_dense nd then ret None else sparse_ancestor_loop fuel this.

(** [1 << k] on int. *)
Definition shl1 (k : Z) : option Z :=
  if (0 <=? k) && (k <? 32) then Some (int32 (2 ^ k)) else None.

(** [SNode::shape_along_axis] *)
Definition shape_along_axis (this : addr) (i : Z) : M Z :=
  let! nd := deref this in
  match array_get (physical_index_position nd) i with
  | None => undefined
  | Some p =>
      match array_get (extractors nd) p with
      | None => undefined
      | Some extractor =>
          match shl1 (trailing_bits extractor) with
          | None => undefined
          | Some m => ret (int32 (num_elements extractor * m))
          end
      end
  end.

(** The loop of [SNode::get_num_bits]. *)
Fixpoint get_num_bits_loop (fuel : nat) (physical_index : Z) (result : Z)
    (snode : option addr) : M Z :=
  match snode with
  | None => ret result
  | Some s =>
      match fuel with
      | O => out_of_fuel
      | S fuel' =>
          let! nd := deref s in
          match array_get (extractors nd) physical_index with
          | None => undefined
          | Some e =>
              get_num_bits_loop fuel' physical_index (int32 (result + num_bits e))
                (parent nd)
          end
      end
  end.

(** [SNode::get_num_bits] *)
Definition get_num_bits (fuel : nat) (this : addr) (physical_index : Z) : M Z :=
  get_num_bits_loop fuel physical_index 0 (Some this).

(** [SNode::begin_shared_exp_placement] *)
Definition begin_shared_exp_placement : M unit :=
  let! st := get_state in
  TI_ASSERT (negb (placing_shared_exp st)) "!placing_shared_exp" >>
  TI_ASSERT (bool_decide (currently_placing_exp_snode st = None))
    "currently_placing_exp_snode == nullptr" >>
  λ s, Ok tt (set_session true (currently_placing_exp_snode s)
                (currently_placing_exp_snode_dtype s) s).

(** [SNode::end_shared_exp_placement] *)
Definition end_shared_exp_placement : M unit :=
  let! st := get_state in
  TI_ASSERT (placing_shared_exp st) "placing_shared_exp" >>
  TI_ASSERT (bool_decide (currently_placing_exp_snode st ≠ None))
    "currently_placing_exp_snode != nullptr" >>
  λ s, Ok tt (set_session false None (currently_placing_exp_snode_dtype s) s).

(** The state in which only the root exists: [SNode(0, SNodeType::root)]. *)
Definition initial_state : State :=
  {| nodes := [SNode_init 0 0 SNodeType.root]; exprs := []; counter := 1;
     placing_shared_exp := false; currently_placing_exp_snode := None;
     currently_placing_exp_snode_dtype := None |}.
End SNode.

(** * Vocabulary of the properties

    The words in which the properties below are stated and proved: states
    that calls lead to, relations between states, and predicates on nodes. *)

Section Vocabulary.
Context `{Declarations}.

Definition product (l : list Z) : Z := foldr Z.mul 1 l.

(** The child that [insert_children] makes under a node whose record is
    [nd]. *)
Definition fresh_child (nd : SNode) (t : SNodeType.t) (st : State) : SNode :=
  with_is_path_all_dense (is_path_all_dense nd && negb (need_activation_type t))
    (SNode_init (counter st) (int32 (depth nd + 1)) t).

(** The state after [insert_children] on [this], whose record was [nd]. *)
Definition inserted (this : addr) (t : SNodeType.t) (nd : SNode) (st : State) : State :=
  set_counter (int32 (counter st + 1))
    (set_nodes
       (<[this := with_ch (ch nd ++ [length (nodes st)]) nd]> (nodes st)
        ++ [fresh_child nd t st]) st).

(** The extractor of an axis after the second loop of [create_node] has
    visited it with requested size [s]. *)
Definition activated (s : Z) (e : Extractor) : Extractor :=
  with_num_elements s (activate (log2int (least_pot_bound s)) e).

Definition activate_in (exs : list Extractor) (ax : Index * Z) : list Extractor :=
  match exs !! Z.to_nat (value ax.1) with
  | Some e => <[Z.to_nat (value ax.1) := activated ax.2 e]> exs
  | None => exs
  end.

(** The node that [create_node] makes under a node whose record is [nd]. *)
Definition created_node (nd : SNode) (t : SNodeType.t) (indices : list Index)
    (sizes : list Z) (st : State) : SNode :=
  let c := with_n (product (least_pot_bound <$> broadcast indices sizes))
             (fresh_child nd t st) in
  with_extractors (foldl activate_in (extractors c) (zip indices (broadcast indices sizes)))
    c.

(** An axis list is valid when its axes are distinct and below the fixed
    number of axes. *)
Definition valid_axes (indices : list Index) : Prop :=
  NoDup (value <$> indices)
  ∧ Forall (λ i, 0 <= value i < Z.of_nat taichi_max_num_indices) indices.

Definition hoare {A} (P : State → Prop) (m : M A) (Q : A → State → Prop)
    (E : string → State → Prop) : Prop :=
  ∀ st, P st →
    match m st with
    | Ok a st' => Q a st'
    | Fatal msg st' => E msg st'
    | Undefined | OutOfFuel => True
    end.

Definition hash_message : string :=
  "hashed node must be child of root due to initialization memset limitation.".

(** [m] never stops at the assertion with message [msg]. *)
Definition never_fails_with {A} (msg : string) (m : M A) : Prop :=
  hoare (λ _, True) m (λ _ _, True) (λ msg' _, msg' ≠ msg).

(** The nodes met by following [parent] from a node up to the node whose
    parent is null, the start first. *)
Inductive parent_chain (st : State) : addr → list addr → Prop :=
| parent_chain_root x nd :
    nodes st !! x = Some nd → parent nd = None → parent_chain st x [x]
| parent_chain_step x nd p l :
    nodes st !! x = Some nd → parent nd = Some p → parent_chain st p l →
    parent_chain st x (x :: l).

Definition need_activation_at (st : State) (x : addr) : bool :=
  match nodes st !! x with
  | Some nd => need_activation nd
  | None => false
  end.

Definition num_bits_at (st : State) (physical_index : Z) (x : addr) : Z :=
  match nodes st !! x with
  | Some nd =>
      match array_get (extractors nd) physical_index with
      | Some e => num_bits e
      | None => 0
      end
  | None => 0
  end.

Definition sum (l : list Z) : Z := foldr Z.add 0 l.

(** [m] keeps [I], also in the state it leaves behind at a failed
    assertion. *)
Definition preserves {A} (I : State → Prop) (m : M A) : Prop :=
  hoare I m (λ _, I) (λ _, I).

(** The part of a node that the shape of the tree and the dense-path flags
    depend on. *)
Definition skeleton (nd : SNode) : SNodeType.t * list addr * bool :=
  (type nd, ch nd, is_path_all_dense nd).

(** An invariant that reads nothing but the skeletons of the nodes. *)
Definition skeletal (I : State → Prop) : Prop :=
  ∀ st st', skeleton <$> nodes st' = skeleton <$> nodes st → I st → I st'.

(** The calls by which the tree is built. *)
Inductive call : Type :=
| call_insert_children (this : addr) (t : SNodeType.t)
| call_create_node (this : addr) (indices : list Index) (sizes : list Z)
    (t : SNodeType.t)
| call_dynamic (this : addr) (expr_ : Index) (n_ chunk_size_ : Z)
| call_bit_struct (this : addr) (num_bits_ : Z)
| call_bit_array (this : addr) (indices : list Index) (sizes : list Z) (bits : Z)
| call_place (this : addr) (expr_ : Expr) (offset : list Z)
| call_lazy_grad (fuel : nat) (this : addr)
| call_begin_shared_exp_placement
| call_end_shared_exp_placement.

Definition run (c : call) : M unit :=
  match c with
  | call_insert_children this t => insert_children this t >> ret tt
  | call_create_node this indices sizes t => create_node this indices sizes t >> ret tt
  | call_dynamic this expr_ n_ chunk_size_ => dynamic this expr_ n_ chunk_size_ >> ret tt
  | call_bit_struct this num_bits_ => bit_struct this num_bits_ >> ret tt
  | call_bit_array this indices sizes bits => bit_array this indices sizes bits >> ret tt
  | call_place this expr_ offset => place this expr_ offset
  | call_lazy_grad fuel this => lazy_grad fuel this
  | call_begin_shared_exp_placement => begin_shared_exp_placement
  | call_end_shared_exp_placement => end_shared_exp_placement
  end.

(** The states of a build: from the lone root, by calls that return or stop
    at an assertion, while the field-declaration layer creates and changes
    expression objects at will. *)
Inductive built : State → Prop :=
| built_initial : built initial_state
| built_declare st l : built st → built (set_exprs l st)
| built_returns st c st' : built st → run c st = Ok tt st' → built st'
| built_fails st c msg st' : built st → run c st = Fatal msg st' → built st'.

(** The nodes from the root (address 0) down to a node, along [ch]. *)
Inductive tree_path (st : State) : addr → list addr → Prop :=
| tree_path_root : tree_path st 0%nat [0%nat]
| tree_path_child p l nd c :
    tree_path st p l → nodes st !! p = Some nd → c ∈ ch nd →
    tree_path st c (l ++ [c]).

(** The root's flag is set, and the flag of every child is the conjunction of
    its parent's flag and it not needing activation. *)
Definition flags_consistent (st : State) : Prop :=
  (∃ r, nodes st !! 0%nat = Some r
        ∧ type r = SNodeType.root ∧ is_path_all_dense r = true)
  ∧ ∀ p nd c, nodes st !! p = Some nd → c ∈ ch nd →
      ∃ cn, nodes st !! c = Some cn
            ∧ is_path_all_dense cn = is_path_all_dense nd && negb (need_activation cn).

(** The record of the value leaf once [place] has filled it in. *)
Definition placed_leaf (g : GlobalVariableExpression) (e : nat) (shared : bool)
    (new_exp : option addr) (offset : list Z) (c0 : SNode) : SNode :=
  let c1 := with_name (gv_ident g) c0 in
  let c2 := if gv_has_ambient g
            then with_ambient_val (gv_ambient_value g) (with_has_ambient true c1)
            else c1 in
  let c3 := with_expr (Some e) c2 in
  let c4 := if shared then with_owns_shared_exponent true c3 else c3 in
  let c5 := with_dt (gv_dt g) c4 in
  let c6 := match new_exp with Some x => with_exp_snode (Some x) c5 | None => c5 end in
  if bool_decide (offset = []) then c6 else with_index_offsets offset c6.

Definition add_exponent_user (child : addr) (xn : SNode) : SNode :=
  with_exponent_users (exponent_users xn ++ [child]) xn.

(** The state after [place_value] on [this], whose record was [nd]. *)
Definition value_placed (this : addr) (e : nat) (g : GlobalVariableExpression)
    (new_exp : option addr) (offset : list Z) (nd : SNode) (st : State) : State :=
  let a := length (nodes st) in
  let l := <[this := with_ch (ch nd ++ [a]) nd]> (nodes st) in
  let l' := match new_exp with
            | Some x => alter (add_exponent_user a) x l
            | None => l
            end in
  mkState
    (l' ++ [placed_leaf g e (placing_shared_exp st) new_exp offset
              (fresh_child nd SNodeType.place st)])
    (<[e := GlobalVariable (set_snode (Some a) g)]> (exprs st))
    (int32 (counter st + 1))
    (placing_shared_exp st) (currently_placing_exp_snode st)
    (currently_placing_exp_snode_dtype st).

(** The state after [place_exponent] has inserted a fresh exponent leaf under
    [this], whose record was [nd]. *)
Definition exponent_placed (this : addr) (g : GlobalVariableExpression)
    (exp : DataType) (nd : SNode) (st : State) : State :=
  let a := length (nodes st) in
  mkState
    (<[this := with_ch (ch nd ++ [a]) nd]> (nodes st)
     ++ [with_name (gv_ident g ++ "_exp")
           (with_dt exp (fresh_child nd SNodeType.place st))])
    (exprs st)
    (int32 (counter st + 1))
    (placing_shared_exp st)
    (if placing_shared_exp st then Some a else currently_placing_exp_snode st)
    (if placing_shared_exp st then Some exp else currently_placing_exp_snode_dtype st).

(** The node and the state in which the else branch of [place] runs: on the
    root, the fresh zero-axis dense child. *)
Definition entry (this : addr) (nd : SNode) (st : State) : addr * SNode * State :=
  if bool_decide (type nd = SNodeType.root)
  then (length (nodes st),
        with_n 1 (fresh_child nd SNodeType.dense st),
        mkState
          (<[this := with_ch (ch nd ++ [length (nodes st)]) nd]> (nodes st)
           ++ [with_n 1 (fresh_child nd SNodeType.dense st)])
          (exprs st) (int32 (counter st + 1)) (placing_shared_exp st)
          (currently_placing_exp_snode st) (currently_placing_exp_snode_dtype st))
  else (this, nd, st).

(** How a node that exists before a placement looks after it: it keeps its
    kind and its links, and gains the children [cs] and exponent users
    [us]. *)
Definition evolved (cs us : list addr) (x x' : SNode) : Prop :=
  type x' = type x ∧ expr x' = expr x ∧ exp_snode x' = exp_snode x ∧ dt x' = dt x
  ∧ ch x' = ch x ++ cs ∧ exponent_users x' = exponent_users x ++ us.

Definition is_place_at (st : State) (a : addr) : bool :=
  match nodes st !! a with
  | Some nd => is_place nd
  | None => false
  end.

(** The place leaves that exist in [st'] and did not in [st], in the order of
    their creation. *)
Definition new_place_leaves (st st' : State) : list addr :=
  filter (λ a, is_place_at st' a)
    (seq (length (nodes st)) (length (nodes st') - length (nodes st))).

(** The global variable that an [Expr] points to, if it points to one. *)
Definition gve_at (st : State) (e : Expr) : option GlobalVariableExpression :=
  match e with
  | Some a =>
      match exprs st !! a with
      | Some (GlobalVariable g) => Some g
      | _ => None
      end
  | None => None
  end.

(** The field bound to [p] is bound to a node. *)
Definition bound (st : State) (p : Expr) : Prop :=
  ∃ ga, gve_at st p = Some ga ∧ gv_snode ga ≠ None.

(** The second loop of [lazy_grad] collects adjoint [p] for child [c]. *)
Definition wants (st : State) (c : addr) (p : Expr) : Prop :=
  ∃ cn g, nodes st !! c = Some cn ∧ type cn = SNodeType.place
          ∧ gve_at st (expr cn) = Some g ∧ gv_is_primal g = true
          ∧ p = gv_adjoint g.

(** The second loop of [lazy_grad] passes over child [c] without a failure
    and without collecting anything for it. *)
Definition settled (st : State) (c : addr) : Prop :=
  ∃ cn, nodes st !! c = Some cn
        ∧ (type cn ≠ SNodeType.place
           ∨ ∃ g, gve_at st (expr cn) = Some g
                  ∧ (gv_is_primal g && needs_grad (dt cn) = false
                     ∨ gv_is_primal g = true ∧ bound st (gv_adjoint g))).

(** A subtree on which [lazy_grad] has nothing left to do: every place child
    of every node it visits is settled. *)
Inductive quiet (st : State) : addr → Prop :=
| quiet_place x nd :
    nodes st !! x = Some nd → type nd = SNodeType.place → quiet st x
| quiet_inner x nd :
    nodes st !! x = Some nd → type nd ≠ SNodeType.place →
    Forall (quiet st) (ch nd) → Forall (settled st) (ch nd) →
    quiet st x.

(** What [extends] keeps of an expression object: its kind and, for a global
    variable, everything but the binding, which is only ever set. *)
Definition expr_kept (o o' : option Expression) : Prop :=
  match o, o' with
  | Some (GlobalVariable g), Some (GlobalVariable g') =>
      gv_is_primal g' = gv_is_primal g ∧ gv_adjoint g' = gv_adjoint g
      ∧ gv_dt g' = gv_dt g ∧ (gv_snode g ≠ None → gv_snode g' ≠ None)
  | Some OtherExpression, Some OtherExpression => True
  | None, None => True
  | _, _ => False
  end.

(** [st'] is [st] after some gradient leaves were placed: the old nodes keep
    their kind, field and type and gain new children only, the new nodes ask
    nothing of [lazy_grad], and fields are only ever bound. *)
Definition extends (st st' : State) : Prop :=
  (length (nodes st) <= length (nodes st'))%nat
  ∧ (∀ a x, nodes st !! a = Some x →
       ∃ x' cs, nodes st' !! a = Some x'
                ∧ type x' = type x ∧ expr x' = expr x ∧ dt x' = dt x
                ∧ ch x' = ch x ++ cs
                ∧ Forall (λ c, (length (nodes st) <= c < length (nodes st'))%nat) cs)
  ∧ (∀ a, (length (nodes st) <= a < length (nodes st'))%nat →
       quiet st' a ∧ settled st' a)
  ∧ (∀ e, expr_kept (exprs st !! e) (exprs st' !! e)).

(** An adjoint field that is not itself primal and whose type has no exponent
    component. *)
Definition plain (st : State) (p : Expr) : Prop :=
  ∀ ga, gve_at st p = Some ga →
    gv_is_primal ga = false ∧ get_exponent_type (gv_dt ga) = None.

Definition adjoints_plain (st : State) : Prop :=
  ∀ e g, exprs st !! e = Some (GlobalVariable g) → plain st (gv_adjoint g).

(** What the builder fixes of a node when it makes it, and the children it
    gives it later. *)
Definition outline (nd : SNode)
  : Z * Z * SNodeType.t * list addr * option addr * list Z * Z * Z * Z :=
  (id nd, depth nd, type nd, ch nd, parent nd, physical_index_position nd,
   num_active_indices nd, total_num_bits nd, total_bit_start nd).

(** An invariant that reads nothing but the outlines of the nodes and the id
    counter. *)
Definition structural (I : State → Prop) : Prop :=
  ∀ st st', outline <$> nodes st' = outline <$> nodes st → counter st' = counter st →
    I st → I st'.

(** Ids are handed out in the order of creation, from the static counter. *)
Definition ids_in_order (st : State) : Prop :=
  counter st = int32 (Z.of_nat (length (nodes st)))
  ∧ ∀ a nd, nodes st !! a = Some nd → id nd = int32 (Z.of_nat a).

(** Address 0 holds the root, and nothing else is of kind root. *)
Definition single_root (st : State) : Prop :=
  (∃ r, nodes st !! 0%nat = Some r ∧ type r = SNodeType.root)
  ∧ ∀ a nd, nodes st !! a = Some nd → type nd = SNodeType.root → a = 0%nat.

(** The [ch] lists make the nodes a tree below address 0: a child is younger
    than its parent and one level deeper, every node but the first is the
    child of exactly one node, and no list names a child twice. *)
Definition tree_shaped (st : State) : Prop :=
  (∃ r, nodes st !! 0%nat = Some r ∧ depth r = 0)
  ∧ (∀ p nd c, nodes st !! p = Some nd → c ∈ ch nd →
       (p < c)%nat
       ∧ ∃ cn, nodes st !! c = Some cn ∧ depth cn = int32 (depth nd + 1))
  ∧ (∀ c, (0 < c < length (nodes st))%nat →
       ∃ p nd, nodes st !! p = Some nd ∧ c ∈ ch nd)
  ∧ (∀ p q pn qn c, nodes st !! p = Some pn → nodes st !! q = Some qn →
       c ∈ ch pn → c ∈ ch qn → p = q)
  ∧ (∀ p nd, nodes st !! p = Some nd → NoDup (ch nd)).

(** The members that only structure compilation assigns still have the values
    the constructor gave them. *)
Definition uncompiled (st : State) : Prop :=
  ∀ a nd, nodes st !! a = Some nd →
    parent nd = None
    ∧ physical_index_position nd = replicate taichi_max_num_indices (-1)
    ∧ num_active_indices nd = 0
    ∧ total_num_bits nd = 0 ∧ total_bit_start nd = 0.

(** The exponent node of the session, when there is one, belongs to an open
    session, comes with its exponent type, and is a place node. *)
Definition session_consistent (st : State) : Prop :=
  ∀ e, currently_placing_exp_snode st = Some e →
    placing_shared_exp st = true
    ∧ is_Some (currently_placing_exp_snode_dtype st)
    ∧ ∃ nd, nodes st !! e = Some nd ∧ type nd = SNodeType.place.
End Vocabulary.

(** * Concrete states

    One choice of the outside declarations and a few small trees, used to
    exercise the properties. *)

(** A choice of the outside declarations: eight axes, a 64-bit [n], and
    type handles 1 (a real type that needs a gradient), 2 (an exponent type)
    and 3 (a custom float with exponent type 2). *)
Definition reference_declarations : Declarations :=
  {| taichi_max_num_indices := 8;
     n_bits := 64;
     IndexExtractor_default := mkExtractor false 0 0 1;
     PrimitiveType_gen := 0%nat;
     get_exponent_type := λ dt, if Nat.eqb dt 3 then Some 2%nat else None;
     needs_grad := λ dt, Nat.eqb dt 1;
     get_primitive_int_type := λ bits _, (100 + Z.to_nat bits)%nat |}.

(** Declarations with two custom-float types of different exponent types:
    handle 3 with exponent type 2, handle 5 with exponent type 4. *)
Definition two_exponent_declarations : Declarations :=
  {| taichi_max_num_indices := 8;
     n_bits := 64;
     IndexExtractor_default := mkExtractor false 0 0 1;
     PrimitiveType_gen := 0%nat;
     get_exponent_type :=
       λ dt, if Nat.eqb dt 3 then Some 2%nat
             else if Nat.eqb dt 5 then Some 4%nat else None;
     needs_grad := λ dt, Nat.eqb dt 1;
     get_primitive_int_type := λ bits _, (100 + Z.to_nat bits)%nat |}.

Section ConcreteStates.
#[local] Existing Instance reference_declarations.

(** The state of an outcome that returned or stopped at an assertion. *)
Definition state_of {A} (o : outcome A) : State :=
  match o with
  | Ok _ st | Fatal _ st => st
  | _ => initial_state
  end.

(** The record at an address of a state that has one there. *)
Definition node_at (st : State) (a : addr) : SNode :=
  default (SNode_init 0 0 SNodeType.undefined) (nodes st !! a).

(** root -> pointer(axis 0, 4). *)
Definition pointer_tree : State :=
  state_of (create_node 0%nat [mkIndex 0] [4] SNodeType.pointer initial_state).

(** root -> pointer(axis 0, 4) -> dense(axis 0, 8). *)
Definition sparse_tree : State :=
  state_of (create_node 1%nat [mkIndex 0] [8] SNodeType.dense pointer_tree).

(** The same tree once structure compilation has set the parent links. *)
Definition compiled_tree : State :=
  set_nodes (imap (λ a nd, with_parent (if a is S a' then Some a' else None) nd)
               (nodes sparse_tree)) sparse_tree.

(** Two declared fields of a custom-float type with exponent (handle 3). *)
Definition field_x : GlobalVariableExpression :=
  mkGlobalVariableExpression "x" 3%nat None false 0 true None.

Definition field_y : GlobalVariableExpression :=
  mkGlobalVariableExpression "y" 3%nat None false 0 true None.

(** root -> dense(axis 0, 4). *)
Definition dense_tree : State :=
  state_of (create_node 0%nat [mkIndex 0] [4] SNodeType.dense initial_state).

(** The dense tree with the two fields declared and a shared-exponent
    session begun. *)
Definition session_state : State :=
  state_of
    (begin_shared_exp_placement
       (set_exprs [GlobalVariable field_x; GlobalVariable field_y] dense_tree)).

(** The dense tree with a primal field x of a real type (handle 1), its
    declared adjoint x_grad, and the adjoint's own adjoint; [b] says whether
    x_grad is marked primal. *)
Definition declared_state (b : bool) : State :=
  set_exprs
    [GlobalVariable (mkGlobalVariableExpression "x" 1%nat None false 0 true (Some 1%nat));
     GlobalVariable
       (mkGlobalVariableExpression "x_grad" 1%nat None false 0 b (Some 2%nat));
     GlobalVariable
       (mkGlobalVariableExpression "x_grad_grad" 1%nat None false 0 false None)]
    dense_tree.

(** root -> dense(axis 0, 4) -> place x. *)
Definition placed_state (b : bool) : State :=
  state_of (place 1%nat (Some 0%nat) [] (declared_state b)).

(** The dense tree with the two fields declared, no session begun. *)
Definition fields_state : State :=
  set_exprs [GlobalVariable field_x; GlobalVariable field_y] dense_tree.

(** The session state after field x was placed under the dense node. *)
Definition session_x_state : State :=
  state_of (place 1%nat (Some 0%nat) [] session_state).

(** A field without exponent type, with an ambient value. *)
Definition field_a : GlobalVariableExpression :=
  mkGlobalVariableExpression "a" 1%nat None true 7 true None.

Definition ambient_state : State := set_exprs [GlobalVariable field_a] dense_tree.
End ConcreteStates.

Section MixedExponentStates.
#[local] Existing Instance two_exponent_declarations.

(** A session under the dense node in which field x, of exponent type 2, is
    placed, and field z, of exponent type 4, is declared. *)
Definition mixed_session_state : State :=
  state_of
    (place 1%nat (Some 0%nat) []
       (state_of
          (begin_shared_exp_placement
             (set_exprs
                [GlobalVariable field_x;
                 GlobalVariable (mkGlobalVariableExpression "z" 5%nat None false 0 true None)]
                (state_of (create_node 0%nat [mkIndex 0] [4] SNodeType.dense
                             initial_state)))))).
End MixedExponentStates.

(** * Properties *)

(** ** Arithmetic of the helpers *)

Lemma wrap_small w x : 0 < w → - 2 ^ (w - 1) <= x < 2 ^ (w - 1) → wrap w x = x.
Proof.
  intros Hw Hx. unfold wrap.
  assert (2 ^ w = 2 * 2 ^ (w - 1)) as ->.
  { rewrite <- Z.pow_succ_r by lia. f_equal. lia. }
  rewrite Z.mod_small; lia.
Qed.

Lemma int32_small x : is_int x → int32 x = x.
Proof. intros Hx. apply wrap_small; [lia | exact Hx]. Qed.

Lemma is_power_of_two_pow2 k : 0 <= k → is_power_of_two (2 ^ k) = true.
Proof.
  intros Hk. unfold is_power_of_two. rewrite Z.log2_pow2 by lia.
  apply andb_true_intro. split; [apply Z.ltb_lt; lia | apply Z.eqb_eq; reflexivity].
Qed.

Lemma is_power_of_two_spec x : is_power_of_two x = true ↔ ∃ k, 0 <= k ∧ x = 2 ^ k.
Proof.
  split.
  - unfold is_power_of_two. intros [Hpos Heq]%andb_prop.
    apply Z.eqb_eq in Heq. exists (Z.log2 x). split; [apply Z.log2_nonneg | lia].
  - intros (k & Hk & ->). by apply is_power_of_two_pow2.
Qed.

Lemma least_pot_bound_pos x : 0 < least_pot_bound x.
Proof. unfold least_pot_bound. apply Z.pow_pos_nonneg; [lia | apply Z.log2_up_nonneg]. Qed.

Lemma least_pot_bound_ge x : x <= least_pot_bound x.
Proof.
  unfold least_pot_bound. destruct (Z_lt_le_dec 0 x) as [Hx | Hx].
  - apply Z.log2_log2_up_spec, Hx.
  - pose proof (least_pot_bound_pos x). unfold least_pot_bound in *. lia.
Qed.

Lemma least_pot_bound_is_power x : is_power_of_two (least_pot_bound x) = true.
Proof. apply is_power_of_two_pow2, Z.log2_up_nonneg. Qed.

(** [least_pot_bound] is what the spec calls the least power of two greater
    than or equal to a positive size. *)
Lemma least_pot_bound_least x p :
  0 < x → is_power_of_two p = true → x <= p → least_pot_bound x <= p.
Proof.
  intros Hx (k & Hk & ->)%is_power_of_two_spec Hle. unfold least_pot_bound.
  apply Z.pow_le_mono_r; [lia |]. by apply Z.log2_up_le_pow2.
Qed.

Lemma least_pot_bound_fixed x : is_power_of_two x = true → least_pot_bound x = x.
Proof.
  intros (k & Hk & ->)%is_power_of_two_spec. unfold least_pot_bound.
  by rewrite Z.log2_up_pow2.
Qed.

Lemma least_pot_bound_le_pow2 x k : 0 < x → 0 <= k → x <= 2 ^ k → least_pot_bound x <= 2 ^ k.
Proof.
  intros Hx Hk Hle. apply least_pot_bound_least; [done | by apply is_power_of_two_pow2 | done].
Qed.

Lemma log2int_least_pot_bound x : 2 ^ log2int (least_pot_bound x) = least_pot_bound x.
Proof.
  unfold log2int, least_pot_bound. rewrite Z.log2_pow2; [done | apply Z.log2_up_nonneg].
Qed.

(** The value of [s] after the promotion step of [create_node], for a size
    whose promotion is representable as an int. *)
Lemma promoted_size s :
  1 <= s <= 2 ^ 30 →
  (if is_power_of_two s then s else int32 (least_pot_bound s)) = least_pot_bound s.
Proof.
  intros Hs. destruct (is_power_of_two s) eqn:Hp.
  - by rewrite least_pot_bound_fixed.
  - apply int32_small. unfold is_int.
    pose proof (least_pot_bound_pos s).
    pose proof (least_pot_bound_le_pow2 s 30). lia.
Qed.

Lemma product_pos l : Forall (λ x, 1 <= x) l → 1 <= product l.
Proof. induction 1; simpl; nia. Qed.

(** ** Stepping through computations *)

Lemma bind_Ok {A B} (m : M A) (k : A → M B) st a st' :
  m st = Ok a st' → bind m k st = k a st'.
Proof. unfold bind. by intros ->. Qed.

Lemma bind_Fatal {A B} (m : M A) (k : A → M B) st msg st' :
  m st = Fatal msg st' → bind m k st = Fatal msg st'.
Proof. unfold bind. by intros ->. Qed.

Lemma deref_Ok p st nd : nodes st !! p = Some nd → deref p st = Ok nd st.
Proof. unfold deref. by intros ->. Qed.

Lemma modify_Ok p f st nd :
  nodes st !! p = Some nd →
  modify p f st = Ok tt (set_nodes (<[p := f nd]> (nodes st)) st).
Proof. unfold modify. by intros ->. Qed.

Lemma TI_ASSERT_true msg st : TI_ASSERT true msg st = Ok tt st.
Proof. done. Qed.

Lemma TI_ASSERT_false msg st : TI_ASSERT false msg st = Fatal msg st.
Proof. done. Qed.

Lemma lookup_set_nodes_eq l st p nd :
  (p < length l)%nat → nodes (set_nodes (<[p := nd]> l) st) !! p = Some nd.
Proof. intros Hp. simpl. by apply list_lookup_insert_eq. Qed.

(** ** Node creation *)

Section Construction.
Context `{Declarations}.

Lemma insert_children_Ok this t st nd :
  nodes st !! this = Some nd → t ≠ SNodeType.root →
  insert_children this t st = Ok (length (nodes st)) (inserted this t nd st).
Proof.
  intros Hnd Ht. pose proof (lookup_lt_Some _ _ _ Hnd) as Hlt.
  unfold insert_children.
  rewrite bool_decide_eq_false_2 by done. simpl negb.
  erewrite bind_Ok by apply TI_ASSERT_true.
  erewrite bind_Ok by (by apply deref_Ok).
  erewrite bind_Ok by reflexivity.
  erewrite bind_Ok.
  2:{ apply deref_Ok. simpl. rewrite lookup_app_r by lia.
      rewrite Nat.sub_diag. reflexivity. }
  erewrite bind_Ok.
  2:{ apply modify_Ok. simpl. rewrite lookup_app_r by lia.
      rewrite Nat.sub_diag. reflexivity. }
  erewrite bind_Ok.
  2:{ apply modify_Ok. simpl. rewrite list_lookup_insert_ne by lia.
      rewrite lookup_app_l by lia. exact Hnd. }
  unfold ret, inserted, set_counter, set_nodes. simpl. do 2 f_equal.
  rewrite (insert_app_r_alt _ _ (length (nodes st))) by lia.
  rewrite Nat.sub_diag. simpl. by rewrite insert_app_l by lia.
Qed.

Lemma with_n_same c : with_n (n c) c = c.
Proof. by destruct c. Qed.

Lemma with_n_with_n x y c : with_n x (with_n y c) = with_n x c.
Proof. done. Qed.

Lemma set_nodes_same st : set_nodes (nodes st) st = st.
Proof. by destruct st. Qed.

Lemma set_nodes_set_nodes l l' st : set_nodes l (set_nodes l' st) = set_nodes l st.
Proof. done. Qed.

Lemma modify_id_state a c st :
  nodes st !! a = Some c → set_nodes (<[a := c]> (nodes st)) st = st.
Proof. intros Hc. rewrite list_insert_id by done. apply set_nodes_same. Qed.

Lemma accumulate_size_Ok a s st c :
  nodes st !! a = Some c →
  1 <= s <= 2 ^ 30 →
  - 2 ^ (n_bits - 1) <= n c * least_pot_bound s < 2 ^ (n_bits - 1) →
  0 < n_bits →
  accumulate_size a s st
  = Ok tt (set_nodes (<[a := with_n (n c * least_pot_bound s) c]> (nodes st)) st).
Proof.
  intros Hc Hs Hfit Hbits. unfold accumulate_size. rewrite promoted_size by done.
  replace (0 <? s) with true by (symmetry; apply Z.ltb_lt; lia).
  erewrite bind_Ok by apply TI_ASSERT_true.
  rewrite least_pot_bound_is_power.
  erewrite bind_Ok by apply TI_ASSERT_true.
  erewrite modify_Ok by done. by rewrite wrap_small.
Qed.

(** The first loop of [create_node] multiplies [n] by the promoted sizes. *)
Lemma accumulate_sizes_Ok a sizes : ∀ st c,
  nodes st !! a = Some c →
  Forall (λ s, 1 <= s <= 2 ^ 30) sizes →
  1 <= n c →
  n c * product (least_pot_bound <$> sizes) < 2 ^ (n_bits - 1) →
  for_each sizes (accumulate_size a) st
  = Ok tt (set_nodes
             (<[a := with_n (n c * product (least_pot_bound <$> sizes)) c]> (nodes st))
             st).
Proof.
  induction sizes as [| s sizes IH]; intros st c Hc Hsz Hn Hfit.
  - simpl. rewrite Z.mul_1_r, with_n_same, modify_id_state by done. done.
  - apply Forall_cons in Hsz as [Hs Hsz].
    change (product (least_pot_bound <$> s :: sizes))
      with (least_pot_bound s * product (least_pot_bound <$> sizes)) in *.
    change (for_each (s :: sizes) (accumulate_size a))
      with (accumulate_size a s >> for_each sizes (accumulate_size a)).
    assert (1 <= product (least_pot_bound <$> sizes)) as Hprod.
    { apply product_pos, Forall_fmap, Forall_true. intros x. simpl.
      pose proof (least_pot_bound_pos x). lia. }
    set (P := product (least_pot_bound <$> sizes)) in *.
    pose proof (least_pot_bound_pos s) as Hlp.
    assert (0 < n_bits) as Hbits.
    { destruct (Z_lt_le_dec 0 n_bits); [done |].
      rewrite Z.pow_neg_r in Hfit by lia.
      assert (0 < n c * (least_pot_bound s * P)) by (apply Z.mul_pos_pos; nia). lia. }
    assert (n c * least_pot_bound s <= n c * (least_pot_bound s * P)) as Hstep.
    { apply Z.mul_le_mono_nonneg_l; [lia | nia]. }
    assert (0 < n c * least_pot_bound s) by (apply Z.mul_pos_pos; lia).
    assert (0 <= 2 ^ (n_bits - 1)) by (apply Z.pow_nonneg; lia).
    erewrite bind_Ok by (apply accumulate_size_Ok; [done | done | lia | done]).
    erewrite IH; [| apply lookup_set_nodes_eq; by eapply lookup_lt_Some
                  | done | simpl; lia | simpl; lia].
    simpl. rewrite set_nodes_set_nodes, list_insert_insert_eq.
    do 3 f_equal. unfold with_n; simpl. f_equal. lia.
Qed.

Lemma length_activate_in exs ax : length (activate_in exs ax) = length exs.
Proof. unfold activate_in. destruct (exs !! _); [apply length_insert | done]. Qed.

Lemma length_foldl_activate_in axs : ∀ exs,
  length (foldl activate_in exs axs) = length exs.
Proof.
  induction axs as [| ax axs IH]; intros exs; [done |].
  simpl. by rewrite IH, length_activate_in.
Qed.

Lemma with_extractors_same c : with_extractors (extractors c) c = c.
Proof. by destruct c. Qed.

Lemma activate_axis_Ok a ax st c :
  nodes st !! a = Some c →
  0 <= value ax.1 < Z.of_nat (length (extractors c)) →
  activate_axis a ax st
  = Ok tt (set_nodes
             (<[a := with_extractors (activate_in (extractors c) ax) c]> (nodes st)) st).
Proof.
  intros Hc Hax. unfold activate_axis, array_get.
  erewrite bind_Ok by (by apply deref_Ok).
  replace (value ax.1 <? 0) with false by (symmetry; apply Z.ltb_ge; lia).
  destruct (lookup_lt_is_Some_2 (extractors c) (Z.to_nat (value ax.1))) as [e He];
    [lia |].
  unfold activate_in, activated. rewrite He. by erewrite modify_Ok.
Qed.

(** The second loop of [create_node]. *)
Lemma activate_axes_Ok a axs : ∀ st c,
  nodes st !! a = Some c →
  Forall (λ ax : Index * Z, 0 <= value ax.1 < Z.of_nat (length (extractors c))) axs →
  for_each axs (activate_axis a) st
  = Ok tt (set_nodes
             (<[a := with_extractors (foldl activate_in (extractors c) axs) c]>
                (nodes st)) st).
Proof.
  induction axs as [| ax axs IH]; intros st c Hc Hax.
  - simpl. by rewrite with_extractors_same, modify_id_state.
  - apply Forall_cons in Hax as [Hax Haxs].
    change (for_each (ax :: axs) (activate_axis a))
      with (activate_axis a ax >> for_each axs (activate_axis a)).
    erewrite bind_Ok by (by apply activate_axis_Ok).
    erewrite IH; [| apply lookup_set_nodes_eq; by eapply lookup_lt_Some |].
    + simpl. by rewrite set_nodes_set_nodes, list_insert_insert_eq.
    + simpl. by rewrite length_activate_in.
Qed.

Lemma lookup_foldl_activate_in_other axs j : ∀ exs,
  Forall (λ ax : Index * Z, Z.to_nat (value ax.1) ≠ j) axs →
  foldl activate_in exs axs !! j = exs !! j.
Proof.
  induction axs as [| ax axs IH]; intros exs Hj; [done |].
  apply Forall_cons in Hj as [Hax Hj]. simpl. rewrite IH by done.
  unfold activate_in. destruct (exs !! Z.to_nat _); [| done].
  by rewrite list_lookup_insert_ne.
Qed.

(** With distinct axes, every listed axis ends with the extractor written
    for its own size. *)
Lemma lookup_foldl_activate_in axs : ∀ exs k ind s,
  NoDup ((λ ax : Index * Z, Z.to_nat (value ax.1)) <$> axs) →
  axs !! k = Some (ind, s) →
  foldl activate_in exs axs !! Z.to_nat (value ind)
  = activated s <$> exs !! Z.to_nat (value ind).
Proof.
  induction axs as [| ax axs IH]; intros exs k ind s Hnd Hk; [done |].
  rewrite fmap_cons in Hnd. apply NoDup_cons in Hnd as [Hnotin Hnd].
  destruct k as [| k]; simpl in *.
  - injection Hk as ->. simpl in *.
    rewrite lookup_foldl_activate_in_other.
    + unfold activate_in. simpl.
      destruct (exs !! Z.to_nat (value ind)) as [e |] eqn:He; [| by rewrite He].
      rewrite list_lookup_insert_eq; [done | by eapply lookup_lt_Some].
    + apply Forall_forall. intros ax Hin Heq. apply Hnotin.
      rewrite <- Heq. apply list_elem_of_fmap. by exists ax.
  - erewrite IH by done.
    assert (Z.to_nat (value ax.1) ≠ Z.to_nat (value ind)) as Hne.
    { intros Heq. apply Hnotin. rewrite Heq.
      apply list_elem_of_fmap. exists (ind, s). split; [done |].
      by eapply list_elem_of_lookup_2. }
    unfold activate_in. destruct (exs !! Z.to_nat (value ax.1)); [| done].
    by rewrite list_lookup_insert_ne.
Qed.

Lemma lookup_inserted_new this t nd st :
  nodes st !! this = Some nd →
  nodes (inserted this t nd st) !! length (nodes st) = Some (fresh_child nd t st).
Proof.
  intros Hnd. simpl. rewrite lookup_app_r by (rewrite length_insert; lia).
  by rewrite length_insert, Nat.sub_diag.
Qed.

Lemma broadcast_length indices sizes :
  length indices = length sizes ∨ length sizes = 1%nat →
  length (broadcast indices sizes) = length indices.
Proof.
  intros [Heq | Hone]; destruct sizes as [| s [| s' sizes]]; simpl in *;
    rewrite ?length_replicate; lia.
Qed.

(** [create_node] returns on arguments within range, leaving the new node
    last in the store. *)
Lemma create_node_returns this indices sizes t st nd :
  nodes st !! this = Some nd →
  t ≠ SNodeType.root →
  (t = SNodeType.hash → depth nd = 0) →
  length indices = length sizes ∨ length sizes = 1%nat →
  valid_axes indices →
  Forall (λ s, 1 <= s <= 2 ^ 30) (broadcast indices sizes) →
  product (least_pot_bound <$> broadcast indices sizes) < 2 ^ (n_bits - 1) →
  create_node this indices sizes t st
  = Ok (length (nodes st))
       (set_nodes (<[length (nodes st) := created_node nd t indices sizes st]>
                     (nodes (inserted this t nd st)))
          (inserted this t nd st)).
Proof.
  intros Hnd Ht Hhash Hlen [Hdup Hrange] Hsizes Hfit.
  set (a := length (nodes st)).
  set (c0 := fresh_child nd t st).
  pose proof (lookup_inserted_new this t nd st Hnd) as Hnew. fold a c0 in Hnew.
  set (st1 := inserted this t nd st) in *.
  assert (a < length (nodes st1))%nat as Ha by (by eapply lookup_lt_Some).
  set (P := product (least_pot_bound <$> broadcast indices sizes)) in *.
  unfold create_node.
  replace (bool_decide (length indices = length sizes) || bool_decide (length sizes = 1%nat))
    with true.
  2:{ symmetry. apply orb_true_iff.
      destruct Hlen; [left | right]; by apply bool_decide_eq_true_2. }
  erewrite bind_Ok by apply TI_ASSERT_true.
  erewrite bind_Ok by (by apply deref_Ok).
  erewrite bind_Ok.
  2:{ unfold when. case_bool_decide as Hh; [| reflexivity].
      rewrite (Hhash Hh). apply TI_ASSERT_true. }
  erewrite bind_Ok by (by apply insert_children_Ok).
  fold a st1.
  erewrite bind_Ok by (by apply modify_Ok).
  erewrite bind_Ok.
  2:{ apply accumulate_sizes_Ok with (c := with_n 1 c0).
      - by apply lookup_set_nodes_eq.
      - done.
      - simpl. lia.
      - simpl n. fold P. lia. }
  fold P. simpl nodes. rewrite set_nodes_set_nodes, list_insert_insert_eq.
  rewrite with_n_with_n, Z.mul_1_l.
  erewrite bind_Ok.
  2:{ apply activate_axes_Ok with (c := with_n P c0).
      - by apply lookup_set_nodes_eq.
      - apply Forall_forall. intros [ind s] Hin.
        apply elem_of_zip_l in Hin. simpl.
        rewrite Forall_forall in Hrange. specialize (Hrange _ Hin).
        simpl. rewrite length_replicate. lia. }
  simpl nodes. rewrite set_nodes_set_nodes, list_insert_insert_eq.
  reflexivity.
Qed.

(** C1, amended: for an existing caller, a kind other than root, distinct axes
    below the axis limit, and sizes (after the broadcast) between 1 and 2^30
    whose promoted product fits the integer type of [n], [create_node] returns
    a new node whose [n] is the product of the sizes each rounded up to the
    least power of two, and every listed axis has an active extractor with
    [num_elements] the requested size and [num_bits] the logarithm of the
    promoted size. *)
Theorem create_node_extent this indices sizes t st nd :
  nodes st !! this = Some nd →
  t ≠ SNodeType.root →
  (t = SNodeType.hash → depth nd = 0) →
  length indices = length sizes ∨ length sizes = 1%nat →
  valid_axes indices →
  Forall (λ s, 1 <= s <= 2 ^ 30) (broadcast indices sizes) →
  product (least_pot_bound <$> broadcast indices sizes) < 2 ^ (n_bits - 1) →
  ∃ st' c,
    create_node this indices sizes t st = Ok (length (nodes st)) st'
    ∧ nodes st' !! length (nodes st) = Some c
    ∧ type c = t
    ∧ n c = product (least_pot_bound <$> broadcast indices sizes)
    ∧ ∀ k ind s,
        indices !! k = Some ind → broadcast indices sizes !! k = Some s →
        ∃ e, array_get (extractors c) (value ind) = Some e
             ∧ active e = true
             ∧ num_elements e = s
             ∧ num_bits e = log2int (least_pot_bound s)
             ∧ 2 ^ num_bits e = least_pot_bound s.
Proof.
  intros Hnd Ht Hhash Hlen Hax Hsizes Hfit.
  pose proof (broadcast_length _ _ Hlen) as Hblen.
  pose proof (lookup_inserted_new this t nd st Hnd) as Hnew.
  eexists _, (created_node nd t indices sizes st).
  split; [by apply create_node_returns |].
  destruct Hax as [Hdup Hrange].
  split; [apply lookup_set_nodes_eq; by eapply lookup_lt_Some |].
  split; [done |]. split; [done |].
  intros k ind s Hk Hs.
  assert (zip indices (broadcast indices sizes) !! k = Some (ind, s)) as Hzip
    by (by apply lookup_zip_Some).
  rewrite Forall_forall in Hrange.
  pose proof (Hrange ind (list_elem_of_lookup_2 _ _ _ Hk)) as Hind.
  assert (extractors (created_node nd t indices sizes st) !! Z.to_nat (value ind)
          = Some (activated s IndexExtractor_default)) as Hex.
  { unfold created_node. cbn [extractors with_extractors].
    erewrite lookup_foldl_activate_in; [| | exact Hzip].
    - simpl. rewrite lookup_replicate_2 by lia. done.
    - rewrite <- (fst_zip indices (broadcast indices sizes)) in Hdup by lia.
      rewrite <- list_fmap_compose in Hdup.
      eapply (NoDup_fmap_1 Z.of_nat). rewrite <- list_fmap_compose.
      erewrite list_fmap_ext; [exact Hdup |].
      intros i [ind' s'] Hi. simpl.
      apply list_elem_of_lookup_2, elem_of_zip_l in Hi.
      specialize (Hrange _ Hi). simpl. lia. }
  exists (activated s IndexExtractor_default). unfold array_get.
  replace (value ind <? 0) with false by (symmetry; apply Z.ltb_ge; lia).
  split; [exact Hex |]. simpl. split; [done |]. split; [done |]. split; [done |].
  apply log2int_least_pot_bound.
Qed.

End Construction.

(** ** A program logic for computations

    [hoare P m Q E]: from a state in [P], if [m] returns then [Q] holds of
    the value and the state, and if it stops at a failed assertion then [E]
    holds of the message and the state reached. *)

Lemma hoare_conseq {A} (P P' : State → Prop) (m : M A) (Q Q' : A → State → Prop)
    (E E' : string → State → Prop) :
  hoare P' m Q' E' →
  (∀ st, P st → P' st) → (∀ a st, Q' a st → Q a st) → (∀ msg st, E' msg st → E msg st) →
  hoare P m Q E.
Proof.
  intros Hm HP HQ HE st Hst. specialize (Hm st (HP st Hst)).
  destruct (m st); auto.
Qed.

Lemma hoare_ret {A} (P : State → Prop) (a : A) Q E :
  (∀ st, P st → Q a st) → hoare P (ret a) Q E.
Proof. intros HQ st Hst. by apply HQ. Qed.

Lemma hoare_bind {A B} (P : State → Prop) (m : M A) (k : A → M B) R Q E :
  hoare P m R E → (∀ a, hoare (R a) (k a) Q E) → hoare P (bind m k) Q E.
Proof.
  intros Hm Hk st Hst. specialize (Hm st Hst). unfold bind.
  destruct (m st) as [a st' | msg st' | |]; try done. by apply Hk.
Qed.

Lemma hoare_fatal {A} (P : State → Prop) msg (Q : A → State → Prop) E :
  (∀ st, P st → E msg st) → hoare P (fatal msg) Q E.
Proof. intros HE st Hst. by apply HE. Qed.

Lemma hoare_undefined {A} (P : State → Prop) (Q : A → State → Prop) E :
  hoare P undefined Q E.
Proof. by intros st Hst. Qed.

Lemma hoare_TI_ASSERT (P : State → Prop) b msg Q E :
  (b = true → ∀ st, P st → Q tt st) → (b = false → ∀ st, P st → E msg st) →
  hoare P (TI_ASSERT b msg) Q E.
Proof. intros HQ HE st Hst. destruct b; simpl; auto. Qed.

Lemma hoare_when (P : State → Prop) b m Q E :
  (b = true → hoare P m Q E) → (b = false → ∀ st, P st → Q tt st) →
  hoare P (when b m) Q E.
Proof. intros Hm HQ. destruct b; simpl; [auto | by apply hoare_ret; auto]. Qed.

Lemma hoare_get_state (P : State → Prop) Q E :
  (∀ st, P st → Q st st) → hoare P get_state Q E.
Proof. intros HQ st Hst. by apply HQ. Qed.

Lemma hoare_deref (P : State → Prop) p Q E :
  (∀ st nd, P st → nodes st !! p = Some nd → Q nd st) → hoare P (deref p) Q E.
Proof. intros HQ st Hst. unfold deref. destruct (nodes st !! p) eqn:Hp; auto. Qed.

Lemma hoare_modify (P : State → Prop) p f Q E :
  (∀ st nd, P st → nodes st !! p = Some nd →
     Q tt (set_nodes (<[p := f nd]> (nodes st)) st)) →
  hoare P (modify p f) Q E.
Proof. intros HQ st Hst. unfold modify. destruct (nodes st !! p) eqn:Hp; auto. Qed.

Lemma hoare_modify_gve (P : State → Prop) a f Q E :
  (∀ st g, P st → exprs st !! a = Some (GlobalVariable g) →
     Q tt (set_exprs (<[a := GlobalVariable (f g)]> (exprs st)) st)) →
  hoare P (modify_gve a f) Q E.
Proof.
  intros HQ st Hst. unfold modify_gve.
  destruct (exprs st !! a) as [[g |] |] eqn:Ha; auto.
Qed.

Lemma hoare_deref_gve (P : State → Prop) e Q E :
  (∀ st a g, P st → e = Some a → exprs st !! a = Some (GlobalVariable g) → Q g st) →
  hoare P (deref_gve e) Q E.
Proof.
  intros HQ st Hst. unfold deref_gve. destruct e as [a |]; [| done].
  destruct (exprs st !! a) as [[g |] |] eqn:Ha; eauto.
Qed.

Lemma hoare_for_each {A} (I : State → Prop) (l : list A) body E :
  (∀ x, x ∈ l → hoare I (body x) (λ _, I) E) →
  hoare I (for_each l body) (λ _, I) E.
Proof.
  induction l as [| x l IH]; intros Hbody.
  - by apply hoare_ret.
  - simpl. eapply hoare_bind.
    + apply Hbody. by left.
    + intros []. apply IH. intros y Hy. apply Hbody. by right.
Qed.

(** ** Guards of node creation *)

Section Guards.
Context `{Declarations}.

Lemma accumulate_size_outcome a s st c :
  nodes st !! a = Some c →
  (0 < s ∧ ∃ c', accumulate_size a s st = Ok tt (set_nodes (<[a := c']> (nodes st)) st))
  ∨ (∃ msg, accumulate_size a s st = Fatal msg st ∧ (0 < s → msg ≠ "sizes[i] > 0")).
Proof.
  intros Hc. unfold accumulate_size.
  destruct (0 <? s) eqn:Hs.
  - apply Z.ltb_lt in Hs. erewrite bind_Ok by apply TI_ASSERT_true.
    destruct (is_power_of_two (if is_power_of_two s then s else _)).
    + left. split; [done |]. erewrite bind_Ok by apply TI_ASSERT_true.
      erewrite modify_Ok by done. by eexists.
    + right. eexists. split; [by erewrite bind_Fatal by apply TI_ASSERT_false | done].
  - right. eexists. split; [by erewrite bind_Fatal by apply TI_ASSERT_false |].
    apply Z.ltb_ge in Hs. lia.
Qed.

Lemma accumulate_sizes_nonpositive a sizes : ∀ st,
  is_Some (nodes st !! a) →
  Exists (λ s, s <= 0) sizes →
  ∃ msg st', for_each sizes (accumulate_size a) st = Fatal msg st'.
Proof.
  induction sizes as [| s sizes IH]; intros st [c Hc] Hex.
  - by apply Exists_nil in Hex.
  - change (for_each (s :: sizes) (accumulate_size a))
      with (accumulate_size a s >> for_each sizes (accumulate_size a)).
    destruct (accumulate_size_outcome a s st c Hc) as [[Hs [c' Hok]] | [msg [Hf _]]].
    + erewrite bind_Ok by exact Hok. apply IH.
      * exists c'. apply lookup_set_nodes_eq. by eapply lookup_lt_Some.
      * apply Exists_cons in Hex as [Hhd | Htl]; [lia | done].
    + exists msg, st. by erewrite bind_Fatal.
Qed.

Lemma create_node_hash_deep this indices sizes st nd :
  nodes st !! this = Some nd → depth nd ≠ 0 →
  ∃ msg, create_node this indices sizes SNodeType.hash st = Fatal msg st
         ∧ (length indices = length sizes ∨ length sizes = 1%nat → msg = hash_message).
Proof.
  intros Hnd Hdepth. unfold create_node.
  destruct (bool_decide (length indices = length sizes) || bool_decide (length sizes = 1%nat))
    eqn:Harity.
  - exists hash_message. split; [| done].
    erewrite bind_Ok by apply TI_ASSERT_true.
    erewrite bind_Ok by (by apply deref_Ok).
    erewrite bind_Fatal; [done |].
    rewrite bool_decide_eq_true_2 by done. simpl.
    replace (depth nd =? 0) with false by (symmetry; by apply Z.eqb_neq).
    done.
  - eexists. split; [by erewrite bind_Fatal by apply TI_ASSERT_false |].
    intros Hlen. apply orb_false_iff in Harity as [H1 H2].
    apply bool_decide_eq_false in H1, H2. by destruct Hlen.
Qed.

(** C6: creating a hash node on a caller whose depth is not 0 stops at the
    hash assertion with the state untouched, so before any child is inserted;
    on a caller at depth 0 it returns the new hash node, given otherwise-valid
    arguments. *)
Theorem create_node_hash this indices sizes st nd :
  nodes st !! this = Some nd →
  (depth nd ≠ 0 →
     ∃ msg, create_node this indices sizes SNodeType.hash st = Fatal msg st
            ∧ (length indices = length sizes ∨ length sizes = 1%nat →
               msg = hash_message))
  ∧ (depth nd = 0 →
     length indices = length sizes ∨ length sizes = 1%nat →
     valid_axes indices →
     Forall (λ s, 1 <= s <= 2 ^ 30) (broadcast indices sizes) →
     product (least_pot_bound <$> broadcast indices sizes) < 2 ^ (n_bits - 1) →
     ∃ st' c, create_node this indices sizes SNodeType.hash st
              = Ok (length (nodes st)) st'
              ∧ nodes st' !! length (nodes st) = Some c
              ∧ type c = SNodeType.hash).
Proof.
  intros Hnd. split.
  - by apply create_node_hash_deep.
  - intros Hdepth Hlen Hax Hsz Hfit.
    eexists _, (created_node nd SNodeType.hash indices sizes st).
    split; [by apply create_node_returns |].
    split; [| done]. apply lookup_set_nodes_eq.
    pose proof (lookup_inserted_new this SNodeType.hash nd st Hnd) as Hnew.
    by eapply lookup_lt_Some.
Qed.

Lemma create_node_nonpositive this indices sizes t st nd :
  nodes st !! this = Some nd →
  Exists (λ s, s <= 0) (broadcast indices sizes) →
  ∃ msg st', create_node this indices sizes t st = Fatal msg st'.
Proof.
  intros Hnd Hex. unfold create_node.
  destruct (bool_decide (length indices = length sizes) || bool_decide (length sizes = 1%nat)).
  2:{ eexists _, _. by erewrite bind_Fatal by apply TI_ASSERT_false. }
  erewrite bind_Ok by apply TI_ASSERT_true.
  erewrite bind_Ok by (by apply deref_Ok).
  destruct (decide (t = SNodeType.root)) as [-> | Hroot].
  { erewrite bind_Ok by done. eexists _, _.
    erewrite bind_Fatal; [done |]. unfold insert_children.
    by erewrite bind_Fatal by apply TI_ASSERT_false. }
  destruct (decide (t = SNodeType.hash ∧ depth nd ≠ 0)) as [[-> Hd] | Hhash].
  { eexists _, _. erewrite bind_Fatal; [done |]. simpl.
    replace (depth nd =? 0) with false by (symmetry; by apply Z.eqb_neq). done. }
  erewrite bind_Ok.
  2:{ unfold when. case_bool_decide as Hh; [| done].
      replace (depth nd =? 0) with true; [done |].
      symmetry. apply Z.eqb_eq. destruct (decide (depth nd = 0)); [done |].
      exfalso. by apply Hhash. }
  erewrite bind_Ok by (by apply insert_children_Ok).
  erewrite bind_Ok by (apply modify_Ok; by apply lookup_inserted_new).
  edestruct (accumulate_sizes_nonpositive (length (nodes st)) (broadcast indices sizes))
    as (msg & st' & Hf); [| exact Hex |].
  2:{ eexists _, _. erewrite bind_Fatal; [done | exact Hf]. }
  eexists. apply lookup_set_nodes_eq. simpl.
  rewrite length_app, length_insert. simpl. lia.
Qed.

Lemma never_fails_with_bind {A B} msg (m : M A) (k : A → M B) :
  never_fails_with msg m → (∀ a, never_fails_with msg (k a)) →
  never_fails_with msg (bind m k).
Proof. intros Hm Hk. eapply hoare_bind; [exact Hm | exact Hk]. Qed.

Lemma never_fails_with_for_each {A} msg (l : list A) body :
  (∀ x, x ∈ l → never_fails_with msg (body x)) →
  never_fails_with msg (for_each l body).
Proof.
  intros Hbody. eapply hoare_conseq; [apply hoare_for_each with (I := λ _, True) | ..];
    [exact Hbody | done ..].
Qed.

Lemma never_fails_with_assert msg b msg' :
  (b = false → msg' ≠ msg) → never_fails_with msg (TI_ASSERT b msg').
Proof. intros Hb. apply hoare_TI_ASSERT; [done | intros Hf _ _; by apply Hb]. Qed.

Lemma never_fails_with_insert_children this t :
  never_fails_with "sizes[i] > 0" (insert_children this t).
Proof.
  unfold insert_children.
  apply never_fails_with_bind; [by apply never_fails_with_assert | intros _].
  apply never_fails_with_bind; [by apply hoare_deref | intros nd].
  apply never_fails_with_bind; [by intros st _ | intros new_ch].
  apply never_fails_with_bind; [by apply hoare_deref | intros c].
  apply never_fails_with_bind; [by apply hoare_modify | intros _].
  apply never_fails_with_bind; [by apply hoare_modify | intros _].
  by apply hoare_ret.
Qed.

Lemma never_fails_with_accumulate_size a s :
  0 < s → never_fails_with "sizes[i] > 0" (accumulate_size a s).
Proof.
  intros Hs. unfold accumulate_size.
  apply never_fails_with_bind; [| intros _].
  { apply never_fails_with_assert. intros Hf%Z.ltb_ge. lia. }
  apply never_fails_with_bind; [by apply never_fails_with_assert | intros _].
  by apply hoare_modify.
Qed.

Lemma never_fails_with_activate_axis a ax :
  never_fails_with "sizes[i] > 0" (activate_axis a ax).
Proof.
  unfold activate_axis.
  apply never_fails_with_bind; [by apply hoare_deref | intros c].
  destruct (array_get _ _); [by apply hoare_modify | apply hoare_undefined].
Qed.

Lemma broadcast_Forall (P : Z → Prop) indices sizes :
  Forall P sizes → Forall P (broadcast indices sizes).
Proof.
  intros Hall. destruct sizes as [| s [| s' sizes]]; simpl; try done.
  apply Forall_replicate. by apply Forall_cons in Hall as [? _].
Qed.

Lemma create_node_positive this indices sizes t :
  Forall (λ s, 0 < s) sizes →
  never_fails_with "sizes[i] > 0" (create_node this indices sizes t).
Proof.
  intros Hpos. unfold create_node.
  apply never_fails_with_bind; [by apply never_fails_with_assert | intros _].
  apply never_fails_with_bind; [by apply hoare_deref | intros nd].
  apply never_fails_with_bind; [| intros _].
  { apply hoare_when; [intros _ | done]. by apply never_fails_with_assert. }
  apply never_fails_with_bind; [apply never_fails_with_insert_children | intros a].
  apply never_fails_with_bind; [by apply hoare_modify | intros _].
  apply never_fails_with_bind; [| intros _].
  { apply never_fails_with_for_each. intros s Hs.
    apply never_fails_with_accumulate_size.
    pose proof (broadcast_Forall (λ s, 0 < s) indices sizes Hpos) as Hb.
    rewrite Forall_forall in Hb. by apply Hb. }
  apply never_fails_with_bind; [| intros _; by apply hoare_ret].
  apply never_fails_with_for_each. intros ax _. apply never_fails_with_activate_axis.
Qed.

(** C9, amended: when the size list after the broadcast contains a size that
    is not positive the call is a fatal failure; when all requested sizes are
    positive the assertion on sizes never fails and the logarithm of every
    promoted size is exact. *)
Theorem create_node_requires_positive_sizes this indices sizes t st nd :
  nodes st !! this = Some nd →
  (Exists (λ s, s <= 0) (broadcast indices sizes) →
     ∃ msg st', create_node this indices sizes t st = Fatal msg st')
  ∧ (Forall (λ s, 0 < s) sizes →
     (∀ st', create_node this indices sizes t st ≠ Fatal "sizes[i] > 0" st')
     ∧ Forall (λ s, 0 < least_pot_bound s
                    ∧ 0 <= log2int (least_pot_bound s)
                    ∧ 2 ^ log2int (least_pot_bound s) = least_pot_bound s)
         (broadcast indices sizes)).
Proof.
  intros Hnd. split; [by eapply create_node_nonpositive |].
  intros Hpos. split.
  - intros st' Hf. pose proof (create_node_positive this indices sizes t Hpos st I) as Hm.
    rewrite Hf in Hm. by apply Hm.
  - apply Forall_true. intros s. split; [apply least_pot_bound_pos |].
    split; [apply Z.log2_nonneg | apply log2int_least_pot_bound].
Qed.
End Guards.

(** ** Ancestor and layout queries *)

Lemma wrap_add_idemp w a b : wrap w (wrap w a + b) = wrap w (a + b).
Proof.
  unfold wrap. f_equal.
  replace ((a + 2 ^ (w - 1)) mod 2 ^ w - 2 ^ (w - 1) + b + 2 ^ (w - 1))
    with ((a + 2 ^ (w - 1)) mod 2 ^ w + b) by lia.
  rewrite Zplus_mod_idemp_l. f_equal. lia.
Qed.

Section Queries.
Context `{Declarations}.

Lemma sparse_ancestor_loop_found st : ∀ x l below r above fuel,
  parent_chain st x l →
  l = below ++ r :: above →
  Forall (λ y, need_activation_at st y = false) below →
  need_activation_at st r = true →
  (length below < fuel)%nat →
  sparse_ancestor_loop fuel x st = Ok (Some r) st.
Proof.
  intros x l below r above fuel Hchain. revert below fuel.
  induction Hchain as [x nd Hx Hp | x nd p l Hx Hp Hchain IH];
    intros below fuel Hl Hbelow Hr Hfuel;
    (destruct fuel as [| fuel]; [lia |]); simpl;
    erewrite bind_Ok by (by apply deref_Ok).
  - destruct below as [| b below]; simplify_eq/=.
    + unfold need_activation_at in Hr. rewrite Hx in Hr. by rewrite Hr.
    + by destruct below.
  - destruct below as [| b below]; simplify_eq/=.
    + unfold need_activation_at in Hr. rewrite Hx in Hr. by rewrite Hr.
    + apply Forall_cons in Hbelow as [Hb Hbelow].
      unfold need_activation_at in Hb. rewrite Hx in Hb. rewrite Hb, Hp.
      eapply IH; [done | done | done | lia].
Qed.

Lemma sparse_ancestor_loop_exhausted st : ∀ x l fuel,
  parent_chain st x l →
  Forall (λ y, need_activation_at st y = false) l →
  (length l <= fuel)%nat →
  sparse_ancestor_loop fuel x st = Fatal "result" st.
Proof.
  intros x l fuel Hchain. revert fuel.
  induction Hchain as [x nd Hx Hp | x nd p l Hx Hp Hchain IH];
    intros fuel Hall Hfuel; simpl in Hfuel;
    (destruct fuel as [| fuel]; [lia |]); simpl;
    erewrite bind_Ok by (by apply deref_Ok);
    apply Forall_cons in Hall as [Hb Hall];
    unfold need_activation_at in Hb; rewrite Hx in Hb; rewrite Hb, Hp.
  - done.
  - apply IH; [done | lia].
Qed.

(** C5: on a node whose [is_path_all_dense] is set the query returns null; on
    any other node, with parent links defined, it returns the first node of
    the chain from the node upward, the node included, that needs activation,
    and stops at the assertion when the chain has none. *)
Theorem get_least_sparse_ancestor_spec st this nd :
  nodes st !! this = Some nd →
  (is_path_all_dense nd = true →
     ∀ fuel, get_least_sparse_ancestor fuel this st = Ok None st)
  ∧ (is_path_all_dense nd = false →
     ∀ l, parent_chain st this l →
       (∀ below r above fuel,
          l = below ++ r :: above →
          Forall (λ y, need_activation_at st y = false) below →
          need_activation_at st r = true →
          (length below < fuel)%nat →
          get_least_sparse_ancestor fuel this st = Ok (Some r) st)
       ∧ (Forall (λ y, need_activation_at st y = false) l →
          ∀ fuel, (length l <= fuel)%nat →
          get_least_sparse_ancestor fuel this st = Fatal "result" st)).
Proof.
  intros Hnd. split.
  - intros Hd fuel. unfold get_least_sparse_ancestor.
    erewrite bind_Ok by (by apply deref_Ok). by rewrite Hd.
  - intros Hd l Hchain. split.
    + intros below r above fuel Hl Hbelow Hr Hfuel. unfold get_least_sparse_ancestor.
      erewrite bind_Ok by (by apply deref_Ok). rewrite Hd.
      by eapply sparse_ancestor_loop_found.
    + intros Hall fuel Hfuel. unfold get_least_sparse_ancestor.
      erewrite bind_Ok by (by apply deref_Ok). rewrite Hd.
      by eapply sparse_ancestor_loop_exhausted.
Qed.

Lemma get_num_bits_loop_chain st physical_index : ∀ x l fuel acc,
  parent_chain st x l →
  Forall (λ y, ∃ nd, nodes st !! y = Some nd
                     ∧ is_Some (array_get (extractors nd) physical_index)) l →
  (length l <= fuel)%nat →
  get_num_bits_loop fuel physical_index acc (Some x) st
  = Ok (int32 (acc + sum (num_bits_at st physical_index <$> l))) st.
Proof.
  intros x l fuel acc Hchain. revert fuel acc.
  induction Hchain as [x nd Hx Hp | x nd p l Hx Hp Hchain IH];
    intros fuel acc Hall Hfuel; simpl in Hfuel;
    (destruct fuel as [| fuel]; [lia |]);
    apply Forall_cons in Hall as [(nd' & Hx' & e & He) Hall];
    simplify_eq;
    assert (num_bits_at st physical_index x = num_bits e) as Hnb
      by (unfold num_bits_at; by rewrite Hx, He);
    rewrite fmap_cons; cbn [sum foldr]; rewrite Hnb;
    cbn [get_num_bits_loop];
    erewrite bind_Ok by (by apply deref_Ok);
    rewrite He, Hp.
  - destruct fuel; simpl; by rewrite Z.add_0_r.
  - rewrite IH by (done || lia). unfold int32. rewrite wrap_add_idemp.
    do 2 f_equal. unfold sum. lia.
Qed.

(** C8: [get_num_bits] is the sum, in int arithmetic, of the axis's extractor
    [num_bits] over the nodes from the root to the queried node inclusive; it
    is the plain sum whenever that sum is an int. *)
Theorem get_num_bits_sum st this l physical_index fuel :
  parent_chain st this l →
  Forall (λ y, ∃ nd, nodes st !! y = Some nd
                     ∧ is_Some (array_get (extractors nd) physical_index)) l →
  (length l <= fuel)%nat →
  get_num_bits fuel this physical_index st
  = Ok (int32 (sum (num_bits_at st physical_index <$> reverse l))) st
  ∧ (is_int (sum (num_bits_at st physical_index <$> reverse l)) →
     get_num_bits fuel this physical_index st
     = Ok (sum (num_bits_at st physical_index <$> reverse l)) st).
Proof.
  intros Hchain Hall Hfuel.
  assert (sum (num_bits_at st physical_index <$> reverse l)
          = sum (num_bits_at st physical_index <$> l)) as ->.
  { rewrite fmap_reverse. generalize (num_bits_at st physical_index <$> l).
    intros k. induction k as [| z k IHk]; [done |].
    rewrite reverse_cons. simpl. rewrite <- IHk.
    generalize (reverse k). intros k'. induction k' as [| z' k' IHk']; simpl; lia. }
  unfold get_num_bits. rewrite (get_num_bits_loop_chain st physical_index this l) by done.
  split; [done |]. intros Hint. by rewrite int32_small.
Qed.
End Queries.

(** ** Placement guard and shape query *)

Section Placement.
Context `{Declarations}.

(** C7: placing a field expression that is already bound to a node on a node
    other than the root stops at the already-placed error with the state
    untouched: no child and no exponent node has been created. *)
Theorem place_already_placed this e g s offset st nd :
  nodes st !! this = Some nd →
  type nd ≠ SNodeType.root →
  exprs st !! e = Some (GlobalVariable g) →
  gv_snode g = Some s →
  place this (Some e) offset st = Fatal "This variable has been placed." st.
Proof.
  intros Hnd Ht He Hs. unfold place.
  erewrite bind_Ok by (by apply deref_Ok).
  rewrite bool_decide_eq_false_2 by done.
  unfold place_here. erewrite bind_Ok by reflexivity.
  rewrite He. erewrite bind_Fatal; [done |].
  rewrite bool_decide_eq_true_2; [done |]. by rewrite Hs.
Qed.

Lemma array_get_negative {A} (l : list A) i : i < 0 → array_get l i = None.
Proof. intros Hi. unfold array_get. by replace (i <? 0) with true by (symmetry; by apply Z.ltb_lt). Qed.

Lemma physical_index_position_init id_ depth_ t i :
  0 <= i < Z.of_nat taichi_max_num_indices →
  array_get (physical_index_position (SNode_init id_ depth_ t)) i = Some (-1).
Proof.
  intros Hi. unfold array_get.
  replace (i <? 0) with false by (symmetry; apply Z.ltb_ge; lia).
  simpl. apply lookup_replicate_2. lia.
Qed.

(** C10: a constructed node holds the sentinel -1 in every slot of
    [physical_index_position]; with a negative slot [shape_along_axis] reads
    out of bounds; whenever it returns, the slot is not negative and the
    value is [num_elements * (1 << trailing_bits)] of the extractor at that
    slot, in int arithmetic; and it does return that value when the slot and
    the shift are in range. *)
Theorem shape_along_axis_spec this i st nd :
  nodes st !! this = Some nd →
  (∀ id_ depth_ t, 0 <= i < Z.of_nat taichi_max_num_indices →
     array_get (physical_index_position (SNode_init id_ depth_ t)) i = Some (-1))
  ∧ (∀ p, array_get (physical_index_position nd) i = Some p → p < 0 →
       shape_along_axis this i st = Undefined)
  ∧ (∀ v st', shape_along_axis this i st = Ok v st' →
       ∃ p e, array_get (physical_index_position nd) i = Some p
              ∧ 0 <= p
              ∧ array_get (extractors nd) p = Some e
              ∧ v = int32 (num_elements e * int32 (2 ^ trailing_bits e))
              ∧ st' = st)
  ∧ (∀ p e, array_get (physical_index_position nd) i = Some p → 0 <= p →
       array_get (extractors nd) p = Some e →
       0 <= trailing_bits e < 31 →
       shape_along_axis this i st
       = Ok (int32 (num_elements e * 2 ^ trailing_bits e)) st
       ∧ (is_int (num_elements e * 2 ^ trailing_bits e) →
          shape_along_axis this i st = Ok (num_elements e * 2 ^ trailing_bits e) st)).
Proof.
  intros Hnd. split; [| split; [| split]].
  - intros id_ depth_ t Hi. by apply physical_index_position_init.
  - intros p Hp Hneg. unfold shape_along_axis.
    erewrite bind_Ok by (by apply deref_Ok).
    by rewrite Hp, array_get_negative.
  - intros v st'. unfold shape_along_axis.
    erewrite bind_Ok by (by apply deref_Ok).
    destruct (array_get (physical_index_position nd) i) as [p |] eqn:Hp; [| done].
    destruct (array_get (extractors nd) p) as [e |] eqn:He; [| done].
    unfold shl1. destruct ((0 <=? trailing_bits e) && (trailing_bits e <? 32)); [| done].
    intros [= <- <-]. exists p, e. repeat split; try done.
    destruct (Z_lt_le_dec p 0) as [Hneg | ?]; [| done].
    by rewrite array_get_negative in He.
  - intros p e Hp Hpos He Htb.
    assert (shape_along_axis this i st
            = Ok (int32 (num_elements e * 2 ^ trailing_bits e)) st) as Heq.
    { unfold shape_along_axis. erewrite bind_Ok by (by apply deref_Ok).
      rewrite Hp, He. unfold shl1.
      replace ((0 <=? trailing_bits e) && (trailing_bits e <? 32)) with true.
      2:{ symmetry. apply andb_true_intro. split; [apply Z.leb_le | apply Z.ltb_lt]; lia. }
      rewrite (int32_small (2 ^ trailing_bits e)); [done |].
      unfold is_int. split.
      - pose proof (Z.pow_pos_nonneg 2 (trailing_bits e)). lia.
      - apply Z.pow_lt_mono_r; lia. }
    split; [done |]. intros Hint. by rewrite Heq, int32_small.
Qed.
End Placement.

(** ** Invariants of the builder *)

Lemma preserves_bind {A B} I (m : M A) (k : A → M B) :
  preserves I m → (∀ a, preserves I (k a)) → preserves I (bind m k).
Proof. intros Hm Hk. eapply hoare_bind; [exact Hm | exact Hk]. Qed.

Lemma preserves_ret {A} I (a : A) : preserves I (ret a).
Proof. by apply hoare_ret. Qed.

Lemma preserves_fatal {A} I msg : preserves I (@fatal A msg).
Proof. by apply hoare_fatal. Qed.

Lemma preserves_undefined {A} I : preserves I (@undefined A).
Proof. apply hoare_undefined. Qed.

Lemma preserves_TI_ASSERT I b msg : preserves I (TI_ASSERT b msg).
Proof. by apply hoare_TI_ASSERT. Qed.

Lemma preserves_when I b m : preserves I m → preserves I (when b m).
Proof. intros Hm. apply hoare_when; [by intros _ | done]. Qed.

Lemma preserves_get_state I : preserves I get_state.
Proof. by apply hoare_get_state. Qed.

Lemma preserves_deref I p : preserves I (deref p).
Proof. by apply hoare_deref. Qed.

Lemma preserves_deref_gve I e : preserves I (deref_gve e).
Proof. by apply hoare_deref_gve. Qed.

Lemma preserves_for_each {A} I (l : list A) body :
  (∀ x, preserves I (body x)) → preserves I (for_each l body).
Proof. intros Hbody. apply hoare_for_each. intros x _. apply Hbody. Qed.

Lemma preserves_modify I p f :
  skeletal I → (∀ nd, skeleton (f nd) = skeleton nd) → preserves I (modify p f).
Proof.
  intros HI Hf. apply hoare_modify. intros st nd Hst Hnd.
  eapply HI; [| exact Hst]. simpl.
  rewrite list_fmap_insert, Hf. apply list_insert_id.
  by rewrite list_lookup_fmap, Hnd.
Qed.

Lemma preserves_modify_gve I a f : skeletal I → preserves I (modify_gve a f).
Proof.
  intros HI. apply hoare_modify_gve. intros st g Hst _. by eapply HI; [| exact Hst].
Qed.

Lemma preserves_set_session I (b : State → bool) (e : State → option addr)
    (d : State → option DataType) :
  skeletal I → preserves I (λ s, Ok tt (set_session (b s) (e s) (d s) s)).
Proof. intros HI st Hst. simpl. by eapply HI; [| exact Hst]. Qed.

Section Invariants.
Context `{Declarations}.

Lemma preserves_set_index_offsets I this offsets :
  skeletal I → preserves I (set_index_offsets this offsets).
Proof.
  intros HI. unfold set_index_offsets.
  apply preserves_bind; [apply preserves_deref | intros nd].
  do 3 (apply preserves_bind; [apply preserves_TI_ASSERT | intros _]).
  by apply preserves_modify.
Qed.

Lemma preserves_accumulate_size I a s : skeletal I → preserves I (accumulate_size a s).
Proof.
  intros HI. unfold accumulate_size.
  do 2 (apply preserves_bind; [apply preserves_TI_ASSERT | intros _]).
  by apply preserves_modify.
Qed.

Lemma preserves_activate_axis I a ax : skeletal I → preserves I (activate_axis a ax).
Proof.
  intros HI. unfold activate_axis.
  apply preserves_bind; [apply preserves_deref | intros c].
  destruct (array_get _ _); [by apply preserves_modify | apply preserves_undefined].
Qed.

(** Everything the builder does to the skeleton goes through
    [insert_children]. *)
Section Skeletal.
Variable I : State → Prop.
Hypothesis I_skeletal : skeletal I.
Hypothesis I_insert_children : ∀ this t, preserves I (insert_children this t).

Lemma preserves_create_node this indices sizes t :
  preserves I (create_node this indices sizes t).
Proof.
  unfold create_node.
  apply preserves_bind; [apply preserves_TI_ASSERT | intros _].
  apply preserves_bind; [apply preserves_deref | intros nd].
  apply preserves_bind; [apply preserves_when, preserves_TI_ASSERT | intros _].
  apply preserves_bind; [apply I_insert_children | intros a].
  apply preserves_bind; [by apply preserves_modify | intros _].
  apply preserves_bind;
    [apply preserves_for_each; intros s; by apply preserves_accumulate_size | intros _].
  apply preserves_bind;
    [apply preserves_for_each; intros s; by apply preserves_activate_axis | intros _].
  apply preserves_ret.
Qed.

Lemma preserves_dynamic this expr_ n_ chunk_size_ :
  preserves I (dynamic this expr_ n_ chunk_size_).
Proof.
  unfold dynamic.
  apply preserves_bind; [apply preserves_create_node | intros a].
  apply preserves_bind; [by apply preserves_modify | intros _]. apply preserves_ret.
Qed.

Lemma preserves_bit_struct this num_bits_ : preserves I (bit_struct this num_bits_).
Proof.
  unfold bit_struct.
  apply preserves_bind; [apply preserves_create_node | intros a].
  apply preserves_bind; [by apply preserves_modify | intros _]. apply preserves_ret.
Qed.

Lemma preserves_bit_array this indices sizes bits :
  preserves I (bit_array this indices sizes bits).
Proof.
  unfold bit_array.
  apply preserves_bind; [apply preserves_create_node | intros a].
  apply preserves_bind; [by apply preserves_modify | intros _]. apply preserves_ret.
Qed.

Lemma preserves_place_exponent this g exp : preserves I (place_exponent this g exp).
Proof.
  unfold place_exponent.
  apply preserves_bind; [apply preserves_get_state | intros st].
  assert (preserves I
            (let! exp_node := insert_children this SNodeType.place in
             modify exp_node (with_dt exp) >>
             modify exp_node (with_name (gv_ident g ++ "_exp")) >>
             when (placing_shared_exp st)
               (λ s, Ok tt (set_session (placing_shared_exp s) (Some exp_node)
                              (Some exp) s)) >>
             ret exp_node)) as Hfresh.
  { apply preserves_bind; [apply I_insert_children | intros a].
    do 2 (apply preserves_bind; [by apply preserves_modify | intros _]).
    apply preserves_bind; [| intros _; apply preserves_ret].
    apply preserves_when.
    by apply (preserves_set_session I placing_shared_exp (λ _, Some a) (λ _, Some exp)). }
  destruct (placing_shared_exp st); [| exact Hfresh].
  destruct (currently_placing_exp_snode st); [| exact Hfresh].
  apply preserves_bind; [apply preserves_TI_ASSERT | intros _]. apply preserves_ret.
Qed.

Lemma preserves_place_value this e g new_exp_snode offset :
  preserves I (place_value this e g new_exp_snode offset).
Proof.
  unfold place_value.
  apply preserves_bind; [apply I_insert_children | intros child].
  apply preserves_bind; [by apply preserves_modify_gve | intros _].
  apply preserves_bind; [by apply preserves_modify | intros _].
  apply preserves_bind; [| intros _].
  { apply preserves_when.
    apply preserves_bind; [by apply preserves_modify | intros _].
    by apply preserves_modify. }
  apply preserves_bind; [by apply preserves_modify | intros _].
  apply preserves_bind; [apply preserves_get_state | intros st'].
  apply preserves_bind; [apply preserves_when; by apply preserves_modify | intros _].
  apply preserves_bind; [by apply preserves_modify | intros _].
  apply preserves_bind; [| intros _].
  { destruct new_exp_snode; [| apply preserves_ret].
    apply preserves_bind; [by apply preserves_modify | intros _].
    by apply preserves_modify. }
  apply preserves_when. by apply preserves_set_index_offsets.
Qed.

Lemma preserves_place_here this expr_ offset : preserves I (place_here this expr_ offset).
Proof.
  unfold place_here.
  apply preserves_bind; [apply preserves_get_state | intros st].
  destruct expr_ as [e |]; [| apply preserves_fatal].
  destruct (exprs st !! e) as [[g |] |];
    [| apply preserves_fatal | apply preserves_undefined].
  apply preserves_bind; [apply preserves_when, preserves_fatal | intros _].
  apply preserves_bind; [| intros new_exp_snode; apply preserves_place_value].
  destruct (get_exponent_type (gv_dt g)); [| apply preserves_ret].
  apply preserves_bind; [apply preserves_place_exponent | intros x].
  apply preserves_ret.
Qed.

Lemma preserves_place this expr_ offset : preserves I (place this expr_ offset).
Proof.
  unfold place. apply preserves_bind; [apply preserves_deref | intros nd].
  destruct (bool_decide _); [| apply preserves_place_here].
  apply preserves_bind; [apply preserves_create_node | intros d].
  apply preserves_place_here.
Qed.

Lemma preserves_is_primal this : preserves I (is_primal this).
Proof.
  unfold is_primal. apply preserves_bind; [apply preserves_deref | intros nd].
  apply preserves_bind; [apply preserves_TI_ASSERT | intros _].
  apply preserves_bind; [apply preserves_deref_gve | intros g]. apply preserves_ret.
Qed.

Lemma preserves_has_grad this : preserves I (has_grad this).
Proof.
  unfold has_grad. apply preserves_bind; [apply preserves_deref | intros nd].
  apply preserves_bind; [apply preserves_deref_gve | intros g].
  apply preserves_bind; [apply preserves_is_primal | intros p].
  destruct (p && _); [| apply preserves_ret].
  apply preserves_bind; [apply preserves_deref_gve | intros ga]. apply preserves_ret.
Qed.

Lemma preserves_grad_to_place c : preserves I (grad_to_place c).
Proof.
  unfold grad_to_place. apply preserves_bind; [apply preserves_deref | intros cn].
  destruct (bool_decide _); [| apply preserves_ret].
  apply preserves_bind; [apply preserves_is_primal | intros p].
  destruct (p && _); [| apply preserves_ret].
  apply preserves_bind; [apply preserves_has_grad | intros hg].
  destruct (negb hg); [| apply preserves_ret].
  apply preserves_bind; [apply preserves_deref_gve | intros g]. apply preserves_ret.
Qed.

Lemma preserves_collect_grads cs : preserves I (collect_grads cs).
Proof.
  induction cs as [| c cs IH]; [apply preserves_ret |]. simpl.
  apply preserves_bind; [apply preserves_grad_to_place | intros o].
  apply preserves_bind; [apply IH | intros rest]. apply preserves_ret.
Qed.

Lemma preserves_lazy_grad fuel : ∀ this, preserves I (lazy_grad fuel this).
Proof.
  induction fuel as [| fuel IH]; intros this; [by intros st Hst |]. simpl.
  apply preserves_bind; [apply preserves_deref | intros nd].
  destruct (bool_decide _); [apply preserves_ret |].
  apply preserves_bind; [apply preserves_for_each, IH | intros _].
  apply preserves_bind; [apply preserves_deref | intros nd'].
  apply preserves_bind; [apply preserves_collect_grads | intros new_grads].
  apply preserves_for_each. intros p. apply preserves_place.
Qed.

Lemma preserves_begin_shared_exp_placement : preserves I begin_shared_exp_placement.
Proof.
  unfold begin_shared_exp_placement.
  apply preserves_bind; [apply preserves_get_state | intros st].
  do 2 (apply preserves_bind; [apply preserves_TI_ASSERT | intros _]).
  by apply (preserves_set_session I (λ _, true) currently_placing_exp_snode
              currently_placing_exp_snode_dtype).
Qed.

Lemma preserves_end_shared_exp_placement : preserves I end_shared_exp_placement.
Proof.
  unfold end_shared_exp_placement.
  apply preserves_bind; [apply preserves_get_state | intros st].
  do 2 (apply preserves_bind; [apply preserves_TI_ASSERT | intros _]).
  by apply (preserves_set_session I (λ _, false) (λ _, None)
              currently_placing_exp_snode_dtype).
Qed.
End Skeletal.
End Invariants.

(** ** The dense-path flag *)

Section DensePath.
Context `{Declarations}.

Lemma skeleton_lookup st st' a :
  skeleton <$> nodes st' = skeleton <$> nodes st →
  skeleton <$> (nodes st' !! a) = skeleton <$> (nodes st !! a).
Proof. intros Heq. by rewrite <- !list_lookup_fmap, Heq. Qed.

Lemma skeleton_lookup_Some st st' a nd :
  skeleton <$> nodes st' = skeleton <$> nodes st →
  nodes st' !! a = Some nd →
  ∃ nd', nodes st !! a = Some nd' ∧ type nd' = type nd ∧ ch nd' = ch nd
         ∧ is_path_all_dense nd' = is_path_all_dense nd.
Proof.
  intros Heq Hnd. pose proof (skeleton_lookup st st' a Heq) as Ha.
  rewrite Hnd in Ha. destruct (nodes st !! a) as [nd' |]; [| done].
  injection Ha as Ht Hc Hd. by exists nd'.
Qed.

Lemma flags_consistent_skeletal : skeletal flags_consistent.
Proof.
  intros st st' Heq [(r & Hr & Hrt & Hrd) Hedge].
  assert (skeleton <$> nodes st = skeleton <$> nodes st') as Heq' by done.
  split.
  - destruct (skeleton_lookup_Some st' st 0%nat r Heq' Hr) as (r' & Hr' & Ht & _ & Hd).
    exists r'. split; [done |]. by rewrite Ht, Hd.
  - intros p nd c Hp Hc.
    destruct (skeleton_lookup_Some st st' p nd Heq Hp) as (nd' & Hp' & Ht & Hch & Hd).
    rewrite <- Hch in Hc. destruct (Hedge p nd' c Hp' Hc) as (cn & Hcn & Hflag).
    destruct (skeleton_lookup_Some st' st c cn Heq' Hcn) as (cn' & Hcn' & Ht' & _ & Hd').
    exists cn'. split; [done |].
    unfold need_activation in *. by rewrite Hd', Ht', Hflag, Hd.
Qed.

(** A node that was there before [insert_children] keeps its kind and its
    flag, and its children unless it is the caller. *)
Lemma lookup_inserted_old this t nd st a :
  nodes st !! this = Some nd → (a < length (nodes st))%nat →
  nodes (inserted this t nd st) !! a
  = if decide (a = this) then Some (with_ch (ch nd ++ [length (nodes st)]) nd)
    else nodes st !! a.
Proof.
  intros Hnd Ha. simpl. rewrite lookup_app_l by (by rewrite length_insert).
  case_decide as Heq.
  - subst a. by apply list_lookup_insert_eq.
  - by apply list_lookup_insert_ne.
Qed.

Lemma lookup_inserted_inv this t nd st a x :
  nodes st !! this = Some nd →
  nodes (inserted this t nd st) !! a = Some x →
  (a = length (nodes st) ∧ x = fresh_child nd t st)
  ∨ (a = this ∧ x = with_ch (ch nd ++ [length (nodes st)]) nd)
  ∨ (a ≠ this ∧ nodes st !! a = Some x).
Proof.
  intros Hnd Hx. pose proof (lookup_lt_Some _ _ _ Hx) as Hlt.
  simpl in Hlt. rewrite length_app, length_insert in Hlt. simpl in Hlt.
  destruct (decide (a = length (nodes st))) as [-> | Hne].
  - left. split; [done |]. rewrite lookup_inserted_new in Hx by done. by injection Hx.
  - right. rewrite lookup_inserted_old in Hx by (done || lia).
    case_decide; [left | right]; by simplify_eq.
Qed.

Lemma flags_consistent_insert_children this t :
  preserves flags_consistent (insert_children this t).
Proof.
  intros st HI. destruct (decide (t = SNodeType.root)) as [-> | Ht]; [done |].
  destruct (nodes st !! this) as [nd |] eqn:Hnd.
  2:{ unfold insert_children. rewrite bool_decide_eq_false_2 by done.
      simpl. unfold bind, deref. simpl. by rewrite Hnd. }
  rewrite (insert_children_Ok this t st nd) by done.
  destruct HI as [(r & Hr & Hrt & Hrd) Hedge].
  pose proof (lookup_lt_Some _ _ _ Hnd) as Hthis.
  assert (∀ a x, nodes st !! a = Some x →
            ∃ x', nodes (inserted this t nd st) !! a = Some x'
                  ∧ type x' = type x
                  ∧ is_path_all_dense x' = is_path_all_dense x) as Hold.
  { intros a x Hx. rewrite lookup_inserted_old by (done || by eapply lookup_lt_Some).
    case_decide; simplify_eq; eauto. }
  split.
  - destruct (Hold _ _ Hr) as (r' & Hr' & Ht' & Hd'). exists r'. by rewrite Ht', Hd'.
  - intros p pn c Hp Hc.
    destruct (lookup_inserted_inv _ _ _ _ _ _ Hnd Hp) as [[-> ->] | [[-> ->] | [Hne Hold']]].
    + by apply elem_of_nil in Hc.
    + simpl in Hc. apply elem_of_app in Hc as [Hc | Hc].
      * destruct (Hedge _ _ _ Hnd Hc) as (cn & Hcn & Hflag).
        destruct (Hold _ _ Hcn) as (cn' & Hcn' & Ht' & Hd').
        exists cn'. split; [done |]. unfold need_activation in *.
        by rewrite Hd', Ht', Hflag.
      * apply list_elem_of_singleton in Hc as ->.
        eexists. split; [by apply lookup_inserted_new | done].
    + destruct (Hedge _ _ _ Hold' Hc) as (cn & Hcn & Hflag).
      destruct (Hold _ _ Hcn) as (cn' & Hcn' & Ht' & Hd').
      exists cn'. split; [done |]. unfold need_activation in *.
      by rewrite Hd', Ht', Hflag.
Qed.

Lemma flags_consistent_run c : preserves flags_consistent (run c).
Proof.
  pose proof flags_consistent_skeletal as Hs.
  pose proof flags_consistent_insert_children as Hi.
  destruct c; simpl.
  - apply preserves_bind; [apply Hi | intros a; apply preserves_ret].
  - apply preserves_bind; [by apply preserves_create_node | intros a; apply preserves_ret].
  - apply preserves_bind; [by apply preserves_dynamic | intros a; apply preserves_ret].
  - apply preserves_bind; [by apply preserves_bit_struct | intros a; apply preserves_ret].
  - apply preserves_bind; [by apply preserves_bit_array | intros a; apply preserves_ret].
  - by apply preserves_place.
  - by apply preserves_lazy_grad.
  - by apply preserves_begin_shared_exp_placement.
  - by apply preserves_end_shared_exp_placement.
Qed.

Lemma built_flags_consistent st : built st → flags_consistent st.
Proof.
  induction 1 as [| st l _ IH | st c st' _ IH Hrun | st c msg st' _ IH Hrun].
  - split.
    + eexists. by split.
    + intros p nd c Hp Hc. destruct p; simplify_eq/=. by apply elem_of_nil in Hc.
  - by eapply flags_consistent_skeletal; [| exact IH].
  - pose proof (flags_consistent_run c st IH) as Hc. by rewrite Hrun in Hc.
  - pose proof (flags_consistent_run c st IH) as Hc. by rewrite Hrun in Hc.
Qed.

Lemma flags_along_path st x l :
  flags_consistent st → tree_path st x l →
  ∃ nd, nodes st !! x = Some nd
        ∧ (is_path_all_dense nd = true
           ↔ Forall (λ y, need_activation_at st y = false) l).
Proof.
  intros [(r & Hr & Hrt & Hrd) Hedge].
  induction 1 as [| p l nd c Hpath IH Hp Hc].
  - exists r. split; [done |]. split; [| done]. intros _.
    apply Forall_singleton. unfold need_activation_at, need_activation.
    by rewrite Hr, Hrt.
  - destruct IH as (nd' & Hp' & IH). simplify_eq.
    destruct (Hedge _ _ _ Hp Hc) as (cn & Hcn & Hflag).
    exists cn. split; [done |]. rewrite Hflag, Forall_app, Forall_singleton, <- IH.
    unfold need_activation_at. rewrite Hcn.
    rewrite andb_true_iff, negb_true_iff. done.
Qed.

(** [need_activation] holds of the kinds pointer, hash, bitmasked and dynamic,
    and of no other. *)
Lemma need_activation_kinds nd :
  need_activation nd = true
  ↔ type nd = SNodeType.pointer ∨ type nd = SNodeType.hash
    ∨ type nd = SNodeType.bitmasked ∨ type nd = SNodeType.dynamic.
Proof.
  unfold need_activation. split.
  - destruct (type nd); simpl; intros Hact; try discriminate; auto.
  - intros [-> | [-> | [-> | ->]]]; reflexivity.
Qed.

Lemma need_activation_at_kinds st y :
  need_activation_at st y = false
  ↔ ∀ yn, nodes st !! y = Some yn →
      type yn ≠ SNodeType.pointer ∧ type yn ≠ SNodeType.hash
      ∧ type yn ≠ SNodeType.bitmasked ∧ type yn ≠ SNodeType.dynamic.
Proof.
  unfold need_activation_at. destruct (nodes st !! y) as [yn |]; [| by split].
  split.
  - intros Hno yn' [= <-].
    repeat split; intros Hkind;
      assert (need_activation yn = true) as Hact
        by (apply need_activation_kinds; rewrite Hkind; auto);
      congruence.
  - intros Hkinds. destruct (Hkinds yn eq_refl) as (Hp & Hh & Hb & Hd).
    destruct (need_activation yn) eqn:Hact; [| done].
    apply need_activation_kinds in Hact as [? | [? | [? | ?]]]; done.
Qed.

(** C4: in every state of a build, the [is_path_all_dense] flag of a node is
    set exactly when no node on the path from the root to it, both included,
    is of kind pointer, hash, bitmasked or dynamic; these four kinds are the
    ones that need activation; and [insert_children] gives the new child, of
    the kind asked for, the conjunction of the parent's flag and the negation
    of the child's [need_activation]. *)
Theorem is_path_all_dense_iff st x l nd :
  built st → tree_path st x l → nodes st !! x = Some nd →
  (is_path_all_dense nd = true
   ↔ ∀ y yn, y ∈ l → nodes st !! y = Some yn →
       type yn ≠ SNodeType.pointer ∧ type yn ≠ SNodeType.hash
       ∧ type yn ≠ SNodeType.bitmasked ∧ type yn ≠ SNodeType.dynamic)
  ∧ (∀ yn, need_activation yn = true
       ↔ type yn = SNodeType.pointer ∨ type yn = SNodeType.hash
         ∨ type yn = SNodeType.bitmasked ∨ type yn = SNodeType.dynamic)
  ∧ (is_path_all_dense nd = true ↔ Forall (λ y, need_activation_at st y = false) l)
  ∧ (∀ this t pn c st',
       nodes st !! this = Some pn → insert_children this t st = Ok c st' →
       ∃ cn, nodes st' !! c = Some cn
             ∧ (c ∉ ch pn)
             ∧ type cn = t
             ∧ is_path_all_dense cn
               = is_path_all_dense pn && negb (need_activation cn)).
Proof.
  intros Hb Hpath Hnd. pose proof (built_flags_consistent st Hb) as HI.
  destruct (flags_along_path st x l HI Hpath) as (nd' & Hnd' & Hiff). simplify_eq.
  split; [| split; [apply need_activation_kinds | split; [exact Hiff |]]].
  - rewrite Hiff, Forall_forall. split.
    + intros Hall y yn Hy Hyn. by apply (need_activation_at_kinds st y); [apply Hall |].
    + intros Hall y Hy. apply need_activation_at_kinds. intros yn Hyn. by apply (Hall y).
  - intros this t pn c st' Hpn Hins.
    destruct (decide (t = SNodeType.root)) as [-> | Ht]; [done |].
    rewrite (insert_children_Ok this t st pn) in Hins by done.
    injection Hins as <- <-. eexists. split; [by apply lookup_inserted_new |].
    split; [| done]. simpl. intros Hin.
    destruct HI as [_ Hedge]. destruct (Hedge _ _ _ Hpn Hin) as (cn & Hcn & _).
    apply lookup_lt_Some in Hcn. lia.
Qed.
End DensePath.

(** ** What a placement leaves behind *)

Section PlaceResults.
Context `{Declarations}.

Lemma modify_last st l c f a :
  nodes st = l ++ [c] → a = length l →
  modify a f st = Ok tt (set_nodes (l ++ [f c]) st).
Proof.
  intros Hn ->. unfold modify. rewrite Hn, lookup_app_r by lia.
  rewrite Nat.sub_diag. simpl. rewrite insert_app_r_alt by lia.
  by rewrite Nat.sub_diag.
Qed.

Lemma when_modify_last st l c f a b :
  nodes st = l ++ [c] → a = length l →
  when b (modify a f) st = Ok tt (set_nodes (l ++ [if b then f c else c]) st).
Proof.
  intros Hn Ha. destruct b; simpl; [by apply modify_last |].
  unfold ret. by rewrite <- Hn, set_nodes_same.
Qed.

Lemma when_modify_twice_last st l c f1 f2 a b :
  nodes st = l ++ [c] → a = length l →
  when b (modify a f1 >> modify a f2) st
  = Ok tt (set_nodes (l ++ [if b then f2 (f1 c) else c]) st).
Proof.
  intros Hn Ha. destruct b; simpl.
  - erewrite bind_Ok by (by apply modify_last). by erewrite modify_last.
  - unfold ret. by rewrite <- Hn, set_nodes_same.
Qed.

Lemma modify_gve_Ok a f st g :
  exprs st !! a = Some (GlobalVariable g) →
  modify_gve a f st = Ok tt (set_exprs (<[a := GlobalVariable (f g)]> (exprs st)) st).
Proof. unfold modify_gve. by intros ->. Qed.

Lemma place_value_Ok this e g new_exp offset st nd :
  nodes st !! this = Some nd →
  exprs st !! e = Some (GlobalVariable g) →
  (∀ x, new_exp = Some x → (x < length (nodes st))%nat) →
  place_value this e g new_exp offset st
  = Ok tt (value_placed this e g new_exp offset nd st).
Proof.
  intros Hnd He Hx. pose proof (lookup_lt_Some _ _ _ Hnd) as Hthis.
  unfold place_value.
  erewrite bind_Ok by (by apply insert_children_Ok).
  erewrite bind_Ok by (by apply modify_gve_Ok).
  destruct st as [N X C b cur d]. unfold inserted, value_placed. simpl in *.
  set (a := length N).
  set (l := <[this := with_ch (ch nd ++ [a]) nd]> N).
  assert (a = length l) as Hl by (symmetry; apply length_insert).
  erewrite bind_Ok by (by apply modify_last).
  erewrite bind_Ok by (by apply when_modify_twice_last).
  erewrite bind_Ok by (by apply modify_last).
  erewrite bind_Ok by reflexivity.
  erewrite bind_Ok by (by apply when_modify_last).
  erewrite bind_Ok by (by apply modify_last).
  simpl.
  match goal with
  | |- context [l ++ [with_dt (gv_dt g) ?c]] => set (c5 := with_dt (gv_dt g) c)
  end.
  set (c6 := match new_exp with Some x => with_exp_snode (Some x) c5 | None => c5 end).
  set (l' := match new_exp with
             | Some x => alter (add_exponent_user a) x l
             | None => l
             end).
  set (X' := <[e := GlobalVariable (set_snode (Some a) g)]> X).
  erewrite bind_Ok with (st' := mkState (l' ++ [c6]) X' (int32 (C + 1)) b cur d).
  2:{ unfold l', c6. destruct new_exp as [x |]; [| done].
      specialize (Hx x eq_refl).
      erewrite bind_Ok by (by apply modify_last).
      unfold modify. simpl.
      destruct (lookup_lt_is_Some_2 l x) as [xn Hxn]; [lia |].
      rewrite lookup_app_l, Hxn by lia. unfold set_nodes. simpl. do 2 f_equal.
      rewrite insert_app_l by lia. f_equal.
      apply list_eq. intros i. rewrite list_lookup_alter, list_lookup_insert.
      destruct (decide (x = i)) as [<- | Hne].
      - rewrite decide_True by (split; [done | lia]). by rewrite Hxn.
      - rewrite decide_False; [done | by intros [? _]]. }
  unfold placed_leaf. fold c5 c6.
  case_bool_decide as Hoff; simpl.
  - unfold ret. done.
  - unfold set_index_offsets.
    assert (l' = l' ∧ a = length l') as [_ Hl'].
    { split; [done |]. unfold l'. destruct new_exp; [by rewrite length_alter | done]. }
    erewrite bind_Ok.
    2:{ apply deref_Ok. simpl. rewrite lookup_app_r by lia.
        replace (a - length l')%nat with 0%nat by lia. done. }
    assert (index_offsets c6 = [] ∧ type c6 = SNodeType.place) as [Hio Hty].
    { unfold c6, c5. by destruct new_exp, b, (gv_has_ambient g). }
    rewrite Hio, Hty. rewrite bool_decide_eq_true_2 by done.
    erewrite bind_Ok by apply TI_ASSERT_true.
    rewrite bool_decide_eq_false_2 by done.
    erewrite bind_Ok by apply TI_ASSERT_true.
    rewrite bool_decide_eq_true_2 by done.
    erewrite bind_Ok by apply TI_ASSERT_true.
    by erewrite modify_last.
Qed.

Lemma place_exponent_fresh this g exp st nd :
  nodes st !! this = Some nd →
  placing_shared_exp st = false ∨ currently_placing_exp_snode st = None →
  place_exponent this g exp st
  = Ok (length (nodes st)) (exponent_placed this g exp nd st).
Proof.
  intros Hnd Hsession. pose proof (lookup_lt_Some _ _ _ Hnd) as Hthis.
  unfold place_exponent. erewrite bind_Ok by reflexivity.
  assert (∀ k : M addr,
            match placing_shared_exp st, currently_placing_exp_snode st with
            | true, Some cur =>
                TI_ASSERT (bool_decide (currently_placing_exp_snode_dtype st = Some exp))
                  "CustomFloatTypes with shared exponents must have exactly the same exponent type." >>
                ret cur
            | _, _ => k
            end = k) as ->.
  { intros k. destruct Hsession as [-> | ->]; [done |]. by destruct (placing_shared_exp st). }
  erewrite bind_Ok by (by apply insert_children_Ok).
  destruct st as [N X C b cur d]. unfold inserted, exponent_placed. simpl in *.
  set (a := length N).
  set (l := <[this := with_ch (ch nd ++ [a]) nd]> N).
  assert (a = length l) as Hl by (symmetry; apply length_insert).
  erewrite bind_Ok by (by apply modify_last).
  erewrite bind_Ok by (by apply modify_last).
  simpl. destruct b; done.
Qed.

Lemma place_exponent_reuse this g exp st cur :
  placing_shared_exp st = true →
  currently_placing_exp_snode st = Some cur →
  currently_placing_exp_snode_dtype st = Some exp →
  place_exponent this g exp st = Ok cur st.
Proof.
  intros Hs Hc Hd. unfold place_exponent. erewrite bind_Ok by reflexivity.
  rewrite Hs, Hc, Hd. by rewrite bool_decide_eq_true_2.
Qed.

Lemma place_here_plain this e g offset st nd :
  nodes st !! this = Some nd →
  exprs st !! e = Some (GlobalVariable g) →
  gv_snode g = None →
  get_exponent_type (gv_dt g) = None →
  place_here this (Some e) offset st
  = Ok tt (value_placed this e g None offset nd st).
Proof.
  intros Hnd He Hs Hexp. unfold place_here.
  erewrite bind_Ok by reflexivity. rewrite He, Hs, Hexp.
  rewrite bool_decide_eq_false_2 by (by intros ?).
  erewrite bind_Ok by reflexivity. erewrite bind_Ok by reflexivity.
  by apply place_value_Ok.
Qed.

Lemma place_here_fresh_exponent this e g exp offset st nd :
  nodes st !! this = Some nd →
  exprs st !! e = Some (GlobalVariable g) →
  gv_snode g = None →
  get_exponent_type (gv_dt g) = Some exp →
  placing_shared_exp st = false ∨ currently_placing_exp_snode st = None →
  place_here this (Some e) offset st
  = Ok tt (value_placed this e g (Some (length (nodes st))) offset
             (with_ch (ch nd ++ [length (nodes st)]) nd)
             (exponent_placed this g exp nd st)).
Proof.
  intros Hnd He Hs Hexp Hsession. pose proof (lookup_lt_Some _ _ _ Hnd) as Hthis.
  unfold place_here.
  erewrite bind_Ok by reflexivity. rewrite He, Hs, Hexp.
  rewrite bool_decide_eq_false_2 by (by intros ?).
  erewrite bind_Ok by reflexivity.
  erewrite bind_Ok.
  2:{ erewrite bind_Ok by (by apply place_exponent_fresh). reflexivity. }
  apply place_value_Ok.
  - simpl. rewrite lookup_app_l by (by rewrite length_insert).
    by apply list_lookup_insert_eq.
  - done.
  - intros x [= <-]. simpl. rewrite length_app, length_insert. simpl. lia.
Qed.

Lemma place_here_shared_exponent this e g exp offset st nd cur :
  nodes st !! this = Some nd →
  exprs st !! e = Some (GlobalVariable g) →
  gv_snode g = None →
  get_exponent_type (gv_dt g) = Some exp →
  placing_shared_exp st = true →
  currently_placing_exp_snode st = Some cur →
  currently_placing_exp_snode_dtype st = Some exp →
  (cur < length (nodes st))%nat →
  place_here this (Some e) offset st
  = Ok tt (value_placed this e g (Some cur) offset nd st).
Proof.
  intros Hnd He Hs Hexp Hshared Hcur Hd Hlt. unfold place_here.
  erewrite bind_Ok by reflexivity. rewrite He, Hs, Hexp.
  rewrite bool_decide_eq_false_2 by (by intros ?).
  erewrite bind_Ok by reflexivity.
  erewrite bind_Ok.
  2:{ erewrite bind_Ok by (by apply place_exponent_reuse). reflexivity. }
  apply place_value_Ok; [done | done |]. by intros x [= <-].
Qed.

Lemma dense_no_axes this st nd :
  nodes st !! this = Some nd →
  dense this [] [] st
  = Ok (length (nodes st))
       (mkState
          (<[this := with_ch (ch nd ++ [length (nodes st)]) nd]> (nodes st)
           ++ [with_n 1 (fresh_child nd SNodeType.dense st)])
          (exprs st) (int32 (counter st + 1)) (placing_shared_exp st)
          (currently_placing_exp_snode st) (currently_placing_exp_snode_dtype st)).
Proof.
  intros Hnd. unfold dense, create_node. simpl.
  erewrite bind_Ok by reflexivity.
  erewrite bind_Ok by (by apply deref_Ok).
  erewrite bind_Ok by reflexivity.
  erewrite bind_Ok by (by apply insert_children_Ok).
  destruct st as [N X C b cur d]. unfold inserted. simpl in *.
  erewrite bind_Ok.
  2:{ eapply modify_last; [reflexivity |]. by rewrite length_insert. }
  reflexivity.
Qed.

Lemma place_entry this expr_ offset st nd :
  nodes st !! this = Some nd →
  place this expr_ offset st
  = place_here (entry this nd st).1.1 expr_ offset (entry this nd st).2.
Proof.
  intros Hnd. unfold place, entry. erewrite bind_Ok by (by apply deref_Ok).
  case_bool_decide; [| done]. by erewrite bind_Ok by (by apply dense_no_axes).
Qed.

Lemma entry_lookup this st nd :
  nodes st !! this = Some nd →
  nodes (entry this nd st).2 !! (entry this nd st).1.1 = Some (entry this nd st).1.2.
Proof.
  intros Hnd. unfold entry. case_bool_decide; simpl; [| done].
  rewrite lookup_app_r by (by rewrite length_insert).
  by rewrite length_insert, Nat.sub_diag.
Qed.

Lemma evolved_refl x : evolved [] [] x x.
Proof. unfold evolved. by rewrite !app_nil_r. Qed.

Lemma evolved_trans cs us cs' us' x x' x'' :
  evolved cs us x x' → evolved cs' us' x' x'' → evolved (cs ++ cs') (us ++ us') x x''.
Proof.
  intros (Ht & He & Hx & Hd & Hc & Hu) (Ht' & He' & Hx' & Hd' & Hc' & Hu').
  unfold evolved. rewrite Ht', He', Hx', Hd', Hc', Hu', Ht, He, Hx, Hd, Hc, Hu.
  by rewrite !app_assoc.
Qed.

Lemma value_placed_length this e g new_exp offset nd st :
  length (nodes (value_placed this e g new_exp offset nd st)) = S (length (nodes st)).
Proof.
  simpl. rewrite length_app. simpl.
  destruct new_exp; rewrite ?length_alter, length_insert; lia.
Qed.

Lemma value_placed_new this e g new_exp offset nd st :
  (∀ x, new_exp = Some x → (x < length (nodes st))%nat) →
  nodes (value_placed this e g new_exp offset nd st) !! length (nodes st)
  = Some (placed_leaf g e (placing_shared_exp st) new_exp offset
            (fresh_child nd SNodeType.place st)).
Proof.
  intros Hx. simpl.
  rewrite lookup_app_r by (destruct new_exp; rewrite ?length_alter, length_insert; lia).
  replace (length (nodes st) - _)%nat with 0%nat; [done |].
  destruct new_exp; rewrite ?length_alter, length_insert; lia.
Qed.

Lemma value_placed_old this e g new_exp offset nd st a x :
  nodes st !! this = Some nd →
  nodes st !! a = Some x →
  ∃ x', nodes (value_placed this e g new_exp offset nd st) !! a = Some x'
        ∧ evolved (if decide (a = this) then [length (nodes st)] else [])
            (if decide (new_exp = Some a) then [length (nodes st)] else []) x x'.
Proof.
  intros Hnd Ha. pose proof (lookup_lt_Some _ _ _ Ha) as Hlt. simpl.
  rewrite lookup_app_l by (destruct new_exp; rewrite ?length_alter, length_insert; lia).
  set (l := <[this := with_ch (ch nd ++ [length (nodes st)]) nd]> (nodes st)).
  assert (∃ y, l !! a = Some y
               ∧ evolved (if decide (a = this) then [length (nodes st)] else []) [] x y)
    as (y & Hy & Hev).
  { unfold l. case_decide as Heq.
    - subst a. rewrite list_lookup_insert_eq by done. simplify_eq.
      eexists. split; [done |]. unfold evolved. simpl. by rewrite app_nil_r.
    - rewrite list_lookup_insert_ne by done. exists x. split; [done | apply evolved_refl]. }
  destruct new_exp as [c |].
  - rewrite list_lookup_alter. destruct (decide (c = a)) as [-> | Hne].
    + rewrite Hy. eexists. split; [reflexivity |].
      rewrite (decide_True (P := Some a = Some a)) by done.
      destruct Hev as (Ht & He & Hx & Hd & Hc & Hu). unfold evolved. simpl.
      rewrite Hu, app_nil_r. done.
    + exists y. split; [done |].
      by rewrite (decide_False (P := Some c = Some a)) by congruence.
  - exists y. split; [done |]. by rewrite (decide_False (P := None = Some a)).
Qed.

Lemma exponent_placed_length this g exp nd st :
  length (nodes (exponent_placed this g exp nd st)) = S (length (nodes st)).
Proof. simpl. rewrite length_app, length_insert. simpl. lia. Qed.

Lemma exponent_placed_new this g exp nd st :
  nodes (exponent_placed this g exp nd st) !! length (nodes st)
  = Some (with_name (gv_ident g ++ "_exp")
            (with_dt exp (fresh_child nd SNodeType.place st))).
Proof.
  simpl. rewrite lookup_app_r by (by rewrite length_insert).
  by rewrite length_insert, Nat.sub_diag.
Qed.

Lemma exponent_placed_old this g exp nd st a x :
  nodes st !! this = Some nd →
  nodes st !! a = Some x →
  ∃ x', nodes (exponent_placed this g exp nd st) !! a = Some x'
        ∧ evolved (if decide (a = this) then [length (nodes st)] else []) [] x x'.
Proof.
  intros Hnd Ha. pose proof (lookup_lt_Some _ _ _ Ha) as Hlt. simpl.
  rewrite lookup_app_l by (by rewrite length_insert).
  case_decide as Heq.
  - subst a. rewrite list_lookup_insert_eq by done. simplify_eq.
    eexists. split; [done |]. unfold evolved. simpl. by rewrite app_nil_r.
  - rewrite list_lookup_insert_ne by done. exists x. split; [done | apply evolved_refl].
Qed.

Lemma entry_old this nd st a x :
  nodes st !! this = Some nd →
  nodes st !! a = Some x →
  ∃ x', nodes (entry this nd st).2 !! a = Some x'
        ∧ evolved (if decide (a = this ∧ type nd = SNodeType.root)
                   then [length (nodes st)] else []) [] x x'.
Proof.
  intros Hnd Ha. pose proof (lookup_lt_Some _ _ _ Ha) as Hlt. unfold entry.
  case_bool_decide as Hroot; simpl.
  - rewrite lookup_app_l by (by rewrite length_insert).
    destruct (decide (a = this)) as [-> | Hne].
    + rewrite list_lookup_insert_eq by done. simplify_eq.
      eexists. split; [done |]. rewrite decide_True by done.
      unfold evolved. simpl. by rewrite app_nil_r.
    + rewrite list_lookup_insert_ne by done. exists x. split; [done |].
      rewrite decide_False by (by intros [? _]). apply evolved_refl.
  - exists x. split; [done |]. rewrite decide_False by (by intros [_ ?]).
    apply evolved_refl.
Qed.
End PlaceResults.

(** ** Shared exponents *)

Section SharedExponent.
Context `{Declarations}.

Lemma entry_exprs this nd st : exprs (entry this nd st).2 = exprs st.
Proof. unfold entry. by case_bool_decide. Qed.

Lemma entry_session this nd st :
  placing_shared_exp (entry this nd st).2 = placing_shared_exp st
  ∧ currently_placing_exp_snode (entry this nd st).2 = currently_placing_exp_snode st
  ∧ currently_placing_exp_snode_dtype (entry this nd st).2
    = currently_placing_exp_snode_dtype st.
Proof. unfold entry. by case_bool_decide. Qed.

Lemma entry_length this nd st :
  length (nodes (entry this nd st).2)
  = if bool_decide (type nd = SNodeType.root) then S (length (nodes st))
    else length (nodes st).
Proof.
  unfold entry. case_bool_decide; [| done]. simpl.
  rewrite length_app, length_insert. simpl. lia.
Qed.

Lemma entry_new this nd st x :
  nodes st !! this = Some nd →
  nodes (entry this nd st).2 !! length (nodes st) = Some x →
  type x = SNodeType.dense.
Proof.
  intros Hnd. unfold entry. case_bool_decide; simpl.
  - rewrite lookup_app_r by (by rewrite length_insert).
    rewrite length_insert, Nat.sub_diag. by intros [= <-].
  - intros Hx%lookup_lt_Some. lia.
Qed.

Lemma placed_leaf_links g e shared new_exp offset c0 :
  type c0 = SNodeType.place →
  type (placed_leaf g e shared new_exp offset c0) = SNodeType.place
  ∧ expr (placed_leaf g e shared new_exp offset c0) = Some e
  ∧ dt (placed_leaf g e shared new_exp offset c0) = gv_dt g
  ∧ ch (placed_leaf g e shared new_exp offset c0) = ch c0
  ∧ (∀ x, new_exp = Some x →
       exp_snode (placed_leaf g e shared new_exp offset c0) = Some x).
Proof.
  intros Ht. unfold placed_leaf.
  destruct (gv_has_ambient g), shared, new_exp, (bool_decide (offset = []));
    simpl; repeat split; try done; by intros ? [= <-].
Qed.

Lemma is_place_at_lookup st a nd :
  nodes st !! a = Some nd → is_place_at st a = bool_decide (type nd = SNodeType.place).
Proof. unfold is_place_at. by intros ->. Qed.

(** The nodes created on the way into the else branch are not place leaves. *)
Lemma new_place_leaves_entry this nd st st' :
  nodes st !! this = Some nd →
  (length (nodes (entry this nd st).2) <= length (nodes st'))%nat →
  (∀ a x, nodes (entry this nd st).2 !! a = Some x →
     ∃ x', nodes st' !! a = Some x' ∧ type x' = type x) →
  new_place_leaves st st' = new_place_leaves (entry this nd st).2 st'.
Proof.
  intros Hnd Hlen Hkeep. unfold new_place_leaves.
  pose proof (entry_length this nd st) as Hel.
  case_bool_decide as Hroot; [| by rewrite Hel].
  rewrite Hel in *.
  replace (length (nodes st') - length (nodes st))%nat
    with (S (length (nodes st') - S (length (nodes st))))%nat by lia.
  simpl seq. rewrite filter_cons_False; [done |].
  destruct (lookup_lt_is_Some_2 (nodes (entry this nd st).2) (length (nodes st)))
    as [d Hd]; [lia |].
  destruct (Hkeep _ _ Hd) as (d' & Hd' & Ht).
  rewrite (is_place_at_lookup _ _ _ Hd'), Ht, (entry_new this nd st d Hnd Hd).
  rewrite bool_decide_eq_false_2 by done. by intros [].
Qed.

Lemma first_placement p1 n1 x gx E off1 st :
  nodes st !! p1 = Some n1 →
  exprs st !! x = Some (GlobalVariable gx) →
  gv_snode gx = None →
  get_exponent_type (gv_dt gx) = Some E →
  placing_shared_exp st = true →
  currently_placing_exp_snode st = None →
  ∃ st1 e ne nx,
    place p1 (Some x) off1 st = Ok tt st1
    ∧ new_place_leaves st st1 = [e; S e]
    ∧ length (nodes st1) = S (S e)
    ∧ nodes st1 !! e = Some ne ∧ nodes st1 !! S e = Some nx
    ∧ type ne = SNodeType.place ∧ expr ne = None ∧ dt ne = E
    ∧ exponent_users ne = [S e]
    ∧ type nx = SNodeType.place ∧ expr nx = Some x ∧ exp_snode nx = Some e
    ∧ placing_shared_exp st1 = true
    ∧ currently_placing_exp_snode st1 = Some e
    ∧ currently_placing_exp_snode_dtype st1 = Some E
    ∧ exprs st1 = <[x := GlobalVariable (set_snode (Some (S e)) gx)]> (exprs st).
Proof.
  intros Hn1 Hx Hsx HE Hshared Hcur.
  destruct (entry_session p1 n1 st) as (Hs1 & Hs2 & Hs3).
  pose proof (entry_lookup p1 st n1 Hn1) as Hthis.
  pose proof (entry_exprs p1 n1 st) as Hex.
  set (this := (entry p1 n1 st).1.1) in *.
  set (nd := (entry p1 n1 st).1.2) in *.
  set (st0 := (entry p1 n1 st).2) in *.
  set (e := length (nodes st0)).
  set (stE := exponent_placed this gx E nd st0).
  set (nd' := with_ch (ch nd ++ [e]) nd).
  set (st1 := value_placed this x gx (Some e) off1 nd' stE).
  assert (length (nodes stE) = S e) as HlenE by apply exponent_placed_length.
  assert (nodes stE !! this = Some nd') as HthisE.
  { destruct (exponent_placed_old this gx E nd st0 this nd Hthis Hthis) as (y & Hy & _).
    unfold stE. simpl in *. rewrite lookup_app_l in * by (rewrite length_insert; by eapply lookup_lt_Some).
    rewrite list_lookup_insert_eq by (by eapply lookup_lt_Some). done. }
  assert (place p1 (Some x) off1 st = Ok tt st1) as Hplace.
  { rewrite (place_entry p1 (Some x) off1 st n1 Hn1). fold this st0.
    apply place_here_fresh_exponent; try done.
    - by rewrite Hex.
    - right. by rewrite Hs2. }
  assert (length (nodes st1) = S (S e)) as Hlen1.
  { unfold st1. by rewrite value_placed_length, HlenE. }
  pose proof (exponent_placed_new this gx E nd st0) as HeE. fold e stE in HeE.
  destruct (value_placed_old this x gx (Some e) off1 nd' stE e _ HthisE HeE)
    as (ne & Hne & Hev).
  fold st1 in Hne. rewrite HlenE in Hev. rewrite (decide_True (P := Some e = Some e)) in Hev by done.
  destruct Hev as (Hte & Hee & _ & Hde & _ & Hue). simpl in Hte, Hee, Hde, Hue.
  assert (nodes st1 !! S e = Some
            (placed_leaf gx x (placing_shared_exp stE) (Some e) off1
               (fresh_child nd' SNodeType.place stE))) as Hnx.
  { rewrite <- HlenE. apply value_placed_new. intros ? [= <-]. lia. }
  destruct (placed_leaf_links gx x (placing_shared_exp stE) (Some e) off1
              (fresh_child nd' SNodeType.place stE) eq_refl)
    as (Htx & Hex' & _ & _ & Hxx).
  exists st1, e, ne. eexists.
  split; [exact Hplace |]. split; [| split; [exact Hlen1 |]].
  - rewrite (new_place_leaves_entry p1 n1 st st1 Hn1); fold st0.
    + unfold new_place_leaves. fold e. rewrite Hlen1.
      replace (S (S e) - e)%nat with 2%nat by lia. simpl seq.
      rewrite filter_cons_True.
      2:{ rewrite (is_place_at_lookup _ _ _ Hne), Hte. by rewrite bool_decide_eq_true_2. }
      rewrite filter_cons_True; [done |].
      rewrite (is_place_at_lookup _ _ _ Hnx), Htx. by rewrite bool_decide_eq_true_2.
    + fold e. lia.
    + intros a y Hy.
      destruct (exponent_placed_old this gx E nd st0 a y Hthis Hy) as (y' & Hy' & Hev').
      destruct (value_placed_old this x gx (Some e) off1 nd' stE a y' HthisE Hy')
        as (y'' & Hy'' & Hev'').
      exists y''. split; [done |].
      destruct Hev' as (Ht' & _), Hev'' as (Ht'' & _). congruence.
  - split; [exact Hne |]. split; [exact Hnx |].
    repeat split; try done.
    + by apply Hxx.
    + simpl. by rewrite Hs1, Hshared.
    + simpl. by rewrite Hs1, Hshared.
    + simpl. by rewrite Hs1, Hshared.
    + change (exprs st1)
        with (<[x := GlobalVariable (set_snode (Some (length (nodes stE))) gx)]>
                (exprs st0)).
      by rewrite HlenE, Hex.
Qed.

Lemma second_placement p2 n2 y gy E e off2 st1 :
  nodes st1 !! p2 = Some n2 →
  exprs st1 !! y = Some (GlobalVariable gy) →
  gv_snode gy = None →
  get_exponent_type (gv_dt gy) = Some E →
  placing_shared_exp st1 = true →
  currently_placing_exp_snode st1 = Some e →
  currently_placing_exp_snode_dtype st1 = Some E →
  (e < length (nodes st1))%nat →
  ∃ st2 ly ny,
    place p2 (Some y) off2 st1 = Ok tt st2
    ∧ new_place_leaves st1 st2 = [ly]
    ∧ nodes st2 !! ly = Some ny
    ∧ type ny = SNodeType.place ∧ expr ny = Some y ∧ exp_snode ny = Some e
    ∧ currently_placing_exp_snode st2 = Some e
    ∧ ∀ a nd, nodes st1 !! a = Some nd →
        ∃ nd', nodes st2 !! a = Some nd'
               ∧ type nd' = type nd ∧ expr nd' = expr nd
               ∧ exp_snode nd' = exp_snode nd ∧ dt nd' = dt nd
               ∧ exponent_users nd'
                 = exponent_users nd ++ (if decide (a = e) then [ly] else []).
Proof.
  intros Hn2 Hy Hsy HE Hshared Hcur Hdt He.
  destruct (entry_session p2 n2 st1) as (Hs1 & Hs2 & Hs3).
  pose proof (entry_lookup p2 st1 n2 Hn2) as Hthis.
  pose proof (entry_exprs p2 n2 st1) as Hex.
  pose proof (entry_length p2 n2 st1) as Hel.
  set (this := (entry p2 n2 st1).1.1) in *.
  set (nd := (entry p2 n2 st1).1.2) in *.
  set (st0 := (entry p2 n2 st1).2) in *.
  set (ly := length (nodes st0)).
  set (st2 := value_placed this y gy (Some e) off2 nd st0).
  assert (e < ly)%nat as Hely by (unfold ly; rewrite Hel; case_bool_decide; lia).
  assert (place p2 (Some y) off2 st1 = Ok tt st2) as Hplace.
  { rewrite (place_entry p2 (Some y) off2 st1 n2 Hn2). fold this st0.
    apply place_here_shared_exponent with (exp := E); try done; congruence. }
  assert (nodes st2 !! ly
          = Some (placed_leaf gy y (placing_shared_exp st0) (Some e) off2
                    (fresh_child nd SNodeType.place st0))) as Hny.
  { apply value_placed_new. by intros ? [= <-]. }
  destruct (placed_leaf_links gy y (placing_shared_exp st0) (Some e) off2
              (fresh_child nd SNodeType.place st0) eq_refl)
    as (Hty & Hey & _ & _ & Hxy).
  assert (∀ a x, nodes st0 !! a = Some x →
            ∃ x', nodes st2 !! a = Some x'
                  ∧ evolved (if decide (a = this) then [ly] else [])
                      (if decide (Some e = Some a) then [ly] else []) x x') as Hold.
  { intros a x Hx. by apply value_placed_old. }
  exists st2, ly. eexists.
  split; [exact Hplace |]. split; [| split; [exact Hny |]].
  - rewrite (new_place_leaves_entry p2 n2 st1 st2 Hn2); fold st0.
    + unfold new_place_leaves. fold ly. unfold st2. rewrite value_placed_length.
      fold ly st2. replace (S ly - ly)%nat with 1%nat by lia. simpl seq.
      rewrite filter_cons_True; [done |].
      rewrite (is_place_at_lookup _ _ _ Hny), Hty. by rewrite bool_decide_eq_true_2.
    + unfold st2. rewrite value_placed_length. lia.
    + intros a x Hx. destruct (Hold a x Hx) as (x' & Hx' & Ht & _). by exists x'.
  - split; [exact Hty |]. split; [exact Hey |]. split; [by apply Hxy |].
    split; [simpl; congruence |].
    intros a x Hx.
    destruct (entry_old p2 n2 st1 a x Hn2 Hx) as (x0 & Hx0 & Hev0).
    fold st0 in Hx0.
    destruct (Hold a x0 Hx0) as (x' & Hx' & Hev').
    exists x'. split; [exact Hx' |].
    destruct Hev0 as (Ht0 & He0 & Hs0 & Hd0 & _ & Hu0).
    destruct Hev' as (Ht' & He' & Hs' & Hd' & _ & Hu').
    repeat split; try congruence.
    rewrite Hu', Hu0, app_nil_r. f_equal.
    destruct (decide (a = e)) as [-> | Hne].
    + by rewrite decide_True.
    + rewrite decide_False; [done | congruence].
Qed.

(** C2: in a shared-exponent session with no exponent node yet, placing a
    field whose custom-float type has exponent type E creates exactly two
    place leaves, the exponent leaf and the value leaf; placing a second,
    different field with the same exponent type then creates the value leaf
    only, and afterwards the session's exponent node is that one exponent
    leaf, both value leaves point to it through [exp_snode], and its
    [exponent_users] are the two value leaves. *)
Theorem shared_exponent_reuse p1 x y gx gy E off1 off2 st :
  placing_shared_exp st = true →
  currently_placing_exp_snode st = None →
  is_Some (nodes st !! p1) →
  exprs st !! x = Some (GlobalVariable gx) →
  exprs st !! y = Some (GlobalVariable gy) →
  x ≠ y →
  gv_snode gx = None → gv_snode gy = None →
  get_exponent_type (gv_dt gx) = Some E →
  get_exponent_type (gv_dt gy) = Some E →
  ∃ st1 e lx,
    place p1 (Some x) off1 st = Ok tt st1
    ∧ new_place_leaves st st1 = [e; lx]
    ∧ ∀ p2, is_Some (nodes st1 !! p2) →
        ∃ st2 ly ne nx ny,
          place p2 (Some y) off2 st1 = Ok tt st2
          ∧ new_place_leaves st1 st2 = [ly]
          ∧ currently_placing_exp_snode st2 = Some e
          ∧ nodes st2 !! e = Some ne
          ∧ nodes st2 !! lx = Some nx
          ∧ nodes st2 !! ly = Some ny
          ∧ type ne = SNodeType.place ∧ expr ne = None ∧ dt ne = E
          ∧ exponent_users ne = [lx; ly]
          ∧ type nx = SNodeType.place ∧ expr nx = Some x ∧ exp_snode nx = Some e
          ∧ type ny = SNodeType.place ∧ expr ny = Some y ∧ exp_snode ny = Some e.
Proof.
  intros Hshared Hcur [n1 Hn1] Hx Hy Hxy Hsx Hsy HEx HEy.
  destruct (first_placement p1 n1 x gx E off1 st Hn1 Hx Hsx HEx Hshared Hcur)
    as (st1 & e & ne & nx & Hplace1 & Hnew1 & Hlen1 & Hne & Hnx & Hte & Hee & Hde & Hue
        & Htx & Hex & Hxx & Hsh1 & Hcur1 & Hdt1 & Hexprs1).
  exists st1, e, (S e). split; [exact Hplace1 |]. split; [exact Hnew1 |].
  intros p2 [n2 Hn2].
  assert (exprs st1 !! y = Some (GlobalVariable gy)) as Hy1.
  { rewrite Hexprs1, list_lookup_insert_ne by done. exact Hy. }
  destruct (second_placement p2 n2 y gy E e off2 st1 Hn2 Hy1 Hsy HEy Hsh1 Hcur1 Hdt1)
    as (st2 & ly & ny & Hplace2 & Hnew2 & Hny & Hty & Hey & Hxy' & Hcur2 & Hold);
    [lia |].
  destruct (Hold _ _ Hne) as (ne' & Hne' & Hte' & Hee' & _ & Hde' & Hue').
  destruct (Hold _ _ Hnx) as (nx' & Hnx' & Htx' & Hex' & Hxx' & _ & _).
  rewrite decide_True in Hue' by done.
  exists st2, ly, ne', nx', ny.
  repeat split; try done; try congruence.
  by rewrite Hue', Hue.
Qed.
End SharedExponent.

(** ** Gradient mirroring *)

Lemma bind_Ok_inv {A B} (m : M A) (k : A → M B) st b st'' :
  bind m k st = Ok b st'' → ∃ a st', m st = Ok a st' ∧ k a st' = Ok b st''.
Proof. unfold bind. destruct (m st) as [a st' | | |]; [eauto | done ..]. Qed.

Lemma deref_Ok_inv p st nd st' : deref p st = Ok nd st' → st' = st ∧ nodes st !! p = Some nd.
Proof.
  unfold deref. destruct (nodes st !! p) eqn:Hp; [| done]. intros [= <- <-]. by split.
Qed.

Lemma TI_ASSERT_Ok_inv b msg st u st' : TI_ASSERT b msg st = Ok u st' → st' = st ∧ b = true.
Proof. destruct b; [| done]. intros [= <-]. by split. Qed.

Lemma deref_gve_Ok e st g : gve_at st e = Some g → deref_gve e st = Ok g st.
Proof.
  unfold gve_at, deref_gve. destruct e as [a |]; [| done].
  destruct (exprs st !! a) as [[g' |] |]; [by intros [= ->] | done ..].
Qed.

Lemma deref_gve_Ok_inv e st g st' :
  deref_gve e st = Ok g st' → st' = st ∧ gve_at st e = Some g.
Proof.
  unfold gve_at, deref_gve. destruct e as [a |]; [| done].
  destruct (exprs st !! a) as [[g' |] |]; [| done ..]. intros [= <- <-]. by split.
Qed.

Section Gradient.
Context `{Declarations}.

Lemma is_primal_Ok this st nd g :
  nodes st !! this = Some nd → gve_at st (expr nd) = Some g →
  is_primal this st = Ok (gv_is_primal g) st.
Proof.
  intros Hnd Hg. unfold is_primal. erewrite bind_Ok by (by apply deref_Ok).
  rewrite bool_decide_eq_true_2.
  2:{ intros He. by rewrite He in Hg. }
  erewrite bind_Ok by apply TI_ASSERT_true.
  by erewrite bind_Ok by (by apply deref_gve_Ok).
Qed.

Lemma is_primal_Ok_inv this st b st' :
  is_primal this st = Ok b st' →
  st' = st ∧ ∃ nd g, nodes st !! this = Some nd ∧ gve_at st (expr nd) = Some g
                     ∧ b = gv_is_primal g.
Proof.
  unfold is_primal.
  intros (nd & s1 & [-> Hnd]%deref_Ok_inv & Hrest)%bind_Ok_inv.
  apply bind_Ok_inv in Hrest as (u & s2 & [-> _]%TI_ASSERT_Ok_inv & Hrest).
  apply bind_Ok_inv in Hrest as (g & s3 & [-> Hg]%deref_gve_Ok_inv & Hrest).
  injection Hrest as <- <-. split; [done |]. by exists nd, g.
Qed.

Lemma has_grad_Ok_inv this st b st' :
  has_grad this st = Ok b st' →
  st' = st ∧ ∃ nd g, nodes st !! this = Some nd ∧ gve_at st (expr nd) = Some g
                     ∧ (b = true → gv_is_primal g = true ∧ bound st (gv_adjoint g)).
Proof.
  unfold has_grad.
  intros (nd & s1 & [-> Hnd]%deref_Ok_inv & Hrest)%bind_Ok_inv.
  apply bind_Ok_inv in Hrest as (g & s2 & [-> Hg]%deref_gve_Ok_inv & Hrest).
  apply bind_Ok_inv in Hrest as (p & s3 & Hp & Hrest).
  apply is_primal_Ok_inv in Hp as (-> & nd' & g' & Hnd' & Hg' & ->).
  rewrite Hnd in Hnd'. injection Hnd' as <-. rewrite Hg in Hg'. injection Hg' as <-.
  destruct (gv_is_primal g && bool_decide (gv_adjoint g ≠ None)) eqn:Hc.
  - apply bind_Ok_inv in Hrest as (ga & s4 & [-> Hga]%deref_gve_Ok_inv & Hrest).
    injection Hrest as <- <-. split; [done |]. exists nd, g.
    split; [done |]. split; [done |]. intros Hb%bool_decide_eq_true.
    apply andb_prop in Hc as [Hp _]. split; [done |]. by exists ga.
  - injection Hrest as <- <-. split; [done |]. by exists nd, g.
Qed.

Lemma has_grad_bound this st nd g :
  nodes st !! this = Some nd → gve_at st (expr nd) = Some g →
  gv_is_primal g = true → bound st (gv_adjoint g) →
  has_grad this st = Ok true st.
Proof.
  intros Hnd Hg Hp (ga & Hga & Hs). unfold has_grad.
  erewrite bind_Ok by (by apply deref_Ok).
  erewrite bind_Ok by (by apply deref_gve_Ok).
  erewrite bind_Ok by (by eapply is_primal_Ok).
  rewrite Hp, bool_decide_eq_true_2.
  2:{ intros He. by rewrite He in Hga. }
  simpl. erewrite bind_Ok by (by apply deref_gve_Ok).
  by rewrite bool_decide_eq_true_2.
Qed.

Lemma settled_grad_to_place st c : settled st c → grad_to_place c st = Ok None st.
Proof.
  intros (cn & Hcn & Hcase). unfold grad_to_place.
  erewrite bind_Ok by (by apply deref_Ok).
  destruct Hcase as [Ht | (g & Hg & Hcase)]; [by rewrite bool_decide_eq_false_2 |].
  case_bool_decide; [| done].
  erewrite bind_Ok by (by eapply is_primal_Ok).
  destruct Hcase as [-> | [Hp Hb]]; [done |].
  destruct (gv_is_primal g && needs_grad (dt cn)); [| done].
  by erewrite bind_Ok by (by eapply has_grad_bound).
Qed.

Lemma grad_to_place_Ok_inv st c o st' :
  grad_to_place c st = Ok o st' →
  st' = st ∧ match o with
             | None => settled st c
             | Some p => wants st c p
             end.
Proof.
  unfold grad_to_place.
  intros (cn & s1 & [-> Hcn]%deref_Ok_inv & Hrest)%bind_Ok_inv.
  case_bool_decide as Ht.
  2:{ injection Hrest as <- <-. split; [done |]. exists cn. split; [done | by left]. }
  apply bind_Ok_inv in Hrest as (p & s2 & Hp & Hrest).
  apply is_primal_Ok_inv in Hp as (-> & nd & g & Hnd & Hg & ->).
  rewrite Hcn in Hnd. injection Hnd as <-.
  destruct (gv_is_primal g && needs_grad (dt cn)) eqn:Hc.
  2:{ injection Hrest as <- <-. split; [done |]. exists cn. split; [done |].
      right. exists g. split; [done | by left]. }
  apply bind_Ok_inv in Hrest as (hg & s3 & Hhg & Hrest).
  apply has_grad_Ok_inv in Hhg as (-> & nd' & g' & Hnd' & Hg' & Hhg).
  rewrite Hcn in Hnd'. injection Hnd' as <-. rewrite Hg in Hg'. injection Hg' as <-.
  destruct hg; simpl in Hrest.
  - injection Hrest as <- <-. split; [done |]. exists cn. split; [done |].
    right. exists g. split; [done |]. right. by apply Hhg.
  - apply bind_Ok_inv in Hrest as (g'' & s4 & [-> Hg'']%deref_gve_Ok_inv & Hrest).
    injection Hrest as <- <-. rewrite Hg in Hg''. injection Hg'' as <-.
    split; [done |]. apply andb_prop in Hc as [Hp _]. by exists cn, g.
Qed.

Lemma quiet_induction (st : State) (P : addr → Prop) :
  (∀ x nd, nodes st !! x = Some nd → type nd = SNodeType.place → P x) →
  (∀ x nd, nodes st !! x = Some nd → type nd ≠ SNodeType.place →
     Forall (quiet st) (ch nd) → Forall P (ch nd) → Forall (settled st) (ch nd) → P x) →
  ∀ x, quiet st x → P x.
Proof.
  intros Hplace Hinner. fix IH 2. intros x [x' nd Hnd Ht | x' nd Hnd Ht Hq Hs].
  - by eapply Hplace.
  - eapply Hinner; [done | done | done | | done].
    clear Hnd Ht Hs. induction Hq as [| c cs Hc Hcs IHcs]; constructor; [by apply IH | done].
Qed.

Lemma expr_kept_refl o : expr_kept o o.
Proof. by destruct o as [[g |] |]. Qed.

Lemma expr_kept_trans o o' o'' : expr_kept o o' → expr_kept o' o'' → expr_kept o o''.
Proof.
  destruct o as [[g |] |], o' as [[g' |] |], o'' as [[g'' |] |]; simpl; try done.
  intros (? & ? & ? & ?) (? & ? & ? & ?). repeat split; try congruence. auto.
Qed.

Lemma extends_refl st : extends st st.
Proof.
  split; [done |]. split; [| split].
  - intros a x Hx. exists x, []. by rewrite app_nil_r.
  - intros a Ha. lia.
  - intros e. apply expr_kept_refl.
Qed.

Lemma gve_at_kept st st' p g :
  (∀ e, expr_kept (exprs st !! e) (exprs st' !! e)) →
  gve_at st p = Some g →
  ∃ g', gve_at st' p = Some g'
        ∧ gv_is_primal g' = gv_is_primal g ∧ gv_adjoint g' = gv_adjoint g
        ∧ gv_dt g' = gv_dt g ∧ (gv_snode g ≠ None → gv_snode g' ≠ None).
Proof.
  intros Hkept. unfold gve_at. destruct p as [a |]; [| done].
  specialize (Hkept a).
  destruct (exprs st !! a) as [[g0 |] |]; [| done ..]. intros [= ->].
  destruct (exprs st' !! a) as [[g' |] |]; [| done ..]. by exists g'.
Qed.

Lemma gve_at_kept_inv st st' p g' :
  (∀ e, expr_kept (exprs st !! e) (exprs st' !! e)) →
  gve_at st' p = Some g' →
  ∃ g, gve_at st p = Some g
       ∧ gv_is_primal g' = gv_is_primal g ∧ gv_adjoint g' = gv_adjoint g
       ∧ gv_dt g' = gv_dt g.
Proof.
  intros Hkept. unfold gve_at. destruct p as [a |]; [| done].
  specialize (Hkept a).
  destruct (exprs st' !! a) as [[g0 |] |]; [| done ..]. intros [= ->].
  destruct (exprs st !! a) as [[g |] |]; [| done ..].
  destruct Hkept as (? & ? & ? & _). by exists g.
Qed.

Lemma bound_extends st st' p : extends st st' → bound st p → bound st' p.
Proof.
  intros (_ & _ & _ & Hkept) (ga & Hga & Hs).
  destruct (gve_at_kept st st' p ga Hkept Hga) as (ga' & Hga' & _ & _ & _ & Hs').
  exists ga'. split; [done | by apply Hs'].
Qed.

Lemma settled_extends st st' c : extends st st' → settled st c → settled st' c.
Proof.
  intros Hext (cn & Hcn & Hcase).
  pose proof Hext as (_ & Hold & _ & Hkept).
  destruct (Hold c cn Hcn) as (cn' & cs & Hcn' & Ht & He & Hd & _).
  exists cn'. split; [done |]. rewrite Ht, He, Hd.
  destruct Hcase as [Hty | (g & Hg & Hcase)]; [by left | right].
  destruct (gve_at_kept st st' _ g Hkept Hg) as (g' & Hg' & Hp & Ha & _).
  exists g'. split; [done |]. rewrite Hp, Ha.
  destruct Hcase as [Hn | [Hpr Hb]]; [by left | right].
  split; [done |]. by eapply bound_extends.
Qed.

Lemma wants_extends_bound st st' c p :
  extends st st' → wants st c p → bound st' p → settled st' c.
Proof.
  intros Hext (cn & g & Hcn & Hty & Hg & Hp & ->) Hb.
  pose proof Hext as (_ & Hold & _ & Hkept).
  destruct (Hold c cn Hcn) as (cn' & cs & Hcn' & Ht & He & Hd & _).
  exists cn'. split; [done |]. right. rewrite He.
  destruct (gve_at_kept st st' _ g Hkept Hg) as (g' & Hg' & Hp' & Ha & _).
  exists g'. split; [done |]. right. rewrite Hp', Ha. done.
Qed.

Lemma quiet_extends st st' x : extends st st' → quiet st x → quiet st' x.
Proof.
  intros Hext Hq. pose proof Hext as (_ & Hold & Hnew & _).
  revert x Hq. apply quiet_induction; [intros x nd Hnd Ht | intros x nd Hnd Ht _ IH Hs].
  - destruct (Hold x nd Hnd) as (nd' & cs & Hnd' & Ht' & _).
    eapply quiet_place; [done | congruence].
  - destruct (Hold x nd Hnd) as (nd' & cs & Hnd' & Ht' & _ & _ & Hch & Hcs).
    eapply quiet_inner; [done | congruence | |]; rewrite Hch, Forall_app; split.
    + done.
    + eapply Forall_impl; [exact Hcs |]. intros c Hc. by apply Hnew.
    + eapply Forall_impl; [exact Hs |]. intros c Hc. by eapply settled_extends.
    + eapply Forall_impl; [exact Hcs |]. intros c Hc. by apply Hnew.
Qed.

Lemma extends_trans st st' st'' : extends st st' → extends st' st'' → extends st st''.
Proof.
  intros Hext Hext'.
  pose proof Hext as (Hlen & Hold & Hnew & Hkept).
  pose proof Hext' as (Hlen' & Hold' & Hnew' & Hkept').
  split; [lia |]. split; [| split].
  - intros a x Hx.
    destruct (Hold a x Hx) as (x' & cs & Hx' & Ht & He & Hd & Hch & Hcs).
    destruct (Hold' a x' Hx') as (x'' & cs' & Hx'' & Ht' & He' & Hd' & Hch' & Hcs').
    exists x'', (cs ++ cs'). split; [done |].
    repeat split; try congruence.
    + by rewrite Hch', Hch, app_assoc.
    + apply Forall_app. split; (eapply Forall_impl; [eassumption |]); simpl; lia.
  - intros a Ha. destruct (decide (a < length (nodes st'))%nat) as [Hlt | Hge].
    + destruct (Hnew a) as [Hq Hs]; [lia |].
      split; [by eapply quiet_extends | by eapply settled_extends].
    + apply Hnew'. lia.
  - intros e. by eapply expr_kept_trans.
Qed.

Lemma plain_extends st st' p : extends st st' → plain st p → plain st' p.
Proof.
  intros (_ & _ & _ & Hkept) Hp ga' Hga'.
  destruct (gve_at_kept_inv st st' p ga' Hkept Hga') as (ga & Hga & Hpr & _ & Hd).
  rewrite Hpr, Hd. by apply Hp.
Qed.

Lemma adjoints_plain_extends st st' :
  extends st st' → adjoints_plain st → adjoints_plain st'.
Proof.
  intros Hext Hplain e g' Hg'. pose proof Hext as (_ & _ & _ & Hkept).
  destruct (gve_at_kept_inv st st' (Some e) g' Hkept) as (g & Hg & _ & Ha & _).
  { unfold gve_at. by rewrite Hg'. }
  rewrite Ha. eapply plain_extends; [done |]. eapply (Hplain e).
  unfold gve_at in Hg. by destruct (exprs st !! e) as [[g0 |] |]; simplify_eq.
Qed.

Lemma place_here_Ok_inv this p offset st st' :
  place_here this p offset st = Ok tt st' →
  ∃ e g, p = Some e ∧ exprs st !! e = Some (GlobalVariable g) ∧ gv_snode g = None.
Proof.
  unfold place_here. erewrite bind_Ok by reflexivity.
  destruct p as [e |]; [| done].
  destruct (exprs st !! e) as [[g |] |] eqn:He; [| done ..].
  destruct (gv_snode g) eqn:Hs; [| intros _; by exists e, g].
  by rewrite bool_decide_eq_true_2.
Qed.

(** One placement of a plain adjoint by [lazy_grad]. *)
Lemma place_plain_extends this p st st' :
  place this p [] st = Ok tt st' → plain st p → extends st st' ∧ bound st' p.
Proof.
  intros Hplace Hplain.
  assert (∃ n0, nodes st !! this = Some n0) as [n0 Hn0].
  { unfold place in Hplace.
    apply bind_Ok_inv in Hplace as (n0 & s & [_ Hn0]%deref_Ok_inv & _). by exists n0. }
  rewrite (place_entry this p [] st n0 Hn0) in Hplace.
  pose proof (entry_lookup this st n0 Hn0) as Hthis.
  pose proof (entry_exprs this n0 st) as Hex.
  pose proof (entry_length this n0 st) as Hel.
  pose proof (entry_old this n0 st) as Hentry_old.
  pose proof (entry_new this n0 st) as Hentry_new.
  assert (∀ a, (length (nodes st) <= a < length (nodes (entry this n0 st).2))%nat →
            a = (entry this n0 st).1.1 ∧ type (entry this n0 st).1.2 = SNodeType.dense
            ∧ ch (entry this n0 st).1.2 = []) as Hwrapper.
  { intros a Ha. unfold entry in *. case_bool_decide; simpl in *; [| lia].
    rewrite length_app, length_insert in Ha. simpl in Ha. split; [lia | done]. }
  set (this' := (entry this n0 st).1.1) in *.
  set (nd := (entry this n0 st).1.2) in *.
  set (st0 := (entry this n0 st).2) in *.
  destruct (place_here_Ok_inv _ _ _ _ _ Hplace) as (e & g & -> & He & Hs).
  assert (gve_at st (Some e) = Some g) as Hg.
  { unfold gve_at. by rewrite <- Hex, He. }
  destruct (Hplain g Hg) as [Hprimal Hexp].
  rewrite (place_here_plain this' e g [] st0 nd Hthis He Hs Hexp) in Hplace.
  injection Hplace as <-.
  set (st' := value_placed this' e g None [] nd st0).
  set (leaf := length (nodes st0)).
  assert (length (nodes st') = S leaf) as Hlen' by apply value_placed_length.
  assert ((length (nodes st) <= leaf)%nat) as Hleaf.
  { unfold leaf. rewrite Hel. case_bool_decide; lia. }
  assert (exprs st' = <[e := GlobalVariable (set_snode (Some leaf) g)]> (exprs st))
    as Hexprs by (simpl; by rewrite Hex).
  assert (gve_at st' (Some e) = Some (set_snode (Some leaf) g)) as Hg'.
  { unfold gve_at. rewrite Hexprs, list_lookup_insert_eq; [done |].
    rewrite <- Hex in *. by eapply lookup_lt_Some. }
  assert (nodes st' !! leaf
          = Some (placed_leaf g e (placing_shared_exp st0) None []
                    (fresh_child nd SNodeType.place st0))) as Hleaf_node.
  { by apply value_placed_new. }
  destruct (placed_leaf_links g e (placing_shared_exp st0) None []
              (fresh_child nd SNodeType.place st0) eq_refl)
    as (Hlt & Hle & _ & _ & _).
  assert (quiet st' leaf ∧ settled st' leaf) as [Hqleaf Hsleaf].
  { split; [by eapply quiet_place |].
    eexists. split; [exact Hleaf_node |]. right. rewrite Hle.
    eexists. split; [exact Hg' |]. left. simpl. by rewrite Hprimal. }
  split.
  - split; [lia |]. split; [| split].
    + intros a x Hx.
      destruct (Hentry_old a x Hn0 Hx) as (x0 & Hx0 & Hev0).
      destruct (value_placed_old this' e g None [] nd st0 a x0 Hthis Hx0)
        as (x' & Hx' & Hev').
      destruct (evolved_trans _ _ _ _ _ _ _ Hev0 Hev') as (Ht & Hexpr & _ & Hd & Hch & _).
      eexists x', _. split; [exact Hx' |]. repeat split; try done.
      rewrite Hlen'. apply Forall_app. split.
      * destruct (decide (a = this ∧ type n0 = SNodeType.root));
          [apply Forall_singleton; lia | constructor].
      * destruct (decide (a = this'));
          [apply Forall_singleton; fold leaf; lia | constructor].
    + intros a Ha. destruct (decide (a = leaf)) as [-> | Hne]; [done |].
      destruct (Hwrapper a) as (-> & Htd & Hchd); [fold leaf; lia |].
      destruct (value_placed_old this' e g None [] nd st0 this' nd Hthis Hthis)
        as (d' & Hd' & Hevd).
      rewrite decide_True in Hevd by done.
      destruct Hevd as (Htd' & _ & _ & _ & Hchd' & _).
      rewrite Hchd in Hchd'. simpl in Hchd'. fold leaf in Hchd'.
      split.
      * eapply quiet_inner; [exact Hd' | congruence | |]; rewrite Hchd';
          by apply Forall_singleton.
      * exists d'. split; [exact Hd' |]. left. congruence.
    + intros e'. rewrite Hexprs. destruct (decide (e' = e)) as [-> | Hne].
      * rewrite list_lookup_insert_eq by (rewrite <- Hex; by eapply lookup_lt_Some).
        rewrite <- Hex, He. simpl. by rewrite Hs.
      * rewrite list_lookup_insert_ne by done. apply expr_kept_refl.
  - eexists. split; [exact Hg' | done].
Qed.

Lemma place_all_extends this gs : ∀ st st',
  for_each gs (λ p, place this p []) st = Ok tt st' →
  Forall (plain st) gs →
  extends st st' ∧ Forall (bound st') gs.
Proof.
  induction gs as [| p gs IH]; intros st st' Hrun Hplain.
  - injection Hrun as <-. split; [apply extends_refl | constructor].
  - apply Forall_cons in Hplain as [Hp Hplain].
    apply bind_Ok_inv in Hrun as ([] & s1 & Hplace & Hrest).
    destruct (place_plain_extends this p st s1 Hplace Hp) as [Hext Hb].
    destruct (IH s1 st' Hrest) as [Hext' Hbs].
    { eapply Forall_impl; [exact Hplain |]. intros q. by apply plain_extends. }
    split; [by eapply extends_trans |].
    constructor; [by eapply bound_extends | done].
Qed.

Lemma collect_grads_Ok_inv cs : ∀ st gs st',
  collect_grads cs st = Ok gs st' →
  st' = st
  ∧ Forall (λ c, settled st c ∨ ∃ p, p ∈ gs ∧ wants st c p) cs
  ∧ Forall (λ p, ∃ c, wants st c p) gs.
Proof.
  induction cs as [| c cs IH]; intros st gs st' Hrun.
  - injection Hrun as <- <-. by repeat split.
  - simpl in Hrun.
    apply bind_Ok_inv in Hrun as (o & s1 & Ho & Hrest).
    apply grad_to_place_Ok_inv in Ho as [-> Ho].
    apply bind_Ok_inv in Hrest as (rest & s2 & Hcs & Hrest).
    apply IH in Hcs as (-> & Hall & Hgs). injection Hrest as <- <-.
    split; [done |]. destruct o as [p |]; split.
    + constructor.
      * right. exists p. split; [by left | done].
      * eapply Forall_impl; [exact Hall |]. intros c' [Hs | (q & Hq & Hw)]; [by left |].
        right. exists q. split; [by right | done].
    + constructor; [by exists c | done].
    + constructor; [by left | done].
    + done.
Qed.

Lemma collect_grads_settled cs st :
  Forall (settled st) cs → collect_grads cs st = Ok [] st.
Proof.
  induction 1 as [| c cs Hc _ IH]; [done |]. simpl.
  erewrite bind_Ok by (by apply settled_grad_to_place).
  by erewrite bind_Ok by exact IH.
Qed.

Lemma for_each_unchanged {A} (l : list A) (body : A → M unit) st :
  Forall (λ x, body x st = Ok tt st) l → for_each l body st = Ok tt st.
Proof.
  induction 1 as [| x l Hx _ IH]; [done |]. simpl. by erewrite bind_Ok by exact Hx.
Qed.

Lemma wants_plain st c p : adjoints_plain st → wants st c p → plain st p.
Proof.
  intros Hplain (cn & g & _ & _ & Hg & _ & ->).
  unfold gve_at in Hg. destruct (expr cn) as [e |]; [| done].
  destruct (exprs st !! e) as [[g0 |] |] eqn:He; [| done ..].
  injection Hg as ->. by eapply Hplain.
Qed.

(** A first invocation that returns leaves the subtree quiet. *)
Lemma lazy_grad_quiet fuel : ∀ this st st',
  lazy_grad fuel this st = Ok tt st' →
  adjoints_plain st →
  extends st st' ∧ quiet st' this.
Proof.
  induction fuel as [| fuel IH]; intros this st st' Hrun Hplain; [done |].
  simpl in Hrun.
  apply bind_Ok_inv in Hrun as (nd & s0 & [-> Hnd]%deref_Ok_inv & Hrun).
  case_bool_decide as Hty.
  { injection Hrun as <-. split; [apply extends_refl | by eapply quiet_place]. }
  apply bind_Ok_inv in Hrun as ([] & s1 & Hloop & Hrun).
  assert (∀ cs s s', for_each cs (lazy_grad fuel) s = Ok tt s' → adjoints_plain s →
            extends s s' ∧ Forall (quiet s') cs) as Hchildren.
  { induction cs as [| c cs IHcs]; intros s s' Hcs Hs.
    - injection Hcs as <-. split; [apply extends_refl | constructor].
    - apply bind_Ok_inv in Hcs as ([] & s2 & Hc & Hcs).
      destruct (IH c s s2 Hc Hs) as [Hext Hq].
      destruct (IHcs s2 s' Hcs) as [Hext' Hqs]; [by eapply adjoints_plain_extends |].
      split; [by eapply extends_trans |].
      constructor; [by eapply quiet_extends | done]. }
  destruct (Hchildren _ _ _ Hloop Hplain) as [Hext1 Hq1].
  assert (adjoints_plain s1) as Hplain1 by (by eapply adjoints_plain_extends).
  apply bind_Ok_inv in Hrun as (nd1 & s1' & [-> Hnd1]%deref_Ok_inv & Hrun).
  apply bind_Ok_inv in Hrun as (gs & s1' & Hcollect & Hplace).
  apply collect_grads_Ok_inv in Hcollect as (-> & Hscan & Hgs).
  destruct (place_all_extends this gs s1 st' Hplace) as [Hext2 Hbound].
  { eapply Forall_impl; [exact Hgs |]. intros p [c Hw]. by eapply wants_plain. }
  split; [by eapply extends_trans |].
  pose proof Hext1 as (_ & Hold1 & Hnew1 & _).
  pose proof Hext2 as (_ & Hold2 & Hnew2 & _).
  destruct (Hold1 this nd Hnd) as (nd1' & cs1 & Hnd1' & Ht1 & _ & _ & Hch1 & Hcs1).
  rewrite Hnd1 in Hnd1'. injection Hnd1' as <-.
  destruct (Hold2 this nd1 Hnd1) as (nd2 & cs2 & Hnd2 & Ht2 & _ & _ & Hch2 & Hcs2).
  assert (Forall (quiet s1) (ch nd1)) as Hq1'.
  { rewrite Hch1. apply Forall_app. split; [done |].
    eapply Forall_impl; [exact Hcs1 |]. intros c Hc. by apply Hnew1. }
  eapply quiet_inner; [exact Hnd2 | congruence | |]; rewrite Hch2, Forall_app; split.
  - eapply Forall_impl; [exact Hq1' |]. intros c. by apply quiet_extends.
  - eapply Forall_impl; [exact Hcs2 |]. intros c Hc. by apply Hnew2.
  - eapply Forall_impl; [exact Hscan |]. intros c [Hs | (p & Hp & Hw)].
    + by eapply settled_extends.
    + eapply wants_extends_bound; [done | done |].
      rewrite Forall_forall in Hbound. by apply Hbound.
  - eapply Forall_impl; [exact Hcs2 |]. intros c Hc. by apply Hnew2.
Qed.

Lemma Forall_exists_bound {A} (P : A → nat → Prop) (l : list A) :
  (∀ x h h', P x h → (h <= h')%nat → P x h') →
  Forall (λ x, ∃ h, P x h) l → ∃ h, Forall (λ x, P x h) l.
Proof.
  intros Hmono. induction 1 as [| x l [h Hx] _ [h' IH]]; [by exists 0%nat |].
  exists (h `max` h')%nat. constructor.
  - eapply Hmono; [exact Hx | lia].
  - eapply Forall_impl; [exact IH |]. intros y Hy. eapply Hmono; [exact Hy | lia].
Qed.

(** On a quiet subtree [lazy_grad], given enough fuel, returns and changes
    nothing. *)
Lemma quiet_lazy_grad st this :
  quiet st this → ∃ h, ∀ fuel, (h <= fuel)%nat → lazy_grad fuel this st = Ok tt st.
Proof.
  revert this. apply quiet_induction; [intros x nd Hnd Ht | intros x nd Hnd Ht _ IH Hs].
  - exists 1%nat. intros [| fuel] Hf; [lia |]. simpl.
    erewrite bind_Ok by (by apply deref_Ok). by rewrite bool_decide_eq_true_2.
  - apply (Forall_exists_bound
             (λ c h, ∀ fuel, (h <= fuel)%nat → lazy_grad fuel c st = Ok tt st)) in IH
      as [h IH].
    2:{ intros c h1 h2 Hc Hle fuel Hf. apply Hc. lia. }
    exists (S h). intros [| fuel] Hf; [lia |]. simpl.
    erewrite bind_Ok by (by apply deref_Ok). rewrite bool_decide_eq_false_2 by done.
    erewrite bind_Ok.
    2:{ apply for_each_unchanged. eapply Forall_impl; [exact IH |].
        intros c Hc. apply Hc. lia. }
    erewrite bind_Ok by (by apply deref_Ok).
    by erewrite bind_Ok by (by apply collect_grads_settled).
Qed.

(** C3, amended: when every adjoint field is itself not primal and has no
    exponent component, and a first [lazy_grad] on a node returns, then every
    place leaf under the visited nodes is settled (it is not primal, or needs
    no gradient, or satisfies [has_grad]), and a second [lazy_grad] on that
    node, given enough fuel, returns as well and leaves the state as it is:
    no gradient leaf is added. *)
Theorem lazy_grad_idempotent fuel this st st' :
  adjoints_plain st →
  lazy_grad fuel this st = Ok tt st' →
  quiet st' this
  ∧ ∃ h, ∀ fuel', (h <= fuel')%nat → lazy_grad fuel' this st' = Ok tt st'.
Proof.
  intros Hplain Hrun.
  destruct (lazy_grad_quiet fuel this st st' Hrun Hplain) as [_ Hq].
  split; [exact Hq | by apply quiet_lazy_grad].
Qed.
End Gradient.

(** ** Invariants of every build *)

(** One step of a proof that a computation keeps an invariant, by the shape of
    the computation. *)
Ltac keeps_step :=
  lazymatch goal with
  | |- preserves _ (bind _ _) => apply preserves_bind; [| intros ?]
  | |- preserves _ (ret _) => apply preserves_ret
  | |- preserves _ (fatal _) => apply preserves_fatal
  | |- preserves _ undefined => apply preserves_undefined
  | |- preserves _ (TI_ASSERT _ _) => apply preserves_TI_ASSERT
  | |- preserves _ (when _ _) => apply preserves_when
  | |- preserves _ get_state => apply preserves_get_state
  | |- preserves _ (deref _) => apply preserves_deref
  | |- preserves _ (deref_gve _) => apply preserves_deref_gve
  | |- preserves _ (for_each _ _) => apply preserves_for_each; intros ?
  | |- preserves _ (match ?x with _ => _ end) => destruct x
  end.

Section Keeping.
Context `{Declarations}.

(** Everything the builder does goes through a field update that leaves the
    outline alone, a binding of a field, [insert_children], or one of the
    three functions that touch the session. *)
Section Keeps.
Variable I : State → Prop.
Hypothesis I_modify :
  ∀ p f, (∀ nd, outline (f nd) = outline nd) → preserves I (modify p f).
Hypothesis I_modify_gve : ∀ a f, preserves I (modify_gve a f).
Hypothesis I_insert_children : ∀ this t, preserves I (insert_children this t).
Hypothesis I_place_exponent : ∀ this g exp, preserves I (place_exponent this g exp).
Hypothesis I_begin : preserves I begin_shared_exp_placement.
Hypothesis I_end : preserves I end_shared_exp_placement.

Lemma keeps_set_index_offsets this offsets : preserves I (set_index_offsets this offsets).
Proof. unfold set_index_offsets. repeat keeps_step. by apply I_modify. Qed.

Lemma keeps_create_node this indices sizes t :
  preserves I (create_node this indices sizes t).
Proof.
  unfold create_node. repeat keeps_step; try apply I_insert_children.
  - by apply I_modify.
  - unfold accumulate_size. repeat keeps_step. by apply I_modify.
  - unfold activate_axis. repeat keeps_step. by apply I_modify.
Qed.

Lemma keeps_place_value this e g new_exp_snode offset :
  preserves I (place_value this e g new_exp_snode offset).
Proof.
  unfold place_value.
  repeat keeps_step;
    solve [apply I_insert_children | apply I_modify_gve | by apply I_modify
          | apply keeps_set_index_offsets].
Qed.

Lemma keeps_place this expr_ offset : preserves I (place this expr_ offset).
Proof.
  unfold place, dense, place_here.
  repeat keeps_step;
    solve [apply keeps_create_node | apply keeps_place_value | apply I_place_exponent].
Qed.

Lemma keeps_collect_grads cs : preserves I (collect_grads cs).
Proof.
  induction cs as [| c cs IH]; [apply preserves_ret |]. simpl.
  apply preserves_bind; [| intros o; repeat keeps_step; apply IH].
  unfold grad_to_place, has_grad, is_primal. repeat keeps_step.
Qed.

Lemma keeps_lazy_grad fuel : ∀ this, preserves I (lazy_grad fuel this).
Proof.
  induction fuel as [| fuel IH]; intros this; [by intros st Hst |]. simpl.
  repeat keeps_step; solve [apply IH | apply keeps_collect_grads | apply keeps_place].
Qed.

Lemma keeps_run c : preserves I (run c).
Proof.
  destruct c; simpl; [| | unfold dynamic | unfold bit_struct | unfold bit_array | | | |];
    repeat keeps_step;
    solve [apply I_insert_children | apply keeps_create_node | by apply I_modify
          | apply keeps_place | apply keeps_lazy_grad | apply I_begin | apply I_end].
Qed.

Lemma built_keeps st :
  I initial_state → (∀ st l, I st → I (set_exprs l st)) → built st → I st.
Proof.
  intros Hinit Hdecl.
  induction 1 as [| st l _ IH | st c st' _ IH Hrun | st c msg st' _ IH Hrun].
  - exact Hinit.
  - by apply Hdecl.
  - pose proof (keeps_run c st IH) as Hc. by rewrite Hrun in Hc.
  - pose proof (keeps_run c st IH) as Hc. by rewrite Hrun in Hc.
Qed.
End Keeps.

Lemma structural_modify I p f :
  structural I → (∀ nd, outline (f nd) = outline nd) → preserves I (modify p f).
Proof.
  intros HI Hf. apply hoare_modify. intros st nd Hst Hnd.
  eapply HI; [| | exact Hst]; [| done]. simpl.
  rewrite list_fmap_insert, Hf. apply list_insert_id.
  by rewrite list_lookup_fmap, Hnd.
Qed.

Lemma structural_modify_gve I a f : structural I → preserves I (modify_gve a f).
Proof.
  intros HI. apply hoare_modify_gve. intros st g Hst _. by eapply HI; [| | exact Hst].
Qed.

Lemma structural_set_session I (b : State → bool) (e : State → option addr)
    (d : State → option DataType) :
  structural I → preserves I (λ s, Ok tt (set_session (b s) (e s) (d s) s)).
Proof. intros HI st Hst. simpl. by eapply HI; [| | exact Hst]. Qed.

Lemma structural_place_exponent I this g exp :
  structural I → (∀ this t, preserves I (insert_children this t)) →
  preserves I (place_exponent this g exp).
Proof.
  intros HI Hins. unfold place_exponent.
  repeat keeps_step;
    solve [apply Hins | by apply structural_modify
          | by apply (structural_set_session I placing_shared_exp (λ _, Some _)
                        (λ _, Some exp))].
Qed.

Lemma structural_begin I : structural I → preserves I begin_shared_exp_placement.
Proof.
  intros HI. unfold begin_shared_exp_placement. repeat keeps_step.
  by apply (structural_set_session I (λ _, true) currently_placing_exp_snode
              currently_placing_exp_snode_dtype).
Qed.

Lemma structural_end I : structural I → preserves I end_shared_exp_placement.
Proof.
  intros HI. unfold end_shared_exp_placement. repeat keeps_step.
  by apply (structural_set_session I (λ _, false) (λ _, None)
              currently_placing_exp_snode_dtype).
Qed.

(** A structural invariant of the lone root that [insert_children] keeps
    holds in every state of a build. *)
Lemma built_structural I st :
  structural I → I initial_state →
  (∀ this t nd st, I st → nodes st !! this = Some nd → t ≠ SNodeType.root →
     I (inserted this t nd st)) →
  built st → I st.
Proof.
  intros HI Hinit Hins.
  assert (∀ this t, preserves I (insert_children this t)) as Hins'.
  { intros this t s Hs. destruct (decide (t = SNodeType.root)) as [-> | Ht]; [done |].
    destruct (nodes s !! this) as [nd |] eqn:Hnd.
    - rewrite (insert_children_Ok this t s nd) by done. by apply Hins.
    - unfold insert_children. rewrite bool_decide_eq_false_2 by done.
      simpl. unfold bind, deref. simpl. by rewrite Hnd. }
  apply built_keeps.
  - intros p f. by apply structural_modify.
  - intros a f. by apply structural_modify_gve.
  - exact Hins'.
  - intros this' g exp. by apply structural_place_exponent.
  - by apply structural_begin.
  - by apply structural_end.
  - exact Hinit.
  - intros s l Hs. by eapply HI; [| | exact Hs].
Qed.

Lemma outline_lookup st st' a nd :
  outline <$> nodes st' = outline <$> nodes st →
  nodes st' !! a = Some nd →
  ∃ nd', nodes st !! a = Some nd' ∧ outline nd' = outline nd.
Proof.
  intros Heq Hnd.
  assert (outline <$> (nodes st' !! a) = outline <$> (nodes st !! a)) as Ha
    by (by rewrite <- !list_lookup_fmap, Heq).
  rewrite Hnd in Ha. destruct (nodes st !! a) as [nd' |]; [| done].
  exists nd'. split; [done |]. simpl in Ha. congruence.
Qed.

Lemma outline_length st st' :
  outline <$> nodes st' = outline <$> nodes st → length (nodes st') = length (nodes st).
Proof. intros Heq. by rewrite <- (length_fmap outline), Heq, length_fmap. Qed.

(** A node that was there before [insert_children] keeps its outline but for
    the child that the caller gains. *)
Lemma inserted_old this t nd st a x :
  nodes st !! this = Some nd → nodes st !! a = Some x →
  ∃ x', nodes (inserted this t nd st) !! a = Some x'
        ∧ id x' = id x ∧ depth x' = depth x ∧ type x' = type x
        ∧ parent x' = parent x
        ∧ physical_index_position x' = physical_index_position x
        ∧ num_active_indices x' = num_active_indices x
        ∧ total_num_bits x' = total_num_bits x ∧ total_bit_start x' = total_bit_start x
        ∧ ch x' = ch x ++ (if decide (a = this) then [length (nodes st)] else []).
Proof.
  intros Hnd Hx. rewrite lookup_inserted_old by (done || by eapply lookup_lt_Some).
  case_decide; simplify_eq; eexists; (split; [done |]); simpl;
    by rewrite ?app_nil_r.
Qed.

Lemma inserted_length this t nd st :
  length (nodes (inserted this t nd st)) = S (length (nodes st)).
Proof. simpl. rewrite length_app, length_insert. simpl. lia. Qed.

Lemma ids_in_order_built st : built st → ids_in_order st.
Proof.
  apply built_structural.
  - intros s s' Heq Hc [Hcount Hid]. split.
    + by rewrite Hc, (outline_length s s').
    + intros a nd Hnd. destruct (outline_lookup s s' a nd Heq Hnd) as (nd' & Hnd' & Ho).
      injection Ho as <- _ _ _ _ _ _ _ _. by apply Hid.
  - split; [done |]. intros [| a] nd Hnd; [by simplify_eq/= | done].
  - intros this t nd s [Hcount Hid] Hnd Ht. split.
    + rewrite inserted_length. simpl. rewrite Hcount. unfold int32.
      rewrite wrap_add_idemp. f_equal. lia.
    + intros a x Hx.
      destruct (lookup_inserted_inv _ _ _ _ _ _ Hnd Hx) as [[-> ->] | [[-> ->] | [_ Hold]]].
      * done.
      * simpl. by apply Hid.
      * by apply Hid.
Qed.

Lemma single_root_built st : built st → single_root st.
Proof.
  apply built_structural.
  - intros s s' Heq _ [(r & Hr & Hrt) Hone].
    assert (outline <$> nodes s = outline <$> nodes s') as Heq' by done. split.
    + destruct (outline_lookup s' s 0%nat r Heq' Hr) as (r' & Hr' & Ho).
      exists r'. split; [done |]. injection Ho as _ _ -> _ _ _ _ _ _. done.
    + intros a nd Hnd Hroot.
      destruct (outline_lookup s s' a nd Heq Hnd) as (nd' & Hnd' & Ho).
      apply (Hone a nd'); [done |]. injection Ho as _ _ -> _ _ _ _ _ _. done.
  - split; [by eexists |]. intros [| a] nd Hnd _; [done | done].
  - intros this t nd s [(r & Hr & Hrt) Hone] Hnd Ht. split.
    + destruct (inserted_old this t nd s 0%nat r Hnd Hr) as (r' & Hr' & _ & _ & Ht' & _).
      exists r'. split; [done |]. by rewrite Ht'.
    + intros a x Hx Hroot.
      destruct (lookup_inserted_inv _ _ _ _ _ _ Hnd Hx) as [[-> ->] | [[-> ->] | [_ Hold]]].
      * done.
      * by apply (Hone this nd).
      * by apply (Hone a x).
Qed.

Lemma uncompiled_built st : built st → uncompiled st.
Proof.
  apply built_structural.
  - intros s s' Heq _ Hu a nd Hnd.
    destruct (outline_lookup s s' a nd Heq Hnd) as (nd' & Hnd' & Ho).
    injection Ho as _ _ _ _ <- <- <- <- <-. by apply (Hu a).
  - intros [| a] nd Hnd; [by simplify_eq/= | done].
  - intros this t nd s Hu Hnd Ht a x Hx.
    destruct (lookup_inserted_inv _ _ _ _ _ _ Hnd Hx) as [[-> ->] | [[-> ->] | [_ Hold]]].
    + done.
    + exact (Hu this nd Hnd).
    + by apply (Hu a).
Qed.

Lemma tree_shaped_structural : structural tree_shaped.
Proof.
  intros s s' Heq _ (Hroot & Hedge & Hpar & Huniq & Hnodup).
  assert (outline <$> nodes s = outline <$> nodes s') as Heq' by done.
  assert (∀ a nd, nodes s' !! a = Some nd →
            ∃ nd', nodes s !! a = Some nd' ∧ depth nd' = depth nd ∧ ch nd' = ch nd)
    as Hback.
  { intros a nd Hnd. destruct (outline_lookup s s' a nd Heq Hnd) as (nd' & Hnd' & Ho).
    exists nd'. split; [done |]. by injection Ho as _ -> _ -> _ _ _ _ _. }
  assert (∀ a nd, nodes s !! a = Some nd →
            ∃ nd', nodes s' !! a = Some nd' ∧ depth nd' = depth nd ∧ ch nd' = ch nd)
    as Hforth.
  { intros a nd Hnd. destruct (outline_lookup s' s a nd Heq' Hnd) as (nd' & Hnd' & Ho).
    exists nd'. split; [done |]. by injection Ho as _ -> _ -> _ _ _ _ _. }
  split; [| split; [| split; [| split]]].
  - destruct Hroot as (r & Hr & Hd). destruct (Hforth _ _ Hr) as (r' & Hr' & Hd' & _).
    exists r'. split; [done | congruence].
  - intros p nd c Hp Hc.
    destruct (Hback _ _ Hp) as (nd' & Hnd' & Hd & Hch). rewrite <- Hch in Hc.
    destruct (Hedge _ _ _ Hnd' Hc) as (Hlt & cn & Hcn & Hdc). split; [done |].
    destruct (Hforth _ _ Hcn) as (cn' & Hcn' & Hd' & _).
    exists cn'. split; [done | congruence].
  - intros c Hc. rewrite (outline_length s s' Heq) in Hc.
    destruct (Hpar c Hc) as (p & nd & Hp & Hin).
    destruct (Hforth _ _ Hp) as (nd' & Hnd' & _ & Hch).
    exists p, nd'. split; [done | by rewrite Hch].
  - intros p q pn qn c Hp Hq Hcp Hcq.
    destruct (Hback _ _ Hp) as (pn' & Hp' & _ & Hchp).
    destruct (Hback _ _ Hq) as (qn' & Hq' & _ & Hchq).
    rewrite <- Hchp in Hcp. rewrite <- Hchq in Hcq. by apply (Huniq p q pn' qn' c).
  - intros p nd Hp. destruct (Hback _ _ Hp) as (nd' & Hp' & _ & Hch).
    rewrite <- Hch. by apply (Hnodup p).
Qed.

Lemma tree_shaped_inserted this t nd st :
  tree_shaped st → nodes st !! this = Some nd → tree_shaped (inserted this t nd st).
Proof.
  intros (Hroot & Hedge & Hpar & Huniq & Hnodup) Hnd.
  pose proof (lookup_lt_Some _ _ _ Hnd) as Hthis.
  assert (∀ p x c, nodes st !! p = Some x → c ∈ ch x → (c < length (nodes st))%nat)
    as Hbelow.
  { intros p x c Hp Hc. destruct (Hedge _ _ _ Hp Hc) as (_ & cn & Hcn & _).
    by eapply lookup_lt_Some. }
  (* the children of a node after the insertion *)
  assert (∀ p x' c, nodes (inserted this t nd st) !! p = Some x' → c ∈ ch x' →
            (c = length (nodes st) ∧ p = this ∧ depth x' = depth nd)
            ∨ (c ≠ length (nodes st)
               ∧ ∃ x, nodes st !! p = Some x ∧ c ∈ ch x ∧ depth x' = depth x))
    as Hch.
  { intros p x' c Hp Hc.
    destruct (lookup_inserted_inv _ _ _ _ _ _ Hnd Hp) as [[-> ->] | [[-> ->] | [_ Hold]]].
    - by apply elem_of_nil in Hc.
    - simpl in Hc. apply elem_of_app in Hc as [Hc | Hc].
      + right. split; [specialize (Hbelow _ _ _ Hnd Hc); lia |]. by exists nd.
      + apply list_elem_of_singleton in Hc as ->. by left.
    - right. split; [specialize (Hbelow _ _ _ Hold Hc); lia |]. by exists x'. }
  split; [| split; [| split; [| split]]].
  - destruct Hroot as (r & Hr & Hd).
    destruct (inserted_old this t nd st 0%nat r Hnd Hr) as (r' & Hr' & _ & Hd' & _).
    exists r'. split; [done | congruence].
  - intros p x' c Hp Hc.
    destruct (Hch _ _ _ Hp Hc) as [(-> & -> & Hd) | (Hne & x & Hx & Hin & Hd)].
    + split; [done |]. exists (fresh_child nd t st).
      split; [by apply lookup_inserted_new |]. simpl. by rewrite Hd.
    + destruct (Hedge _ _ _ Hx Hin) as (Hlt & cn & Hcn & Hdc). split; [done |].
      destruct (inserted_old this t nd st c cn Hnd Hcn) as (cn' & Hcn' & _ & Hd' & _).
      exists cn'. split; [done | congruence].
  - intros c Hc. rewrite inserted_length in Hc.
    destruct (decide (c = length (nodes st))) as [-> | Hne].
    + exists this, (with_ch (ch nd ++ [length (nodes st)]) nd). split.
      * rewrite lookup_inserted_old by done. by rewrite decide_True.
      * simpl. apply elem_of_app. right. by apply list_elem_of_singleton.
    + destruct (Hpar c) as (p & x & Hp & Hin); [lia |].
      destruct (inserted_old this t nd st p x Hnd Hp) as (x' & Hx' & Hrest).
      exists p, x'. split; [done |].
      destruct Hrest as (_ & _ & _ & _ & _ & _ & _ & _ & ->).
      apply elem_of_app. by left.
  - intros p q pn qn c Hp Hq Hcp Hcq.
    destruct (Hch _ _ _ Hp Hcp) as [(-> & -> & _) | (Hne & x & Hx & Hin & _)];
      destruct (Hch _ _ _ Hq Hcq) as [(Hc & -> & _) | (Hne' & y & Hy & Hin' & _)];
      try done.
    by apply (Huniq p q x y c).
  - intros p x' Hp.
    destruct (lookup_inserted_inv _ _ _ _ _ _ Hnd Hp) as [[-> ->] | [[-> ->] | [_ Hold]]].
    + apply NoDup_nil_2.
    + simpl. apply NoDup_app. split; [by apply (Hnodup this) |]. split.
      * intros c Hc Hc'. apply list_elem_of_singleton in Hc' as ->.
        specialize (Hbelow _ _ _ Hnd Hc). lia.
      * apply NoDup_singleton.
    + by apply (Hnodup p).
Qed.

Lemma tree_shaped_built st : built st → tree_shaped st.
Proof.
  apply built_structural.
  - apply tree_shaped_structural.
  - split; [by eexists |]. split; [| split; [| split]].
    + intros [| p] nd c Hp Hc; [| done]. simplify_eq/=. by apply elem_of_nil in Hc.
    + simpl. lia.
    + intros [| p] q pn qn c Hp _ Hc; [| done]. simplify_eq/=. by apply elem_of_nil in Hc.
    + intros [| p] nd Hp; [| done]. simplify_eq/=. apply NoDup_nil_2.
  - intros this t nd s Hs Hnd _. by apply tree_shaped_inserted.
Qed.

(** Every node of a tree is reached from address 0. *)
Lemma tree_shaped_path st :
  tree_shaped st → ∀ a, (a < length (nodes st))%nat → ∃ l, tree_path st a l.
Proof.
  intros (_ & Hedge & Hpar & _) a. induction (lt_wf a) as [a _ IH]. intros Ha.
  destruct (decide (a = 0%nat)) as [-> | Hne]; [exists [0%nat]; constructor |].
  destruct (Hpar a) as (p & nd & Hp & Hin); [lia |].
  destruct (Hedge _ _ _ Hp Hin) as (Hlt & _).
  destruct (IH p Hlt) as (l & Hl); [by eapply lookup_lt_Some |].
  exists (l ++ [a]). by apply (tree_path_child st p l nd a).
Qed.

(** ... and by one path only. *)
Lemma tree_shaped_path_unique st a l :
  tree_shaped st → tree_path st a l → ∀ l', tree_path st a l' → l' = l.
Proof.
  intros (_ & Hedge & _ & Huniq & _).
  induction 1 as [| p l nd c Hpath IH Hp Hc]; intros l' Hl'.
  - inversion Hl' as [| p' l0 nd' c' _ Hp' Hc']; [done |]. subst.
    destruct (Hedge _ _ _ Hp' Hc') as (Hlt & _). lia.
  - inversion Hl' as [| p' l0 nd' c' Hpath' Hp' Hc']; subst.
    + destruct (Hedge _ _ _ Hp Hc) as (Hlt & _). lia.
    + assert (p' = p) as -> by (by apply (Huniq p' p nd' nd c)).
      by rewrite (IH l0 Hpath').
Qed.

Lemma tree_shaped_depth st a l :
  tree_shaped st → tree_path st a l →
  ∃ nd, nodes st !! a = Some nd ∧ depth nd = int32 (Z.of_nat (length l) - 1).
Proof.
  intros ((r & Hr & Hd) & Hedge & _).
  induction 1 as [| p l nd c Hpath IH Hp Hc].
  - exists r. split; [done |]. rewrite Hd. done.
  - destruct IH as (nd' & Hp' & IH). simplify_eq.
    destruct (Hedge _ _ _ Hp Hc) as (_ & cn & Hcn & Hdc).
    exists cn. split; [done |]. rewrite Hdc, IH. unfold int32.
    rewrite wrap_add_idemp, length_app. simpl. f_equal. lia.
Qed.

Lemma insert_children_missing this t st :
  nodes st !! this = None → t ≠ SNodeType.root → insert_children this t st = Undefined.
Proof.
  intros Hnd Ht. unfold insert_children. rewrite bool_decide_eq_false_2 by done.
  simpl. unfold bind, deref. simpl. by rewrite Hnd.
Qed.

Lemma session_consistent_built st : built st → session_consistent st.
Proof.
  apply built_keeps.
  - intros p f Hf. apply hoare_modify. intros s nd Hs Hnd e He.
    destruct (Hs e He) as (Hopen & Hdt & x & Hx & Hplace).
    split; [done |]. split; [done |]. simpl.
    destruct (decide (e = p)) as [-> | Hne].
    + exists (f nd). split; [apply list_lookup_insert_eq; by eapply lookup_lt_Some |].
      simplify_eq. specialize (Hf nd). by injection Hf as _ _ -> _ _ _ _ _ _.
    + exists x. split; [by rewrite list_lookup_insert_ne | done].
  - intros a f. apply hoare_modify_gve. intros s g Hs _. exact Hs.
  - intros this t s Hs. destruct (decide (t = SNodeType.root)) as [-> | Ht]; [done |].
    destruct (nodes s !! this) as [nd |] eqn:Hnd.
    2:{ by rewrite insert_children_missing. }
    rewrite (insert_children_Ok this t s nd) by done. intros e He.
    destruct (Hs e He) as (Hopen & Hdt & x & Hx & Hplace).
    split; [done |]. split; [done |].
    destruct (inserted_old this t nd s e x Hnd Hx) as (x' & Hx' & _ & _ & Ht' & _).
    exists x'. split; [done | congruence].
  - intros this g exp s Hs.
    destruct (placing_shared_exp s) eqn:Hopen;
      destruct (currently_placing_exp_snode s) as [cur |] eqn:Hcur.
    + unfold place_exponent, bind, get_state. rewrite Hopen, Hcur.
      by destruct (bool_decide _).
    + destruct (nodes s !! this) as [nd |] eqn:Hnd.
      * rewrite (place_exponent_fresh this g exp s nd) by auto.
        intros e He. simpl in *. rewrite Hopen in *. simplify_eq.
        split; [done |]. split; [by eexists |]. eexists.
        split; [by apply (exponent_placed_new this g exp nd s) | done].
      * unfold place_exponent, bind, get_state. rewrite Hopen, ?Hcur.
        by rewrite insert_children_missing.
    + destruct (Hs cur Hcur) as (Hopen' & _). congruence.
    + destruct (nodes s !! this) as [nd |] eqn:Hnd.
      * rewrite (place_exponent_fresh this g exp s nd) by auto.
        intros e He. simpl in *. rewrite Hopen in *. congruence.
      * unfold place_exponent, bind, get_state. rewrite Hopen, ?Hcur.
        by rewrite insert_children_missing.
  - intros s Hs. unfold begin_shared_exp_placement, bind, get_state.
    destruct (placing_shared_exp s) eqn:Hopen; [done |]. simpl.
    destruct (currently_placing_exp_snode s) as [cur |] eqn:Hcur; [done |]. simpl.
    intros e He. simpl in He. congruence.
  - intros s Hs. unfold end_shared_exp_placement, bind, get_state.
    destruct (placing_shared_exp s) eqn:Hopen; [| done]. simpl.
    destruct (currently_placing_exp_snode s) as [cur |] eqn:Hcur; [| done]. simpl.
    intros e He. done.
  - intros e He. done.
  - intros s l Hs. exact Hs.
Qed.

End Keeping.

(** ** What holds in every state of a build *)

Section Builds.
Context `{Declarations}.

(** X1: [insert_children] refuses kind root and leaves the state as it is, so
    no call of [create_node] of kind root returns; in every state of a build
    the node at address 0 is the root and no other node is of kind root. *)
Theorem root_is_unique st :
  built st →
  (∃ r, nodes st !! 0%nat = Some r ∧ type r = SNodeType.root)
  ∧ (∀ a nd, nodes st !! a = Some nd → type nd = SNodeType.root → a = 0%nat)
  ∧ (∀ this, insert_children this SNodeType.root st = Fatal "t != SNodeType::root" st)
  ∧ (∀ this indices sizes a st',
       create_node this indices sizes SNodeType.root st ≠ Ok a st').
Proof.
  intros Hb. destruct (single_root_built st Hb) as [Hroot Hone].
  split; [exact Hroot |]. split; [exact Hone |]. split; [done |].
  intros this indices sizes a st'. unfold create_node, bind.
  destruct (TI_ASSERT _ _ st) as [[] s | | |] eqn:Hassert; [| done ..].
  apply TI_ASSERT_Ok_inv in Hassert as [-> _].
  unfold deref. destruct (nodes st !! this) as [nd |]; [| done]. simpl. done.
Qed.

(** X2: in every state of a build the id of a node is its rank in the order
    of creation (as an int), and the static counter is the number of nodes
    made; with fewer than 2^31 nodes, no two nodes share an id. *)
Theorem ids_follow_creation st :
  built st →
  counter st = int32 (Z.of_nat (length (nodes st)))
  ∧ (∀ a nd, nodes st !! a = Some nd → id nd = int32 (Z.of_nat a))
  ∧ (Z.of_nat (length (nodes st)) < 2 ^ 31 →
     ∀ a b x y, nodes st !! a = Some x → nodes st !! b = Some y →
       id x = id y → a = b).
Proof.
  intros Hb. destruct (ids_in_order_built st Hb) as [Hcount Hid].
  split; [exact Hcount |]. split; [exact Hid |].
  intros Hlen a b x y Ha Hb' Heq.
  rewrite (Hid a x Ha), (Hid b y Hb') in Heq.
  apply lookup_lt_Some in Ha, Hb'.
  rewrite !int32_small in Heq by (unfold is_int; lia). lia.
Qed.

(** X3: in every state of a build with fewer than 2^31 nodes, the type name
    of a node is the letter S and its rank in the order of creation, and no
    two nodes have the same type name. *)
Theorem node_type_names_distinct st :
  built st → Z.of_nat (length (nodes st)) < 2 ^ 31 →
  (∀ a nd, nodes st !! a = Some nd → get_node_type_name nd = "S" +:+ pretty (Z.of_nat a))
  ∧ (∀ a b x y, nodes st !! a = Some x → nodes st !! b = Some y →
       get_node_type_name x = get_node_type_name y → a = b).
Proof.
  intros Hb Hlen. destruct (ids_in_order_built st Hb) as [_ Hid].
  assert (∀ a nd, nodes st !! a = Some nd → id nd = Z.of_nat a) as Hid'.
  { intros a nd Hnd. rewrite (Hid a nd Hnd). apply int32_small.
    apply lookup_lt_Some in Hnd. unfold is_int. lia. }
  split.
  - intros a nd Hnd. unfold get_node_type_name. by rewrite (Hid' a nd Hnd).
  - intros a b x y Ha Hb' Heq. unfold get_node_type_name in Heq.
    rewrite (Hid' a x Ha), (Hid' b y Hb') in Heq.
    apply (inj (String.app "S")), (inj pretty) in Heq. lia.
Qed.

(** X4: in every state of a build every node is reached from the root along
    [ch], by exactly one path. *)
Theorem every_node_on_one_path st a :
  built st → (a < length (nodes st))%nat →
  ∃ l, tree_path st a l ∧ ∀ l', tree_path st a l' → l' = l.
Proof.
  intros Hb Ha. pose proof (tree_shaped_built st Hb) as Ht.
  destruct (tree_shaped_path st Ht a Ha) as (l & Hl).
  exists l. split; [exact Hl |]. by apply tree_shaped_path_unique.
Qed.

(** X5: in every state of a build the depth of a node is the number of edges
    of the path from the root to it (as an int), one more than the depth of
    its parent. *)
Theorem depth_is_path_length st a l nd :
  built st → tree_path st a l → nodes st !! a = Some nd →
  depth nd = int32 (Z.of_nat (length l) - 1)
  ∧ (Z.of_nat (length l) <= 2 ^ 31 → depth nd = Z.of_nat (length l) - 1)
  ∧ (∀ c cn, c ∈ ch nd → nodes st !! c = Some cn → depth cn = int32 (depth nd + 1)).
Proof.
  intros Hb Hl Hnd. pose proof (tree_shaped_built st Hb) as Ht.
  destruct (tree_shaped_depth st a l Ht Hl) as (nd' & Hnd' & Hd). simplify_eq.
  split; [exact Hd |]. split.
  - intros Hlen. rewrite Hd. apply int32_small.
    assert (0 < length l)%nat by (inversion Hl; [simpl | rewrite length_app; simpl]; lia).
    unfold is_int. lia.
  - intros c cn Hc Hcn. destruct Ht as (_ & Hedge & _).
    destruct (Hedge a nd c Hnd Hc) as (_ & cn' & Hcn' & Hdc). by simplify_eq.
Qed.

(** X6: nothing in a build sets what structure compilation is to assign:
    every node still has a null parent, the sentinel -1 in every slot of
    [physical_index_position], no active index and no bit layout. *)
Theorem layout_unset_before_compilation st a nd :
  built st → nodes st !! a = Some nd →
  parent nd = None
  ∧ (∀ i, 0 <= i < Z.of_nat taichi_max_num_indices →
       array_get (physical_index_position nd) i = Some (-1))
  ∧ num_active_indices nd = 0
  ∧ total_num_bits nd = 0 ∧ total_bit_start nd = 0.
Proof.
  intros Hb Hnd.
  destruct (uncompiled_built st Hb a nd Hnd) as (Hp & Hpip & Hn & Hbits & Hstart).
  split; [exact Hp |]. split; [| by rewrite Hn, Hbits, Hstart].
  intros i Hi. rewrite Hpip. unfold array_get.
  replace (i <? 0) with false by (symmetry; apply Z.ltb_ge; lia).
  apply lookup_replicate_2. lia.
Qed.

(** X7: the layout queries in a state of a build, where no parent link is
    set: [get_least_sparse_ancestor] returns null on a node whose flag
    [is_path_all_dense] is set and the node itself when it needs activation,
    and stops at its assertion on every other node; [get_num_bits] returns
    the bits of the node's own extractor; [shape_along_axis] is out of bounds
    for every axis; and every place node counts as a scalar. *)
Theorem queries_before_compilation st a nd fuel :
  built st → nodes st !! a = Some nd →
  get_least_sparse_ancestor (S fuel) a st
  = (if is_path_all_dense nd then Ok None st
     else if need_activation nd then Ok (Some a) st else Fatal "result" st)
  ∧ (∀ i e, array_get (extractors nd) i = Some e →
       get_num_bits (S fuel) a i st = Ok (int32 (num_bits e)) st)
  ∧ (∀ i, 0 <= i < Z.of_nat taichi_max_num_indices →
       shape_along_axis a i st = Undefined)
  ∧ is_scalar nd = is_place nd.
Proof.
  intros Hb Hnd.
  destruct (uncompiled_built st Hb a nd Hnd) as (Hp & Hpip & Hactive & _).
  split; [| split; [| split]].
  - unfold get_least_sparse_ancestor. erewrite bind_Ok by (by apply deref_Ok).
    destruct (is_path_all_dense nd); [done |]. simpl.
    erewrite bind_Ok by (by apply deref_Ok).
    destruct (need_activation nd); [done |]. by rewrite Hp.
  - intros i e He. unfold get_num_bits. simpl.
    erewrite bind_Ok by (by apply deref_Ok). rewrite He, Hp. by destruct fuel.
  - intros i Hi. unfold shape_along_axis. erewrite bind_Ok by (by apply deref_Ok).
    rewrite Hpip. unfold array_get at 1.
    replace (i <? 0) with false by (symmetry; apply Z.ltb_ge; lia).
    rewrite lookup_replicate_2 by lia. by rewrite array_get_negative.
  - unfold is_scalar. rewrite Hactive. apply andb_true_r.
Qed.

(** X8: in every state of a build an exponent node of the session exists only
    while a session is open, and it is a place node; so
    [begin_shared_exp_placement] fails exactly when a session is open, and
    its second assertion never does. *)
Theorem session_node_needs_open_session st :
  built st →
  (∀ e, currently_placing_exp_snode st = Some e →
     placing_shared_exp st = true
     ∧ ∃ nd, nodes st !! e = Some nd ∧ type nd = SNodeType.place)
  ∧ begin_shared_exp_placement st
    = (if placing_shared_exp st then Fatal "!placing_shared_exp" st
       else Ok tt (set_session true None (currently_placing_exp_snode_dtype st) st)).
Proof.
  intros Hb. pose proof (session_consistent_built st Hb) as Hs. split.
  - intros e He. destruct (Hs e He) as (Hopen & _ & Hnd). by split.
  - unfold begin_shared_exp_placement, bind, get_state.
    destruct (placing_shared_exp st) eqn:Hopen; [done |]. simpl.
    destruct (currently_placing_exp_snode st) as [e |] eqn:He.
    + destruct (Hs e He) as (Hopen' & _). congruence.
    + simpl. by rewrite He.
Qed.

End Builds.

(** ** Failures and wrappers of node creation *)

Section Builders.
Context `{Declarations}.

Lemma for_each_app {A} (l1 l2 : list A) (body : A → M unit) st :
  for_each (l1 ++ l2) body st = (for_each l1 body >> for_each l2 body) st.
Proof.
  revert st. induction l1 as [| x l1 IH]; intros st; [reflexivity |]. simpl.
  unfold bind. destruct (body x st) as [[] st' | | |]; [| done ..].
  apply IH.
Qed.

(** The first lines of [create_node], up to the assignment [new_node.n = 1]. *)
Lemma create_node_prologue {A} this (indices : list Index) (sizes : list Z) t st nd
    (k : addr → M A) :
  nodes st !! this = Some nd →
  t ≠ SNodeType.root →
  (t = SNodeType.hash → depth nd = 0) →
  length indices = length sizes ∨ length sizes = 1%nat →
  (TI_ASSERT (bool_decide (length indices = length sizes)
              || bool_decide (length sizes = 1%nat))
     "indices.size() == sizes.size() || sizes.size() == 1" >>
   let! nd := deref this in
   when (bool_decide (t = SNodeType.hash))
     (TI_ASSERT (depth nd =? 0)
        "hashed node must be child of root due to initialization memset limitation.") >>
   let! new_node := insert_children this t in
   modify new_node (with_n 1) >> k new_node) st
  = k (length (nodes st))
      (set_nodes (<[length (nodes st) := with_n 1 (fresh_child nd t st)]>
                    (nodes (inserted this t nd st)))
         (inserted this t nd st)).
Proof.
  intros Hnd Ht Hhash Hlen.
  replace (bool_decide (length indices = length sizes) || bool_decide (length sizes = 1%nat))
    with true.
  2:{ symmetry. apply orb_true_iff.
      destruct Hlen; [left | right]; by apply bool_decide_eq_true_2. }
  erewrite bind_Ok by apply TI_ASSERT_true.
  erewrite bind_Ok by (by apply deref_Ok).
  erewrite bind_Ok.
  2:{ unfold when. case_bool_decide as Hh; [| reflexivity].
      rewrite (Hhash Hh). apply TI_ASSERT_true. }
  erewrite bind_Ok by (by apply insert_children_Ok).
  erewrite bind_Ok; [reflexivity |].
  apply modify_Ok. by apply lookup_inserted_new.
Qed.

(** X9: a [create_node] that meets a size that is not positive has inserted
    the child by then: the failed call leaves the caller with one more child,
    whose [n] is the product of the promoted sizes before the offending
    one. *)
Theorem create_node_failure_keeps_child this indices sizes t st nd good s rest :
  nodes st !! this = Some nd →
  t ≠ SNodeType.root →
  (t = SNodeType.hash → depth nd = 0) →
  length indices = length sizes ∨ length sizes = 1%nat →
  broadcast indices sizes = good ++ s :: rest →
  Forall (λ s, 1 <= s <= 2 ^ 30) good →
  product (least_pot_bound <$> good) < 2 ^ (n_bits - 1) →
  s <= 0 →
  ∃ st' nd' c,
    create_node this indices sizes t st = Fatal "sizes[i] > 0" st'
    ∧ length (nodes st') = S (length (nodes st))
    ∧ nodes st' !! this = Some nd'
    ∧ ch nd' = ch nd ++ [length (nodes st)]
    ∧ nodes st' !! length (nodes st) = Some c
    ∧ type c = t
    ∧ n c = product (least_pot_bound <$> good).
Proof.
  intros Hnd Ht Hhash Hlen Hsizes Hgood Hfit Hs.
  pose proof (lookup_lt_Some _ _ _ Hnd) as Hthis.
  set (a := length (nodes st)).
  set (c0 := fresh_child nd t st).
  set (st1 := inserted this t nd st).
  assert (a < length (nodes st1))%nat as Ha
    by (unfold st1; rewrite inserted_length; unfold a; lia).
  set (P := product (least_pot_bound <$> good)) in *.
  exists (set_nodes (<[a := with_n P c0]> (nodes st1)) st1),
    (with_ch (ch nd ++ [a]) nd), (with_n P c0).
  split.
  - unfold create_node.
    rewrite (create_node_prologue this indices sizes t st nd) by done.
    fold a c0 st1. rewrite Hsizes.
    erewrite bind_Fatal; [reflexivity |].
    rewrite for_each_app.
    erewrite bind_Ok.
    2:{ apply accumulate_sizes_Ok with (c := with_n 1 c0).
        - by apply lookup_set_nodes_eq.
        - done.
        - simpl. lia.
        - simpl n. fold P. lia. }
    simpl nodes. rewrite set_nodes_set_nodes, list_insert_insert_eq.
    rewrite with_n_with_n, Z.mul_1_l. fold P. simpl for_each.
    erewrite bind_Fatal; [reflexivity |].
    unfold accumulate_size.
    replace (0 <? s) with false by (symmetry; apply Z.ltb_ge; lia).
    by erewrite bind_Fatal by apply TI_ASSERT_false.
  - split.
    { change (length (<[a := with_n P c0]> (nodes st1)) = S (length (nodes st))).
      rewrite length_insert. apply inserted_length. }
    change (nodes (set_nodes (<[a := with_n P c0]> (nodes st1)) st1))
      with (<[a := with_n P c0]> (nodes st1)).
    split.
    { rewrite list_lookup_insert_ne by (unfold a; lia). unfold st1.
      rewrite lookup_inserted_old by done. by rewrite decide_True. }
    split; [done |].
    split; [by apply list_lookup_insert_eq | done].
Qed.

Lemma bind_Undefined {A B} (m : M A) (k : A → M B) st :
  m st = Undefined → bind m k st = Undefined.
Proof. unfold bind. by intros ->. Qed.

(** [create_node] on axes within range, listed once or more. *)
Lemma create_node_returns_in_range this indices sizes t st nd :
  nodes st !! this = Some nd →
  t ≠ SNodeType.root →
  (t = SNodeType.hash → depth nd = 0) →
  length indices = length sizes ∨ length sizes = 1%nat →
  Forall (λ i, 0 <= value i < Z.of_nat taichi_max_num_indices) indices →
  Forall (λ s, 1 <= s <= 2 ^ 30) (broadcast indices sizes) →
  product (least_pot_bound <$> broadcast indices sizes) < 2 ^ (n_bits - 1) →
  create_node this indices sizes t st
  = Ok (length (nodes st))
       (set_nodes (<[length (nodes st) := created_node nd t indices sizes st]>
                     (nodes (inserted this t nd st)))
          (inserted this t nd st)).
Proof.
  intros Hnd Ht Hhash Hlen Hrange Hsizes Hfit.
  pose proof (lookup_lt_Some _ _ _ Hnd) as Hthis.
  assert (length (nodes st) < length (nodes (inserted this t nd st)))%nat as Ha
    by (rewrite inserted_length; lia).
  unfold create_node.
  rewrite (create_node_prologue this indices sizes t st nd) by done.
  erewrite bind_Ok.
  2:{ apply accumulate_sizes_Ok with (c := with_n 1 (fresh_child nd t st)).
      - by apply lookup_set_nodes_eq.
      - done.
      - simpl. lia.
      - simpl n. lia. }
  cbn [nodes set_nodes]. rewrite set_nodes_set_nodes, list_insert_insert_eq.
  rewrite with_n_with_n, Z.mul_1_l.
  erewrite bind_Ok.
  2:{ apply activate_axes_Ok
        with (c := with_n (product (least_pot_bound <$> broadcast indices sizes))
                     (fresh_child nd t st)).
      - by apply lookup_set_nodes_eq.
      - apply Forall_forall. intros [ind s] Hin.
        apply elem_of_zip_l in Hin. simpl.
        rewrite Forall_forall in Hrange. specialize (Hrange _ Hin).
        simpl. rewrite length_replicate. lia. }
  cbn [nodes set_nodes]. rewrite set_nodes_set_nodes, list_insert_insert_eq.
  reflexivity.
Qed.

(** X10: [create_node] does not refuse an axis that is listed twice: it
    returns, [n] takes the promoted sizes of both entries, and the extractor
    of the axis keeps the size and the bits of the last entry only. *)
Theorem create_node_repeated_axis this axis s1 s2 t st nd :
  nodes st !! this = Some nd →
  t ≠ SNodeType.root →
  (t = SNodeType.hash → depth nd = 0) →
  0 <= value axis < Z.of_nat taichi_max_num_indices →
  1 <= s1 <= 2 ^ 30 → 1 <= s2 <= 2 ^ 30 →
  least_pot_bound s1 * least_pot_bound s2 < 2 ^ (n_bits - 1) →
  ∃ st' c e,
    create_node this [axis; axis] [s1; s2] t st = Ok (length (nodes st)) st'
    ∧ nodes st' !! length (nodes st) = Some c
    ∧ n c = least_pot_bound s1 * least_pot_bound s2
    ∧ array_get (extractors c) (value axis) = Some e
    ∧ active e = true
    ∧ num_elements e = s2
    ∧ num_bits e = log2int (least_pot_bound s2).
Proof.
  intros Hnd Ht Hhash Haxis Hs1 Hs2 Hfit.
  pose proof (lookup_lt_Some _ _ _ Hnd) as Hthis.
  assert (length (nodes st) < length (nodes (inserted this t nd st)))%nat as Ha
    by (rewrite inserted_length; lia).
  eexists _, (created_node nd t [axis; axis] [s1; s2] st),
    (activated s2 (activated s1 IndexExtractor_default)).
  split.
  { apply create_node_returns_in_range; try done.
    - by left.
    - do 2 (apply Forall_cons; split; [done |]). apply Forall_nil_2.
    - simpl. apply Forall_cons. split; [done |]. by apply Forall_singleton.
    - simpl. lia. }
  split; [by apply lookup_set_nodes_eq |].
  split; [simpl; lia |]. split; [| done].
  unfold array_get.
  replace (value axis <? 0) with false by (symmetry; apply Z.ltb_ge; lia).
  unfold created_node. cbn [extractors with_extractors]. simpl.
  unfold activate_in at 2. simpl.
  rewrite lookup_replicate_2 by lia. unfold activate_in. simpl.
  rewrite list_lookup_insert_eq by (rewrite length_replicate; lia).
  rewrite list_insert_insert_eq.
  apply list_lookup_insert_eq. rewrite length_replicate. lia.
Qed.

(** X11: [create_node] does not check that an axis is within the array of
    extractors: with a first axis out of range the access is out of
    bounds. *)
Theorem create_node_axis_out_of_range this axis rest sizes t st nd :
  nodes st !! this = Some nd →
  t ≠ SNodeType.root →
  (t = SNodeType.hash → depth nd = 0) →
  length (axis :: rest) = length sizes ∨ length sizes = 1%nat →
  Forall (λ s, 1 <= s <= 2 ^ 30) (broadcast (axis :: rest) sizes) →
  product (least_pot_bound <$> broadcast (axis :: rest) sizes) < 2 ^ (n_bits - 1) →
  ¬ (0 <= value axis < Z.of_nat taichi_max_num_indices) →
  create_node this (axis :: rest) sizes t st = Undefined.
Proof.
  intros Hnd Ht Hhash Hlen Hsizes Hfit Haxis.
  pose proof (lookup_lt_Some _ _ _ Hnd) as Hthis.
  pose proof (broadcast_length _ _ Hlen) as Hblen.
  assert (length (nodes st) < length (nodes (inserted this t nd st)))%nat as Ha
    by (rewrite inserted_length; lia).
  unfold create_node.
  rewrite (create_node_prologue this (axis :: rest) sizes t st nd) by done.
  erewrite bind_Ok.
  2:{ apply accumulate_sizes_Ok with (c := with_n 1 (fresh_child nd t st)).
      - by apply lookup_set_nodes_eq.
      - done.
      - simpl. lia.
      - simpl n. lia. }
  cbn [nodes set_nodes]. rewrite set_nodes_set_nodes, list_insert_insert_eq.
  destruct (broadcast (axis :: rest) sizes) as [| s bs]; [done |].
  apply bind_Undefined. simpl zip. simpl for_each. apply bind_Undefined.
  unfold activate_axis. erewrite bind_Ok by (apply deref_Ok; by apply lookup_set_nodes_eq).
  simpl. unfold array_get. destruct (value axis <? 0) eqn:Hneg; [done |].
  apply Z.ltb_ge in Hneg. rewrite lookup_ge_None_2; [done |].
  rewrite length_replicate. lia.
Qed.

(** [create_node] without axes. *)
Lemma create_node_no_axes this t st nd :
  nodes st !! this = Some nd →
  t ≠ SNodeType.root →
  (t = SNodeType.hash → depth nd = 0) →
  create_node this [] [] t st
  = Ok (length (nodes st))
       (set_nodes (<[length (nodes st) := with_n 1 (fresh_child nd t st)]>
                     (nodes (inserted this t nd st)))
          (inserted this t nd st)).
Proof.
  intros Hnd Ht Hhash. unfold create_node.
  rewrite (create_node_prologue this [] [] t st nd) by (done || by left).
  reflexivity.
Qed.

(** X12: [bit_struct] returns on every existing node, whatever the number of
    bits: the new child is of kind bit_struct, has [n] = 1, no activated
    extractor, and the integer type of that many bits as physical type. *)
Theorem bit_struct_returns this num_bits_ st nd :
  nodes st !! this = Some nd →
  ∃ st' nd' c,
    bit_struct this num_bits_ st = Ok (length (nodes st)) st'
    ∧ nodes st' !! this = Some nd'
    ∧ ch nd' = ch nd ++ [length (nodes st)]
    ∧ nodes st' !! length (nodes st) = Some c
    ∧ type c = SNodeType.bit_struct
    ∧ n c = 1
    ∧ extractors c = replicate taichi_max_num_indices IndexExtractor_default
    ∧ physical_type c = Some (get_primitive_int_type num_bits_ false)
    ∧ is_path_all_dense c = is_path_all_dense nd.
Proof.
  intros Hnd. pose proof (lookup_lt_Some _ _ _ Hnd) as Hthis.
  set (a := length (nodes st)).
  assert (a < length (nodes (inserted this SNodeType.bit_struct nd st)))%nat as Ha
    by (rewrite inserted_length; unfold a; lia).
  eexists _, (with_ch (ch nd ++ [a]) nd), _. split.
  - unfold bit_struct.
    erewrite bind_Ok by (by apply create_node_no_axes).
    erewrite bind_Ok; [reflexivity |].
    apply modify_Ok. by apply lookup_set_nodes_eq.
  - cbn [nodes set_nodes]. rewrite list_insert_insert_eq. split.
    { rewrite list_lookup_insert_ne by (unfold a; lia).
      rewrite lookup_inserted_old by done. by rewrite decide_True. }
    split; [done |].
    split; [by apply list_lookup_insert_eq |].
    simpl. by rewrite andb_true_r.
Qed.

(** The extractor of a listed axis in the node that [create_node] makes. *)
Lemma created_node_extractor nd t indices sizes st k ind s :
  length indices = length sizes ∨ length sizes = 1%nat →
  valid_axes indices →
  indices !! k = Some ind → broadcast indices sizes !! k = Some s →
  array_get (extractors (created_node nd t indices sizes st)) (value ind)
  = Some (activated s IndexExtractor_default).
Proof.
  intros Hlen [Hdup Hrange] Hk Hs.
  pose proof (broadcast_length _ _ Hlen) as Hblen.
  assert (zip indices (broadcast indices sizes) !! k = Some (ind, s)) as Hzip
    by (by apply lookup_zip_Some).
  rewrite Forall_forall in Hrange.
  pose proof (Hrange ind (list_elem_of_lookup_2 _ _ _ Hk)) as Hind.
  unfold array_get.
  replace (value ind <? 0) with false by (symmetry; apply Z.ltb_ge; lia).
  unfold created_node. cbn [extractors with_extractors].
  erewrite lookup_foldl_activate_in; [| | exact Hzip].
  - simpl. rewrite lookup_replicate_2 by lia. done.
  - rewrite <- (fst_zip indices (broadcast indices sizes)) in Hdup by lia.
    rewrite <- list_fmap_compose in Hdup.
    eapply (NoDup_fmap_1 Z.of_nat). rewrite <- list_fmap_compose.
    erewrite list_fmap_ext; [exact Hdup |].
    intros i [ind' s'] Hi. simpl.
    apply list_elem_of_lookup_2, elem_of_zip_l in Hi.
    specialize (Hrange _ Hi). simpl. lia.
Qed.

(** X13: [bit_array] makes what [create_node] makes for its axes and sizes,
    of kind bit_array, and records the integer type of the given number of
    bits as physical type. *)
Theorem bit_array_returns this indices sizes bits st nd :
  nodes st !! this = Some nd →
  length indices = length sizes ∨ length sizes = 1%nat →
  valid_axes indices →
  Forall (λ s, 1 <= s <= 2 ^ 30) (broadcast indices sizes) →
  product (least_pot_bound <$> broadcast indices sizes) < 2 ^ (n_bits - 1) →
  ∃ st' c,
    bit_array this indices sizes bits st = Ok (length (nodes st)) st'
    ∧ nodes st' !! length (nodes st) = Some c
    ∧ type c = SNodeType.bit_array
    ∧ n c = product (least_pot_bound <$> broadcast indices sizes)
    ∧ physical_type c = Some (get_primitive_int_type bits false)
    ∧ ∀ k ind s,
        indices !! k = Some ind → broadcast indices sizes !! k = Some s →
        ∃ e, array_get (extractors c) (value ind) = Some e
             ∧ active e = true
             ∧ num_elements e = s
             ∧ num_bits e = log2int (least_pot_bound s).
Proof.
  intros Hnd Hlen Hax Hsizes Hfit.
  pose proof (lookup_lt_Some _ _ _ Hnd) as Hthis.
  assert (length (nodes st)
          < length (nodes (inserted this SNodeType.bit_array nd st)))%nat as Ha
    by (rewrite inserted_length; lia).
  eexists _, (with_physical_type (Some (get_primitive_int_type bits false))
                (created_node nd SNodeType.bit_array indices sizes st)).
  split.
  { unfold bit_array. erewrite bind_Ok by (by apply create_node_returns).
    erewrite bind_Ok; [reflexivity |].
    apply modify_Ok. by apply lookup_set_nodes_eq. }
  cbn [nodes set_nodes]. rewrite list_insert_insert_eq.
  split; [by apply list_lookup_insert_eq |].
  split; [done |]. split; [done |]. split; [done |].
  intros k ind s Hk Hs. exists (activated s IndexExtractor_default).
  split; [| done].
  by apply (created_node_extractor nd SNodeType.bit_array indices sizes st k).
Qed.

Lemma log2int_least_pot_bound_le s :
  1 <= s <= 2 ^ 30 → 0 <= log2int (least_pot_bound s) <= 30.
Proof.
  intros Hs. unfold log2int, least_pot_bound.
  rewrite Z.log2_pow2 by apply Z.log2_up_nonneg.
  split; [apply Z.log2_up_nonneg |].
  destruct (decide (s = 1)) as [-> | Hne]; [done |].
  apply Z.log2_up_le_pow2; lia.
Qed.

(** X14: [dynamic] makes what [create_node] makes for the one axis and
    records the chunk size as given; the new node is not on an all-dense
    path, and [get_least_sparse_ancestor] on it returns the node itself. *)
Theorem dynamic_returns this axis n_ chunk_size_ st nd :
  nodes st !! this = Some nd →
  0 <= value axis < Z.of_nat taichi_max_num_indices →
  1 <= n_ <= 2 ^ 30 →
  least_pot_bound n_ < 2 ^ (n_bits - 1) →
  ∃ st' c e,
    dynamic this axis n_ chunk_size_ st = Ok (length (nodes st)) st'
    ∧ nodes st' !! length (nodes st) = Some c
    ∧ type c = SNodeType.dynamic
    ∧ n c = least_pot_bound n_
    ∧ chunk_size c = chunk_size_
    ∧ is_path_all_dense c = false
    ∧ array_get (extractors c) (value axis) = Some e
    ∧ active e = true ∧ num_elements e = n_
    ∧ num_bits e = log2int (least_pot_bound n_)
    ∧ ∀ fuel, get_least_sparse_ancestor (S fuel) (length (nodes st)) st'
              = Ok (Some (length (nodes st))) st'.
Proof.
  intros Hnd Haxis Hn Hfit. pose proof (lookup_lt_Some _ _ _ Hnd) as Hthis.
  set (a := length (nodes st)).
  assert (a < length (nodes (inserted this SNodeType.dynamic nd st)))%nat as Ha
    by (rewrite inserted_length; unfold a; lia).
  assert (valid_axes [axis]) as Hvalid.
  { split; [apply NoDup_singleton | by apply Forall_singleton]. }
  set (c := with_chunk_size chunk_size_
              (created_node nd SNodeType.dynamic [axis] [n_] st)).
  eexists _, c, (activated n_ IndexExtractor_default).
  split.
  - unfold dynamic. erewrite bind_Ok.
    2:{ apply (create_node_returns this [axis] [n_] SNodeType.dynamic st nd);
          try done.
        - by left.
        - by apply Forall_singleton.
        - simpl. lia. }
    erewrite bind_Ok; [reflexivity |].
    apply modify_Ok. by apply lookup_set_nodes_eq.
  - cbn [nodes set_nodes]. rewrite list_insert_insert_eq. fold a c.
    assert (<[a := c]> (nodes (inserted this SNodeType.dynamic nd st)) !! a = Some c)
      as Hc by (by apply list_lookup_insert_eq).
    split; [exact Hc |]. split; [done |].
    split; [simpl; lia |]. split; [done |].
    split; [simpl; by rewrite andb_false_r |].
    split.
    { apply (created_node_extractor nd SNodeType.dynamic [axis] [n_] st 0%nat);
        (done || by left). }
    split; [done |]. split; [done |]. split; [done |].
    intros fuel. unfold get_least_sparse_ancestor.
    erewrite bind_Ok by (apply deref_Ok; exact Hc).
    replace (is_path_all_dense c) with false by (simpl; by rewrite andb_false_r).
    simpl. by erewrite bind_Ok by (apply deref_Ok; exact Hc).
Qed.

(** X15: after a [create_node] that returns, [get_num_bits] on the new node,
    whose parent link is not set yet, returns for every listed axis the
    logarithm of the promoted size of that axis. *)
Theorem get_num_bits_of_new_node this indices sizes t st nd :
  nodes st !! this = Some nd →
  t ≠ SNodeType.root →
  (t = SNodeType.hash → depth nd = 0) →
  length indices = length sizes ∨ length sizes = 1%nat →
  valid_axes indices →
  Forall (λ s, 1 <= s <= 2 ^ 30) (broadcast indices sizes) →
  product (least_pot_bound <$> broadcast indices sizes) < 2 ^ (n_bits - 1) →
  ∃ st',
    create_node this indices sizes t st = Ok (length (nodes st)) st'
    ∧ ∀ k ind s fuel,
        indices !! k = Some ind → broadcast indices sizes !! k = Some s →
        get_num_bits (S fuel) (length (nodes st)) (value ind) st'
        = Ok (log2int (least_pot_bound s)) st'.
Proof.
  intros Hnd Ht Hhash Hlen Hax Hsizes Hfit.
  pose proof (lookup_lt_Some _ _ _ Hnd) as Hthis.
  eexists. split; [by apply create_node_returns |].
  intros k ind s fuel Hk Hs.
  assert (length (nodes st) < length (nodes (inserted this t nd st)))%nat as Ha
    by (rewrite inserted_length; lia).
  unfold get_num_bits. simpl get_num_bits_loop.
  erewrite bind_Ok by (apply deref_Ok; by apply lookup_set_nodes_eq).
  rewrite (created_node_extractor nd t indices sizes st k ind s) by done.
  simpl. rewrite Forall_forall in Hsizes.
  pose proof (log2int_least_pot_bound_le s
                (Hsizes s (list_elem_of_lookup_2 _ _ _ Hs))) as Hlog.
  rewrite int32_small by (unfold is_int; lia).
  by destruct fuel.
Qed.

End Builders.

(** ** Refusals, bindings and sessions of placement *)

Section Placing.
Context `{Declarations}.

(** X16: [place] checks its field only after the redirection of a root
    caller: a call that fails because the expression is no global variable,
    or because the field is placed already, leaves a caller other than the
    root as it was, and leaves the root with a new zero-axis dense child
    without children. *)
Theorem place_refusal this nd expr_ offset st :
  nodes st !! this = Some nd →
  (expr_ = None ∨ (∃ e, expr_ = Some e ∧ exprs st !! e = Some OtherExpression) →
   place this expr_ offset st
   = Fatal "expr_.is<GlobalVariableExpression>()" (entry this nd st).2)
  ∧ (∀ e g, expr_ = Some e → exprs st !! e = Some (GlobalVariable g) →
       gv_snode g ≠ None →
       place this expr_ offset st
       = Fatal "This variable has been placed." (entry this nd st).2)
  ∧ (type nd ≠ SNodeType.root → (entry this nd st).2 = st)
  ∧ (type nd = SNodeType.root →
     ∃ r d, nodes (entry this nd st).2 = <[this := r]> (nodes st) ++ [d]
            ∧ ch r = ch nd ++ [length (nodes st)]
            ∧ type d = SNodeType.dense ∧ n d = 1 ∧ ch d = []
            ∧ exprs (entry this nd st).2 = exprs st).
Proof.
  intros Hnd. pose proof (entry_exprs this nd st) as Hex.
  split; [| split; [| split]].
  - intros Hbad. rewrite (place_entry this expr_ offset st nd Hnd).
    unfold place_here. erewrite bind_Ok by reflexivity.
    destruct Hbad as [-> | (e & -> & He)]; [done |]. by rewrite Hex, He.
  - intros e g -> He Hs. rewrite (place_entry this (Some e) offset st nd Hnd).
    unfold place_here. erewrite bind_Ok by reflexivity. rewrite Hex, He.
    rewrite bool_decide_eq_true_2 by done. by erewrite bind_Fatal.
  - intros Hroot. unfold entry. by rewrite bool_decide_eq_false_2.
  - intros Hroot. unfold entry. rewrite bool_decide_eq_true_2 by done.
    by eexists _, _.
Qed.

(** X17: in a session that has an exponent node, [place] of a field whose
    exponent type differs from the type of that node fails at the assertion
    on the exponent type, before any node is inserted: a caller other than
    the root is left as it was. *)
Theorem shared_exponent_type_mismatch this nd e g exp cur offset st :
  nodes st !! this = Some nd →
  type nd ≠ SNodeType.root →
  exprs st !! e = Some (GlobalVariable g) →
  gv_snode g = None →
  get_exponent_type (gv_dt g) = Some exp →
  placing_shared_exp st = true →
  currently_placing_exp_snode st = Some cur →
  currently_placing_exp_snode_dtype st ≠ Some exp →
  place this (Some e) offset st
  = Fatal "CustomFloatTypes with shared exponents must have exactly the same exponent type."
      st.
Proof.
  intros Hnd Hroot He Hs Hexp Hopen Hcur Hdt.
  unfold place. erewrite bind_Ok by (by apply deref_Ok).
  rewrite bool_decide_eq_false_2 by done.
  unfold place_here. erewrite bind_Ok by reflexivity. rewrite He, Hs, Hexp.
  rewrite bool_decide_eq_false_2 by (by intros ?).
  erewrite bind_Ok by reflexivity.
  erewrite bind_Fatal; [reflexivity |].
  erewrite bind_Fatal; [reflexivity |].
  unfold place_exponent. erewrite bind_Ok by reflexivity. rewrite Hopen, Hcur.
  rewrite bool_decide_eq_false_2 by done. by erewrite bind_Fatal.
Qed.

(** X18: a session in which no exponent node was made cannot be left: after
    [begin_shared_exp_placement], [end_shared_exp_placement] fails at its
    second assertion and a further begin at its first, each leaving the
    state as it is; placing a field without exponent type does not change
    that. *)
Theorem empty_session_cannot_end st :
  placing_shared_exp st = false →
  currently_placing_exp_snode st = None →
  ∃ st1,
    begin_shared_exp_placement st = Ok tt st1
    ∧ nodes st1 = nodes st ∧ exprs st1 = exprs st
    ∧ end_shared_exp_placement st1
      = Fatal "currently_placing_exp_snode != nullptr" st1
    ∧ begin_shared_exp_placement st1 = Fatal "!placing_shared_exp" st1
    ∧ ∀ this e g offset st2,
        exprs st1 !! e = Some (GlobalVariable g) →
        get_exponent_type (gv_dt g) = None →
        place this (Some e) offset st1 = Ok tt st2 →
        end_shared_exp_placement st2
        = Fatal "currently_placing_exp_snode != nullptr" st2.
Proof.
  intros Hopen Hcur.
  exists (set_session true None (currently_placing_exp_snode_dtype st) st).
  split.
  { unfold begin_shared_exp_placement, bind, get_state. rewrite Hopen. simpl.
    rewrite Hcur. simpl. by rewrite Hcur. }
  split; [done |]. split; [done |]. split; [done |]. split; [done |].
  intros this e g offset st2 He Hexp Hplace.
  set (st1 := set_session true None (currently_placing_exp_snode_dtype st) st) in *.
  assert (∃ n0, nodes st1 !! this = Some n0) as [n0 Hn0].
  { unfold place in Hplace.
    apply bind_Ok_inv in Hplace as (n0 & s & [_ Hn0]%deref_Ok_inv & _). by exists n0. }
  rewrite (place_entry this (Some e) offset st1 n0 Hn0) in Hplace.
  destruct (place_here_Ok_inv _ _ _ _ _ Hplace) as (e' & g' & [= <-] & He' & Hs).
  rewrite entry_exprs in He'. simplify_eq.
  rewrite (place_here_plain _ e g offset _ _ (entry_lookup this st1 n0 Hn0)) in Hplace;
    [| by rewrite entry_exprs | done | done].
  injection Hplace as <-.
  destruct (entry_session this n0 st1) as (Hs1 & Hs2 & _).
  unfold end_shared_exp_placement, bind, get_state. simpl.
  by rewrite Hs1, Hs2.
Qed.

(** X19: [set_index_offsets] writes once: on a place node without offsets and
    with a list that is not empty it returns and stores the list, and every
    later call on that node fails at the first assertion, whatever the
    list. *)
Theorem index_offsets_written_once this nd offsets st :
  nodes st !! this = Some nd →
  type nd = SNodeType.place →
  index_offsets nd = [] →
  offsets ≠ [] →
  ∃ st' nd',
    set_index_offsets this offsets st = Ok tt st'
    ∧ nodes st' = <[this := nd']> (nodes st)
    ∧ index_offsets nd' = offsets
    ∧ ∀ offsets', set_index_offsets this offsets' st'
                  = Fatal "this->index_offsets.empty()" st'.
Proof.
  intros Hnd Hplace Hempty Hoffsets.
  pose proof (lookup_lt_Some _ _ _ Hnd) as Hthis.
  exists (set_nodes (<[this := with_index_offsets offsets nd]> (nodes st)) st),
    (with_index_offsets offsets nd).
  split.
  - unfold set_index_offsets. erewrite bind_Ok by (by apply deref_Ok).
    rewrite (bool_decide_eq_true_2 (index_offsets nd = [])) by done.
    rewrite (bool_decide_eq_false_2 (offsets = [])) by done.
    rewrite (bool_decide_eq_true_2 (type nd = SNodeType.place)) by done. simpl.
    erewrite bind_Ok by reflexivity. erewrite bind_Ok by reflexivity.
    erewrite bind_Ok by reflexivity. by apply modify_Ok.
  - split; [done |]. split; [done |]. intros offsets'.
    unfold set_index_offsets.
    erewrite bind_Ok by (apply deref_Ok; by apply lookup_set_nodes_eq).
    simpl index_offsets. rewrite bool_decide_eq_false_2 by done.
    by erewrite bind_Fatal.
Qed.

(** The members of the value leaf that [place] fills in. *)
Lemma placed_leaf_members g e shared new_exp offset c0 :
  has_ambient c0 = false → index_offsets c0 = [] →
  name (placed_leaf g e shared new_exp offset c0) = gv_ident g
  ∧ has_ambient (placed_leaf g e shared new_exp offset c0) = gv_has_ambient g
  ∧ (gv_has_ambient g = true →
     ambient_val (placed_leaf g e shared new_exp offset c0) = gv_ambient_value g)
  ∧ owns_shared_exponent (placed_leaf g e shared new_exp offset c0)
    = shared || owns_shared_exponent c0
  ∧ exp_snode (placed_leaf g e shared new_exp offset c0)
    = match new_exp with Some _ => new_exp | None => exp_snode c0 end
  ∧ index_offsets (placed_leaf g e shared new_exp offset c0) = offset.
Proof.
  intros Ha Ho. unfold placed_leaf.
  case_bool_decide as Hoff; destruct (gv_has_ambient g), shared, new_exp; simpl;
    rewrite ?Ha, ?Ho; by subst.
Qed.

(** Where the leaf of a placement ends up. *)
Lemma value_placed_binds this e g new_exp offset nd stX :
  (∀ x, new_exp = Some x → (x < length (nodes stX))%nat) →
  ∃ cn,
    length (nodes (value_placed this e g new_exp offset nd stX))
    = S (length (nodes stX))
    ∧ nodes (value_placed this e g new_exp offset nd stX) !! length (nodes stX) = Some cn
    ∧ exprs (value_placed this e g new_exp offset nd stX)
      = <[e := GlobalVariable (set_snode (Some (length (nodes stX))) g)]> (exprs stX)
    ∧ type cn = SNodeType.place ∧ expr cn = Some e ∧ dt cn = gv_dt g
    ∧ ch cn = []
    ∧ name cn = gv_ident g
    ∧ has_ambient cn = gv_has_ambient g
    ∧ (gv_has_ambient g = true → ambient_val cn = gv_ambient_value g)
    ∧ owns_shared_exponent cn = placing_shared_exp stX
    ∧ exp_snode cn = new_exp
    ∧ index_offsets cn = offset.
Proof.
  intros Hx. eexists. split; [apply value_placed_length |].
  split; [by apply value_placed_new |]. split; [done |].
  destruct (placed_leaf_links g e (placing_shared_exp stX) new_exp offset
              (fresh_child nd SNodeType.place stX) eq_refl)
    as (Ht & He & Hd & Hc & _).
  destruct (placed_leaf_members g e (placing_shared_exp stX) new_exp offset
              (fresh_child nd SNodeType.place stX) eq_refl eq_refl)
    as (Hn & Ha & Hv & Ho & Hx' & Hi).
  split; [done |]. split; [done |]. split; [done |]. split; [done |].
  split; [done |]. split; [done |]. split; [done |].
  split; [by rewrite Ho, orb_false_r |].
  split; [| done]. rewrite Hx'. by destruct new_exp.
Qed.

(** X20: [place] of a declared field that is not placed yet returns, provided
    that an exponent node of the session, if the field needs one, exists and
    is of the field's exponent type.  The new node made last is the leaf of
    the field: field and leaf point to each other, and the leaf takes the
    type, the name and the ambient value of the field, the session flag and
    the offsets. *)
Theorem place_binds this e g offset st :
  is_Some (nodes st !! this) →
  exprs st !! e = Some (GlobalVariable g) →
  gv_snode g = None →
  (∀ exp cur, get_exponent_type (gv_dt g) = Some exp →
     placing_shared_exp st = true → currently_placing_exp_snode st = Some cur →
     currently_placing_exp_snode_dtype st = Some exp ∧ (cur < length (nodes st))%nat) →
  ∃ st' c cn,
    place this (Some e) offset st = Ok tt st'
    ∧ length (nodes st') = S c
    ∧ nodes st' !! c = Some cn
    ∧ exprs st' = <[e := GlobalVariable (set_snode (Some c) g)]> (exprs st)
    ∧ type cn = SNodeType.place ∧ expr cn = Some e ∧ dt cn = gv_dt g
    ∧ ch cn = []
    ∧ name cn = gv_ident g
    ∧ has_ambient cn = gv_has_ambient g
    ∧ (gv_has_ambient g = true → ambient_val cn = gv_ambient_value g)
    ∧ owns_shared_exponent cn = placing_shared_exp st
    ∧ index_offsets cn = offset.
Proof.
  intros [n0 Hn0] He Hs Hsession.
  destruct (entry_session this n0 st) as (Hs1 & Hs2 & Hs3).
  pose proof (entry_lookup this st n0 Hn0) as Hthis.
  pose proof (entry_exprs this n0 st) as Hex.
  pose proof (entry_length this n0 st) as Hel.
  rewrite (place_entry this (Some e) offset st n0 Hn0).
  set (this' := (entry this n0 st).1.1) in *.
  set (nd := (entry this n0 st).1.2) in *.
  set (st0 := (entry this n0 st).2) in *.
  assert (exprs st0 !! e = Some (GlobalVariable g)) as He0 by (by rewrite Hex).
  assert (∀ new_exp nd' stX,
            place_here this' (Some e) offset st0
            = Ok tt (value_placed this' e g new_exp offset nd' stX) →
            (∀ x, new_exp = Some x → (x < length (nodes stX))%nat) →
            exprs stX = exprs st → placing_shared_exp stX = placing_shared_exp st →
            ∃ st' c cn,
              place_here this' (Some e) offset st0 = Ok tt st'
              ∧ length (nodes st') = S c
              ∧ nodes st' !! c = Some cn
              ∧ exprs st' = <[e := GlobalVariable (set_snode (Some c) g)]> (exprs st)
              ∧ type cn = SNodeType.place ∧ expr cn = Some e ∧ dt cn = gv_dt g
              ∧ ch cn = []
              ∧ name cn = gv_ident g
              ∧ has_ambient cn = gv_has_ambient g
              ∧ (gv_has_ambient g = true → ambient_val cn = gv_ambient_value g)
              ∧ owns_shared_exponent cn = placing_shared_exp st
              ∧ index_offsets cn = offset) as Hfinish.
  { intros new_exp nd' stX Hplace Hx HexX HsX.
    destruct (value_placed_binds this' e g new_exp offset nd' stX Hx)
      as (cn & Hlen & Hcn & Hexprs & Ht & Hexpr & Hd & Hch & Hname & Ha & Hv & Ho & _ & Hi).
    exists (value_placed this' e g new_exp offset nd' stX), (length (nodes stX)), cn.
    rewrite <- HexX, <- HsX. done. }
  destruct (get_exponent_type (gv_dt g)) as [exp |] eqn:Hexp.
  - destruct (placing_shared_exp st) eqn:Hopen;
      [destruct (currently_placing_exp_snode st) as [cur |] eqn:Hcur |].
    + destruct (Hsession exp cur eq_refl eq_refl eq_refl) as [Hdt Hlt].
      apply (Hfinish (Some cur) nd st0); [| | done | congruence].
      * apply (place_here_shared_exponent this' e g exp offset st0 nd cur);
          try done; try congruence.
        rewrite Hel. case_bool_decide; lia.
      * intros x [= <-]. rewrite Hel. case_bool_decide; lia.
    + apply (Hfinish (Some (length (nodes st0)))
               (with_ch (ch nd ++ [length (nodes st0)]) nd)
               (exponent_placed this' g exp nd st0)); [| | done | ].
      * apply place_here_fresh_exponent; try done. right. congruence.
      * intros x [= <-]. rewrite exponent_placed_length. lia.
      * simpl. congruence.
    + apply (Hfinish (Some (length (nodes st0)))
               (with_ch (ch nd ++ [length (nodes st0)]) nd)
               (exponent_placed this' g exp nd st0)); [| | done | ].
      * apply place_here_fresh_exponent; try done. left. congruence.
      * intros x [= <-]. rewrite exponent_placed_length. lia.
      * simpl. congruence.
  - apply (Hfinish None nd st0); [| done | done | done].
    by apply place_here_plain.
Qed.

(** A field is bound once [place] has returned. *)
Lemma place_returns_bound this e offset st st' :
  place this (Some e) offset st = Ok tt st' →
  ∃ g, exprs st' !! e = Some (GlobalVariable g) ∧ gv_snode g ≠ None.
Proof.
  set (Q := λ s : State, ∃ g, exprs s !! e = Some (GlobalVariable g) ∧ gv_snode g ≠ None).
  assert (∀ p f, preserves Q (modify p f)) as Hmod.
  { intros p f. apply hoare_modify. by intros s nd Hs _. }
  assert (∀ this0 g x, hoare (λ _, True) (place_value this0 e g x offset)
                         (λ _, Q) (λ _ _, True)) as Hvalue.
  { intros this0 g x. unfold place_value.
    eapply hoare_bind with (R := λ _ _, True).
    { intros s _. by destruct (insert_children _ _ _). }
    intros child. eapply hoare_bind with (R := λ _, Q).
    { apply hoare_modify_gve. intros s g0 _ Hg0. eexists.
      split; [apply list_lookup_insert_eq; by eapply lookup_lt_Some | done]. }
    intros _.
    match goal with |- hoare _ ?m _ _ => assert (preserves Q m) as Hrest end.
    { unfold set_index_offsets. repeat keeps_step; apply Hmod. }
    eapply hoare_conseq; [exact Hrest | done ..]. }
  intros Hplace.
  assert (hoare (λ _, True) (place this (Some e) offset) (λ _, Q) (λ _ _, True)) as Hp.
  { assert (∀ this0, hoare (λ _, True) (place_here this0 (Some e) offset)
                       (λ _, Q) (λ _ _, True)) as Hhere.
    { intros this0. unfold place_here.
      eapply hoare_bind with (R := λ _ _, True); [by intros s _ |]. intros s.
      destruct (exprs s !! e) as [[g |] |]; [| by intros ? _ | by intros ? _].
      eapply hoare_bind with (R := λ _ _, True).
      { intros s0 _. by destruct (when _ _ s0). }
      intros _. eapply hoare_bind with (R := λ _ _, True); [| intros x; apply Hvalue].
      intros s0 _.
      by destruct ((match get_exponent_type (gv_dt g) with
                    | Some exp => let! x := place_exponent this0 g exp in ret (Some x)
                    | None => ret None
                    end) s0). }
    unfold place. eapply hoare_bind with (R := λ _ _, True).
    { intros s _. by destruct (deref _ _). }
    intros nd. destruct (bool_decide _); [| apply Hhere].
    eapply hoare_bind with (R := λ _ _, True); [| intros d; apply Hhere].
    intros s _. by destruct (dense _ _ _ _). }
  specialize (Hp st I). by rewrite Hplace in Hp.
Qed.

(** X21: a field is placed once: after a [place] that returned, every further
    [place] of the same field fails with the error that the variable has been
    placed; on a caller other than the root it leaves the state as it is. *)
Theorem place_twice_fails this e offset st st' this2 nd2 offset2 :
  place this (Some e) offset st = Ok tt st' →
  nodes st' !! this2 = Some nd2 →
  place this2 (Some e) offset2 st'
  = Fatal "This variable has been placed." (entry this2 nd2 st').2
  ∧ (type nd2 ≠ SNodeType.root →
     place this2 (Some e) offset2 st' = Fatal "This variable has been placed." st').
Proof.
  intros Hplace Hnd2.
  destruct (place_returns_bound this e offset st st' Hplace) as (g & Hg & Hs).
  assert (place this2 (Some e) offset2 st'
          = Fatal "This variable has been placed." (entry this2 nd2 st').2) as Hfail.
  { rewrite (place_entry this2 (Some e) offset2 st' nd2 Hnd2).
    unfold place_here. erewrite bind_Ok by reflexivity. rewrite entry_exprs, Hg.
    rewrite bool_decide_eq_true_2 by done. by erewrite bind_Fatal. }
  split; [exact Hfail |]. intros Hroot. rewrite Hfail.
  unfold entry. by rewrite bool_decide_eq_false_2.
Qed.

(** A placement leaves the names of the nodes that were there. *)
Lemma value_placed_old_name this e g new_exp offset nd st a x :
  nodes st !! this = Some nd →
  nodes st !! a = Some x →
  ∃ x', nodes (value_placed this e g new_exp offset nd st) !! a = Some x'
        ∧ name x' = name x.
Proof.
  intros Hnd Ha. pose proof (lookup_lt_Some _ _ _ Ha) as Hlt. simpl.
  rewrite lookup_app_l by (destruct new_exp; rewrite ?length_alter, length_insert; lia).
  set (l := <[this := with_ch (ch nd ++ [length (nodes st)]) nd]> (nodes st)).
  assert (∃ y, l !! a = Some y ∧ name y = name x) as (y & Hy & Hname).
  { unfold l. destruct (decide (a = this)) as [-> | Hne].
    - rewrite list_lookup_insert_eq by done. simplify_eq. by eexists.
    - rewrite list_lookup_insert_ne by done. by exists x. }
  destruct new_exp as [c |]; [| by exists y].
  rewrite list_lookup_alter. destruct (decide (c = a)) as [-> | Hne].
  - rewrite Hy. eexists. split; [reflexivity | done].
  - by exists y.
Qed.

(** A placement that makes its own exponent leaf: outside a session, or as
    the first of a session. *)
Lemma fresh_exponent_placement p1 n1 x gx E off1 st :
  nodes st !! p1 = Some n1 →
  exprs st !! x = Some (GlobalVariable gx) →
  gv_snode gx = None →
  get_exponent_type (gv_dt gx) = Some E →
  placing_shared_exp st = false ∨ currently_placing_exp_snode st = None →
  ∃ st1 e ne nx,
    place p1 (Some x) off1 st = Ok tt st1
    ∧ new_place_leaves st st1 = [e; S e]
    ∧ (length (nodes st) <= e)%nat
    ∧ length (nodes st1) = S (S e)
    ∧ nodes st1 !! e = Some ne ∧ nodes st1 !! S e = Some nx
    ∧ type ne = SNodeType.place ∧ expr ne = None ∧ dt ne = E
    ∧ name ne = gv_ident gx +:+ "_exp"
    ∧ exponent_users ne = [S e]
    ∧ type nx = SNodeType.place ∧ expr nx = Some x ∧ exp_snode nx = Some e
    ∧ placing_shared_exp st1 = placing_shared_exp st
    ∧ currently_placing_exp_snode st1
      = (if placing_shared_exp st then Some e else currently_placing_exp_snode st)
    ∧ currently_placing_exp_snode_dtype st1
      = (if placing_shared_exp st then Some E else currently_placing_exp_snode_dtype st)
    ∧ exprs st1 = <[x := GlobalVariable (set_snode (Some (S e)) gx)]> (exprs st)
    ∧ ∀ a nd, nodes st !! a = Some nd →
        ∃ nd', nodes st1 !! a = Some nd'
               ∧ type nd' = type nd ∧ expr nd' = expr nd
               ∧ exp_snode nd' = exp_snode nd ∧ dt nd' = dt nd
               ∧ exponent_users nd' = exponent_users nd.
Proof.
  intros Hn1 Hx Hsx HE Hsession.
  destruct (entry_session p1 n1 st) as (Hs1 & Hs2 & Hs3).
  pose proof (entry_lookup p1 st n1 Hn1) as Hthis.
  pose proof (entry_exprs p1 n1 st) as Hex.
  pose proof (entry_length p1 n1 st) as Hel.
  set (this := (entry p1 n1 st).1.1) in *.
  set (nd := (entry p1 n1 st).1.2) in *.
  set (st0 := (entry p1 n1 st).2) in *.
  set (e := length (nodes st0)).
  set (stE := exponent_placed this gx E nd st0).
  set (nd' := with_ch (ch nd ++ [e]) nd).
  set (st1 := value_placed this x gx (Some e) off1 nd' stE).
  assert (length (nodes st) <= e)%nat as Hle by (unfold e; rewrite Hel; case_bool_decide; lia).
  assert (length (nodes stE) = S e) as HlenE by apply exponent_placed_length.
  assert (nodes stE !! this = Some nd') as HthisE.
  { unfold stE. simpl.
    rewrite lookup_app_l by (rewrite length_insert; by eapply lookup_lt_Some).
    apply list_lookup_insert_eq. by eapply lookup_lt_Some. }
  assert (place p1 (Some x) off1 st = Ok tt st1) as Hplace.
  { rewrite (place_entry p1 (Some x) off1 st n1 Hn1). fold this st0.
    apply place_here_fresh_exponent; try done.
    - by rewrite Hex.
    - destruct Hsession; [left | right]; congruence. }
  assert (length (nodes st1) = S (S e)) as Hlen1.
  { unfold st1. by rewrite value_placed_length, HlenE. }
  pose proof (exponent_placed_new this gx E nd st0) as HeE. fold e stE in HeE.
  destruct (value_placed_old this x gx (Some e) off1 nd' stE e _ HthisE HeE)
    as (ne & Hne & Hev).
  fold st1 in Hne. rewrite HlenE in Hev.
  rewrite (decide_True (P := Some e = Some e)) in Hev by done.
  assert (name ne = gv_ident gx +:+ "_exp") as Hname.
  { destruct (value_placed_old_name this x gx (Some e) off1 nd' stE e _ HthisE HeE)
      as (ne' & Hne' & Hname).
    fold st1 in Hne'. by simplify_eq. }
  destruct Hev as (Hte & Hee & _ & Hde & _ & Hue). simpl in Hte, Hee, Hde, Hue.
  assert (nodes st1 !! S e = Some
            (placed_leaf gx x (placing_shared_exp stE) (Some e) off1
               (fresh_child nd' SNodeType.place stE))) as Hnx.
  { rewrite <- HlenE. apply value_placed_new. intros ? [= <-]. lia. }
  destruct (placed_leaf_links gx x (placing_shared_exp stE) (Some e) off1
              (fresh_child nd' SNodeType.place stE) eq_refl)
    as (Htx & Hex' & _ & _ & Hxx).
  assert (∀ a y, nodes st0 !! a = Some y →
            ∃ y', nodes st1 !! a = Some y'
                  ∧ type y' = type y ∧ expr y' = expr y
                  ∧ exp_snode y' = exp_snode y ∧ dt y' = dt y
                  ∧ exponent_users y' = exponent_users y) as Hframe0.
  { intros a y Hy.
    destruct (exponent_placed_old this gx E nd st0 a y Hthis Hy) as (y' & Hy' & Hev').
    destruct (value_placed_old this x gx (Some e) off1 nd' stE a y' HthisE Hy')
      as (y'' & Hy'' & Hev'').
    exists y''. split; [done |].
    rewrite HlenE in Hev''. rewrite (decide_False (P := Some e = Some a)) in Hev''.
    2:{ intros [= Heq]. apply lookup_lt_Some in Hy. fold e in Hy. lia. }
    destruct Hev' as (Ht' & He' & Hx' & Hd' & _ & Hu').
    destruct Hev'' as (Ht'' & He'' & Hx'' & Hd'' & _ & Hu'').
    rewrite app_nil_r in Hu', Hu''. repeat split; congruence. }
  exists st1, e, ne. eexists.
  split; [exact Hplace |]. split; [| split; [exact Hle | split; [exact Hlen1 |]]].
  - rewrite (new_place_leaves_entry p1 n1 st st1 Hn1); fold st0.
    + unfold new_place_leaves. fold e. rewrite Hlen1.
      replace (S (S e) - e)%nat with 2%nat by lia. simpl seq.
      rewrite filter_cons_True.
      2:{ rewrite (is_place_at_lookup _ _ _ Hne), Hte. by rewrite bool_decide_eq_true_2. }
      rewrite filter_cons_True; [done |].
      rewrite (is_place_at_lookup _ _ _ Hnx), Htx. by rewrite bool_decide_eq_true_2.
    + fold e. lia.
    + intros a y Hy. destruct (Hframe0 a y Hy) as (y' & Hy' & Ht & _). by exists y'.
  - split; [exact Hne |]. split; [exact Hnx |].
    split; [done |]. split; [done |]. split; [done |]. split; [done |].
    split; [done |]. split; [done |]. split; [done |]. split; [by apply Hxx |].
    split; [simpl; congruence |].
    split; [simpl; by rewrite Hs1, Hs2 |].
    split; [simpl; by rewrite Hs1, Hs3 |].
    split.
    + change (exprs st1)
        with (<[x := GlobalVariable (set_snode (Some (length (nodes stE))) gx)]>
                (exprs st0)).
      by rewrite HlenE, Hex.
    + intros a y Hy.
      destruct (entry_old p1 n1 st a y Hn1 Hy) as (y0 & Hy0 & Hev0).
      destruct (Hframe0 a y0 Hy0) as (y' & Hy' & Ht & He & Hx' & Hd & Hu).
      exists y'. split; [done |].
      destruct Hev0 as (Ht0 & He0 & Hx0 & Hd0 & _ & Hu0). rewrite app_nil_r in Hu0.
      repeat split; congruence.
Qed.

(** X22: outside a session nothing is shared: placing two fields with
    exponent types makes four leaves, an exponent leaf and a value leaf for
    each field; each exponent leaf is named after its field and has that
    field's leaf as its only user, and the session state is not touched. *)
Theorem exponent_per_field_outside_session p1 p2 x y gx gy Ex Ey off1 off2 st :
  placing_shared_exp st = false →
  is_Some (nodes st !! p1) → is_Some (nodes st !! p2) →
  exprs st !! x = Some (GlobalVariable gx) →
  exprs st !! y = Some (GlobalVariable gy) →
  x ≠ y →
  gv_snode gx = None → gv_snode gy = None →
  get_exponent_type (gv_dt gx) = Some Ex →
  get_exponent_type (gv_dt gy) = Some Ey →
  ∃ st1 st2 ex lx ey ly nex ney,
    place p1 (Some x) off1 st = Ok tt st1
    ∧ place p2 (Some y) off2 st1 = Ok tt st2
    ∧ new_place_leaves st st1 = [ex; lx]
    ∧ new_place_leaves st1 st2 = [ey; ly]
    ∧ ex ≠ ey
    ∧ nodes st2 !! ex = Some nex ∧ nodes st2 !! ey = Some ney
    ∧ dt nex = Ex ∧ exponent_users nex = [lx]
    ∧ dt ney = Ey ∧ name ney = gv_ident gy +:+ "_exp" ∧ exponent_users ney = [ly]
    ∧ placing_shared_exp st2 = false
    ∧ currently_placing_exp_snode st2 = currently_placing_exp_snode st.
Proof.
  intros Hclosed [n1 Hn1] [n2 Hn2] Hx Hy Hxy Hsx Hsy HEx HEy.
  destruct (fresh_exponent_placement p1 n1 x gx Ex off1 st)
    as (st1 & ex & nex & nx & Hplace1 & Hnew1 & Hle1 & Hlen1 & Hnex & Hnx & _ & _ & Hdx
        & _ & Hux & _ & _ & _ & Hopen1 & Hcur1 & _ & Hexprs1 & Hframe1); auto.
  rewrite Hclosed in Hopen1, Hcur1.
  destruct (Hframe1 p2 n2 Hn2) as (n2' & Hn2' & _).
  assert (exprs st1 !! y = Some (GlobalVariable gy)) as Hy1.
  { by rewrite Hexprs1, list_lookup_insert_ne. }
  destruct (fresh_exponent_placement p2 n2' y gy Ey off2 st1)
    as (st2 & ey & ney & ny & Hplace2 & Hnew2 & Hle2 & Hlen2 & Hney & Hny & _ & _ & Hdy
        & Hname & Huy & _ & _ & _ & Hopen2 & Hcur2 & _ & _ & Hframe2); auto.
  rewrite Hopen1 in Hopen2, Hcur2.
  destruct (Hframe2 ex nex Hnex) as (nex' & Hnex' & _ & _ & _ & Hdx' & Hux').
  exists st1, st2, ex, (S ex), ey, (S ey), nex', ney.
  split; [exact Hplace1 |]. split; [exact Hplace2 |].
  split; [exact Hnew1 |]. split; [exact Hnew2 |].
  split; [lia |]. split; [exact Hnex' |]. split; [exact Hney |].
  split; [congruence |]. split; [congruence |].
  split; [exact Hdy |]. split; [exact Hname |]. split; [exact Huy |].
  split; [exact Hopen2 | congruence].
Qed.

(** X23: a session can be run and left: begin, the placement of a field with
    exponent type, and end all return, and afterwards no session is open and
    no exponent node is current, so that the next field with exponent type
    gets a leaf of its own; the nodes and fields are as the placement left
    them. *)
Theorem session_round_trip this x gx E off st :
  placing_shared_exp st = false →
  currently_placing_exp_snode st = None →
  is_Some (nodes st !! this) →
  exprs st !! x = Some (GlobalVariable gx) →
  gv_snode gx = None →
  get_exponent_type (gv_dt gx) = Some E →
  ∃ st1 st2 st3 e,
    begin_shared_exp_placement st = Ok tt st1
    ∧ place this (Some x) off st1 = Ok tt st2
    ∧ currently_placing_exp_snode st2 = Some e
    ∧ end_shared_exp_placement st2 = Ok tt st3
    ∧ placing_shared_exp st3 = false
    ∧ currently_placing_exp_snode st3 = None
    ∧ nodes st3 = nodes st2 ∧ exprs st3 = exprs st2
    ∧ begin_shared_exp_placement st3
      = Ok tt (set_session true None (Some E) st3).
Proof.
  intros Hclosed Hcur [n0 Hn0] Hx Hsx HE.
  set (st1 := set_session true None (currently_placing_exp_snode_dtype st) st).
  assert (begin_shared_exp_placement st = Ok tt st1) as Hbegin.
  { unfold begin_shared_exp_placement, bind, get_state. rewrite Hclosed. simpl.
    rewrite Hcur. simpl. by rewrite Hcur. }
  destruct (fresh_exponent_placement this n0 x gx E off st1)
    as (st2 & e & ne & nx & Hplace & _ & _ & _ & _ & _ & _ & _ & _ & _ & _ & _ & _ & _
        & Hopen2 & Hcur2 & Hdt2 & _); auto.
  simpl in Hopen2, Hcur2, Hdt2.
  exists st1, st2, (set_session false None (Some E) st2), e.
  split; [exact Hbegin |]. split; [exact Hplace |]. split; [exact Hcur2 |].
  split.
  { unfold end_shared_exp_placement, bind, get_state. rewrite Hopen2. simpl.
    rewrite Hcur2. simpl. by rewrite Hdt2. }
  done.
Qed.

End Placing.

(** ** Gradients after [lazy_grad] *)

Section Gradients.
Context `{Declarations}.

(** X24: on a node whose field is a global variable, and whose adjoint is one
    too when the field is primal and the adjoint is not null, [has_grad]
    returns, without changing the state, whether the field is primal and its
    adjoint is bound to a node; [get_grad] then returns the node of the
    adjoint, and otherwise stops at its assertion [has_grad()] with the state
    unchanged. *)
Theorem get_grad_outcome this st nd g :
  nodes st !! this = Some nd →
  gve_at st (expr nd) = Some g →
  (gv_is_primal g = true → gv_adjoint g ≠ None → is_Some (gve_at st (gv_adjoint g))) →
  let grad := match gve_at st (gv_adjoint g) with
              | Some ga => gv_snode ga
              | None => None
              end in
  has_grad this st = Ok (gv_is_primal g && bool_decide (grad ≠ None)) st
  ∧ get_grad this st
    = (if gv_is_primal g && bool_decide (grad ≠ None)
       then Ok grad st else Fatal "has_grad()" st).
Proof.
  intros Hnd Hg Hadjoint grad.
  assert (has_grad this st = Ok (gv_is_primal g && bool_decide (grad ≠ None)) st) as Hhg.
  { unfold has_grad. erewrite bind_Ok by (by apply deref_Ok).
    erewrite bind_Ok by (by apply deref_gve_Ok).
    erewrite bind_Ok by (by eapply is_primal_Ok).
    destruct (gv_is_primal g) eqn:Hprimal; [| done].
    destruct (gv_adjoint g) as [a |] eqn:Ha; [| done].
    destruct (Hadjoint eq_refl) as [ga Hga]; [done |].
    rewrite bool_decide_eq_true_2 by done. simpl.
    erewrite bind_Ok by (by apply deref_gve_Ok). unfold grad. by rewrite Hga. }
  split; [exact Hhg |].
  unfold get_grad. erewrite bind_Ok by exact Hhg.
  destruct (gv_is_primal g && bool_decide (grad ≠ None)) eqn:Hb;
    [| by erewrite bind_Fatal].
  apply andb_true_iff in Hb as [Hprimal Hgrad]. apply bool_decide_eq_true in Hgrad.
  erewrite bind_Ok by reflexivity. erewrite bind_Ok by (by apply deref_Ok).
  erewrite bind_Ok by (by apply deref_gve_Ok).
  unfold grad in *. destruct (gve_at st (gv_adjoint g)) as [ga |] eqn:Hga; [| done].
  by erewrite bind_Ok by (by apply deref_gve_Ok).
Qed.

(** X25: after a [lazy_grad] that returned, on a tree whose adjoint fields
    are not primal and have no exponent component, every primal place child
    of the node whose type needs a gradient has one: [has_grad] on it returns
    true and [get_grad] returns a node. *)
Theorem lazy_grad_gives_gradients fuel this st st' nd c cn g :
  adjoints_plain st →
  lazy_grad fuel this st = Ok tt st' →
  nodes st' !! this = Some nd → type nd ≠ SNodeType.place → c ∈ ch nd →
  nodes st' !! c = Some cn → type cn = SNodeType.place →
  gve_at st' (expr cn) = Some g →
  gv_is_primal g = true → needs_grad (dt cn) = true →
  has_grad c st' = Ok true st'
  ∧ ∃ a, get_grad c st' = Ok (Some a) st'.
Proof.
  intros Hplain Hlazy Hnd Ht Hc Hcn Htc Hg Hprimal Hneeds.
  destruct (lazy_grad_quiet fuel this st st' Hlazy Hplain) as [_ Hq].
  inversion Hq as [x nd' Hnd' Ht' | x nd' Hnd' Ht' _ Hsettled]; simplify_eq.
  rewrite Forall_forall in Hsettled.
  destruct (Hsettled c Hc) as (cn' & Hcn' & [Hne | (g' & Hg' & Hcase)]); simplify_eq.
  destruct Hcase as [Hno | [_ Hbound]]; [by rewrite Hprimal, Hneeds in Hno |].
  assert (has_grad c st' = Ok true st') as Hhg by (by eapply has_grad_bound).
  split; [exact Hhg |].
  destruct Hbound as (ga & Hga & Hs).
  destruct (gv_snode ga) as [a |] eqn:Ha; [| done]. exists a.
  unfold get_grad. erewrite bind_Ok by exact Hhg.
  erewrite bind_Ok by reflexivity. erewrite bind_Ok by (by apply deref_Ok).
  erewrite bind_Ok by (by apply deref_gve_Ok).
  erewrite bind_Ok by (by apply deref_gve_Ok). by rewrite Ha.
Qed.

(** [lazy_grad] on a place node does nothing. *)
Lemma lazy_grad_place fuel x st :
  is_place_at st x = true → lazy_grad (S fuel) x st = Ok tt st.
Proof.
  unfold is_place_at, is_place. intros Hx. simpl.
  destruct (nodes st !! x) as [nd |] eqn:Hnd; [| done].
  erewrite bind_Ok by (by apply deref_Ok). by rewrite Hx.
Qed.

Lemma collect_grads_stops before c after st msg :
  Forall (settled st) before → grad_to_place c st = Fatal msg st →
  collect_grads (before ++ c :: after) st = Fatal msg st.
Proof.
  intros Hbefore Hc. induction Hbefore as [| x before Hx _ IH]; simpl.
  - by erewrite bind_Fatal.
  - erewrite bind_Ok by (by apply settled_grad_to_place).
    by erewrite bind_Fatal.
Qed.

(** X26: [lazy_grad] asks every place child whether it is primal, also the
    exponent leaf that [place] makes for a field with exponent type, which
    has no field: on a node whose children are place leaves, one of them
    without field and those before it with nothing left to do, [lazy_grad]
    stops at the assertion of [is_primal] and leaves the state as it is. *)
Theorem lazy_grad_stops_at_leaf_without_field fuel this nd before c cn after st :
  nodes st !! this = Some nd →
  type nd ≠ SNodeType.place →
  ch nd = before ++ c :: after →
  Forall (λ x, is_place_at st x = true) (ch nd) →
  Forall (settled st) before →
  nodes st !! c = Some cn → expr cn = None →
  lazy_grad (S (S fuel)) this st = Fatal "expr.expr != nullptr" st.
Proof.
  intros Hnd Ht Hch Hplaces Hbefore Hcn Hexpr.
  change (lazy_grad (S (S fuel)) this)
    with (let! nd := deref this in
          if bool_decide (type nd = SNodeType.place) then ret tt else
          for_each (ch nd) (lazy_grad (S fuel)) >>
          let! nd' := deref this in
          let! new_grads := collect_grads (ch nd') in
          for_each new_grads (λ p, place this p [])).
  erewrite bind_Ok by (by apply deref_Ok).
  rewrite bool_decide_eq_false_2 by done.
  erewrite bind_Ok.
  2:{ apply for_each_unchanged. eapply Forall_impl; [exact Hplaces |].
      intros x Hx. by apply lazy_grad_place. }
  erewrite bind_Ok by (by apply deref_Ok).
  erewrite bind_Fatal; [reflexivity |].
  rewrite Hch. apply collect_grads_stops; [exact Hbefore |].
  assert (is_place_at st c = true) as Hc.
  { rewrite Forall_forall in Hplaces. apply Hplaces. rewrite Hch.
    apply elem_of_app. right. by left. }
  unfold is_place_at, is_place in Hc. rewrite Hcn in Hc.
  unfold grad_to_place. erewrite bind_Ok by (by apply deref_Ok).
  rewrite Hc. erewrite bind_Fatal; [reflexivity |].
  unfold is_primal. erewrite bind_Ok by (by apply deref_Ok).
  rewrite bool_decide_eq_false_2 by (by intros ?).
  by erewrite bind_Fatal.
Qed.

End Gradients.

(** * Witnesses and counterexamples *)

Section Witnesses.
#[local] Existing Instance reference_declarations.

Lemma create_node_extent_witness :
  ∃ st' c,
    create_node 0%nat [mkIndex 0] [10] SNodeType.dense
      initial_state = Ok 1%nat st'
    ∧ nodes st' !! 1%nat = Some c
    ∧ n c = 16
    ∧ ∃ e, array_get (extractors c) 0 = Some e
           ∧ active e = true ∧ num_elements e = 10 ∧ num_bits e = 4.
Proof.
  destruct (create_node_extent 0%nat [mkIndex 0] [10]
              SNodeType.dense initial_state (SNode_init 0 0 SNodeType.root))
    as (st' & c & Hok & Hc & _ & Hn & Hex).
  - reflexivity.
  - discriminate.
  - discriminate.
  - left. reflexivity.
  - split; [apply NoDup_singleton | repeat constructor; vm_compute; discriminate].
  - repeat constructor; vm_compute; discriminate.
  - vm_compute. reflexivity.
  - destruct (Hex 0%nat (mkIndex 0) 10 eq_refl eq_refl) as (e & He & Ha & Hne & Hnb & _).
    exists st', c. split; [exact Hok |]. split; [exact Hc |]. split; [exact Hn |].
    exists e. split; [exact He |]. split; [exact Ha |]. split; [exact Hne | exact Hnb].
Defined.

Lemma create_node_extent_counterexample :
  1 <= 2 ^ 30 + 1 < 2 ^ 31
  ∧ ∃ st', create_node 0%nat [mkIndex 0] [2 ^ 30 + 1]
             SNodeType.dense initial_state
           = Fatal "bit::is_power_of_two(s)" st'.
Proof. split; [lia |]. eexists. vm_compute. reflexivity. Qed.

Lemma create_node_requires_positive_sizes_counterexample :
  Exists (λ s, s <= 0) [0]
  ∧ ∃ a st', create_node 0%nat [] [0] SNodeType.dense
               initial_state = Ok a st'.
Proof. split; [by left |]. eexists _, _. vm_compute. reflexivity. Qed.

Lemma built_sparse_tree : built sparse_tree.
Proof.
  apply (built_returns pointer_tree
           (call_create_node 1%nat [mkIndex 0] [8] SNodeType.dense) sparse_tree).
  - apply (built_returns initial_state
             (call_create_node 0%nat [mkIndex 0] [4] SNodeType.pointer) pointer_tree).
    + apply built_initial.
    + vm_compute. reflexivity.
  - vm_compute. reflexivity.
Qed.

Lemma tree_path_sparse_tree : tree_path sparse_tree 2%nat [0; 1; 2]%nat.
Proof.
  apply (tree_path_child sparse_tree 1%nat [0; 1]%nat (node_at sparse_tree 1) 2%nat).
  - apply (tree_path_child sparse_tree 0%nat [0]%nat (node_at sparse_tree 0) 1%nat).
    + apply tree_path_root.
    + vm_compute. reflexivity.
    + vm_compute. constructor.
  - vm_compute. reflexivity.
  - vm_compute. constructor.
Qed.

Lemma built_dense_tree : built dense_tree.
Proof.
  apply (built_returns initial_state
           (call_create_node 0%nat [mkIndex 0] [4] SNodeType.dense) dense_tree).
  - apply built_initial.
  - vm_compute. reflexivity.
Qed.

Lemma is_path_all_dense_iff_witness :
  type (node_at sparse_tree 1) = SNodeType.pointer
  ∧ is_path_all_dense (node_at sparse_tree 2) = false
  ∧ type (node_at dense_tree 1) = SNodeType.dense
  ∧ is_path_all_dense (node_at dense_tree 1) = true.
Proof.
  split; [vm_compute; reflexivity |]. split; [| split; [vm_compute; reflexivity |]].
  - destruct (is_path_all_dense_iff sparse_tree 2%nat [0; 1; 2]%nat (node_at sparse_tree 2))
      as [[Hdense _] _].
    + apply built_sparse_tree.
    + apply tree_path_sparse_tree.
    + vm_compute. reflexivity.
    + destruct (is_path_all_dense (node_at sparse_tree 2)); [| reflexivity].
      destruct (Hdense eq_refl 1%nat (node_at sparse_tree 1)) as [Hpointer _].
      * apply list_elem_of_In. simpl. auto.
      * vm_compute. reflexivity.
      * exfalso. apply Hpointer. vm_compute. reflexivity.
  - destruct (is_path_all_dense_iff dense_tree 1%nat [0; 1]%nat (node_at dense_tree 1))
      as [[_ Hdense] _].
    + apply built_dense_tree.
    + apply (tree_path_child dense_tree 0%nat [0]%nat (node_at dense_tree 0) 1%nat).
      * apply tree_path_root.
      * vm_compute. reflexivity.
      * vm_compute. constructor.
    + vm_compute. reflexivity.
    + apply Hdense. intros y yn Hy Hyn.
      apply list_elem_of_In in Hy. simpl in Hy.
      destruct Hy as [<- | [<- | []]]; vm_compute in Hyn; injection Hyn as <-;
        repeat split; discriminate.
Defined.

Lemma parent_chain_compiled_tree : parent_chain compiled_tree 2%nat [2; 1; 0]%nat.
Proof.
  apply (parent_chain_step compiled_tree 2%nat (node_at compiled_tree 2) 1%nat);
    [vm_compute; reflexivity | vm_compute; reflexivity |].
  apply (parent_chain_step compiled_tree 1%nat (node_at compiled_tree 1) 0%nat);
    [vm_compute; reflexivity | vm_compute; reflexivity |].
  apply (parent_chain_root compiled_tree 0%nat (node_at compiled_tree 0));
    vm_compute; reflexivity.
Qed.

Lemma get_num_bits_sum_witness :
  get_num_bits 5 2%nat 0 compiled_tree = Ok 5 compiled_tree.
Proof.
  apply (get_num_bits_sum compiled_tree 2%nat [2; 1; 0]%nat 0 5).
  - apply parent_chain_compiled_tree.
  - apply Forall_cons. split; [| apply Forall_cons; split; [| apply Forall_singleton]].
    + exists (node_at compiled_tree 2). split; vm_compute; [reflexivity | by eexists].
    + exists (node_at compiled_tree 1). split; vm_compute; [reflexivity | by eexists].
    + exists (node_at compiled_tree 0). split; vm_compute; [reflexivity | by eexists].
  - simpl. lia.
  - vm_compute. split; [discriminate | reflexivity].
Defined.

Lemma get_least_sparse_ancestor_spec_witness :
  get_least_sparse_ancestor 5 2%nat compiled_tree = Ok (Some 1%nat) compiled_tree.
Proof.
  apply (get_least_sparse_ancestor_spec compiled_tree 2%nat (node_at compiled_tree 2))
    with (l := [2; 1; 0]%nat) (below := [2%nat]) (above := [0%nat]).
  - vm_compute. reflexivity.
  - vm_compute. reflexivity.
  - apply parent_chain_compiled_tree.
  - reflexivity.
  - apply Forall_singleton. vm_compute. reflexivity.
  - vm_compute. reflexivity.
  - simpl. lia.
Defined.

Lemma create_node_hash_witness :
  create_node 1%nat [mkIndex 0] [4] SNodeType.hash sparse_tree
  = Fatal hash_message sparse_tree.
Proof.
  destruct (create_node_hash 1%nat [mkIndex 0] [4] sparse_tree (node_at sparse_tree 1))
    as [Hdeep _]; [vm_compute; reflexivity |].
  destruct Hdeep as (msg & Hf & Hmsg); [vm_compute; discriminate |].
  rewrite Hf, Hmsg; [reflexivity | by left].
Defined.

Lemma create_node_requires_positive_sizes_witness :
  ∃ msg st', create_node 0%nat [mkIndex 0; mkIndex 1] [4; 0] SNodeType.dense initial_state
             = Fatal msg st'.
Proof.
  apply (create_node_requires_positive_sizes 0%nat [mkIndex 0; mkIndex 1] [4; 0]
           SNodeType.dense initial_state (node_at initial_state 0)).
  - vm_compute. reflexivity.
  - right. left. simpl. lia.
Defined.

Lemma shape_along_axis_spec_witness :
  shape_along_axis 0%nat 0 initial_state = Undefined.
Proof.
  apply (shape_along_axis_spec 0%nat 0 initial_state (node_at initial_state 0))
    with (p := -1).
  - vm_compute. reflexivity.
  - vm_compute. reflexivity.
  - lia.
Defined.

Lemma shared_exponent_reuse_witness :
  ∃ st1 st2 e ne,
    place 1%nat (Some 0%nat) [] session_state = Ok tt st1
    ∧ place 1%nat (Some 1%nat) [] st1 = Ok tt st2
    ∧ new_place_leaves session_state st1 ++ new_place_leaves st1 st2 = [e; S e; S (S e)]
    ∧ nodes st2 !! e = Some ne
    ∧ length (exponent_users ne) = 2%nat.
Proof.
  destruct (shared_exponent_reuse 1%nat 0%nat 1%nat field_x field_y 2%nat [] []
              session_state)
    as (st1 & e & lx & Hplace1 & Hnew1 & Hsecond).
  - vm_compute. reflexivity.
  - vm_compute. reflexivity.
  - exists (node_at session_state 1). vm_compute. reflexivity.
  - vm_compute. reflexivity.
  - vm_compute. reflexivity.
  - discriminate.
  - reflexivity.
  - reflexivity.
  - vm_compute. reflexivity.
  - vm_compute. reflexivity.
  - assert (st1 = state_of (place 1%nat (Some 0%nat) [] session_state)) as ->
      by (by rewrite Hplace1).
    destruct (Hsecond 1%nat) as (st2 & ly & ne & nx & ny & Hplace2 & Hnew2 & _ & Hne & _
                                 & _ & _ & _ & _ & Hue & _).
    { exists (node_at (state_of (place 1%nat (Some 0%nat) [] session_state)) 1).
      vm_compute. reflexivity. }
    exists (state_of (place 1%nat (Some 0%nat) [] session_state)), st2, e, ne.
    split; [exact Hplace1 |]. split; [exact Hplace2 |].
    split; [| split; [exact Hne | by rewrite Hue]].
    rewrite Hnew1, Hnew2.
    assert (st2 = state_of (place 1%nat (Some 1%nat) []
                              (state_of (place 1%nat (Some 0%nat) [] session_state))))
      as -> by (by rewrite Hplace2).
    vm_compute in Hnew1. injection Hnew1 as <- <-.
    vm_compute in Hnew2. injection Hnew2 as <-. reflexivity.
Defined.

Lemma built_placed_state b : built (placed_state b).
Proof.
  apply (built_returns (declared_state b) (call_place 1%nat (Some 0%nat) [])
           (placed_state b)).
  - apply built_declare.
    apply (built_returns initial_state
             (call_create_node 0%nat [mkIndex 0] [4] SNodeType.dense) dense_tree).
    + apply built_initial.
    + vm_compute. reflexivity.
  - destruct b; vm_compute; reflexivity.
Qed.

Lemma place_already_placed_witness :
  place 1%nat (Some 0%nat) [] (placed_state false)
  = Fatal "This variable has been placed." (placed_state false).
Proof.
  apply (place_already_placed 1%nat 0%nat
           (mkGlobalVariableExpression "x" 1%nat (Some 2%nat) false 0 true (Some 1%nat))
           2%nat [] (placed_state false) (node_at (placed_state false) 1)).
  - vm_compute. reflexivity.
  - vm_compute. discriminate.
  - vm_compute. reflexivity.
  - reflexivity.
Defined.

Lemma adjoints_plain_placed_state : adjoints_plain (placed_state false).
Proof.
  intros e g He. destruct e as [| [| [| e]]]; vm_compute in He; try discriminate;
    injection He as <-; intros ga Hga; vm_compute in Hga; try discriminate;
    injection Hga as <-; by split.
Qed.

Lemma lazy_grad_idempotent_witness :
  ∃ h, ∀ fuel', (h <= fuel')%nat →
    lazy_grad fuel' 1%nat (state_of (lazy_grad 3 1%nat (placed_state false)))
    = Ok tt (state_of (lazy_grad 3 1%nat (placed_state false))).
Proof.
  apply (lazy_grad_idempotent 3 1%nat (placed_state false)
           (state_of (lazy_grad 3 1%nat (placed_state false)))).
  - apply adjoints_plain_placed_state.
  - vm_compute. reflexivity.
Defined.

Lemma lazy_grad_idempotent_counterexample :
  built (placed_state true)
  ∧ ∃ st1 st2,
      lazy_grad 3 1%nat (placed_state true) = Ok tt st1
      ∧ lazy_grad 3 1%nat st1 = Ok tt st2
      ∧ new_place_leaves (placed_state true) st1 = [3%nat]
      ∧ new_place_leaves st1 st2 = [4%nat].
Proof.
  split; [apply built_placed_state |].
  exists (state_of (lazy_grad 3 1%nat (placed_state true))),
    (state_of (lazy_grad 3 1%nat (state_of (lazy_grad 3 1%nat (placed_state true))))).
  split; [vm_compute; reflexivity |]. split; [vm_compute; reflexivity |].
  split; vm_compute; reflexivity.
Qed.

Lemma root_is_unique_witness :
  (∃ r, nodes sparse_tree !! 0%nat = Some r ∧ type r = SNodeType.root)
  ∧ insert_children 2%nat SNodeType.root sparse_tree
    = Fatal "t != SNodeType::root" sparse_tree.
Proof.
  destruct (root_is_unique sparse_tree) as (Hroot & _ & Hins & _).
  - apply built_sparse_tree.
  - split; [exact Hroot | apply Hins].
Defined.

Lemma ids_follow_creation_witness :
  counter sparse_tree = 3
  ∧ ∀ a nd, nodes sparse_tree !! a = Some nd → id nd = int32 (Z.of_nat a).
Proof.
  destruct (ids_follow_creation sparse_tree) as (Hc & Hid & _);
    [apply built_sparse_tree |].
  split; [vm_compute; reflexivity | exact Hid].
Defined.

Lemma every_node_on_one_path_witness :
  ∃ l, tree_path sparse_tree 2%nat l ∧ ∀ l', tree_path sparse_tree 2%nat l' → l' = l.
Proof.
  apply (every_node_on_one_path sparse_tree 2%nat).
  - apply built_sparse_tree.
  - vm_compute. lia.
Defined.

Lemma depth_is_path_length_witness : depth (node_at sparse_tree 2) = 2.
Proof.
  destruct (depth_is_path_length sparse_tree 2%nat [0; 1; 2]%nat (node_at sparse_tree 2))
    as (_ & Hd & _).
  - apply built_sparse_tree.
  - apply tree_path_sparse_tree.
  - vm_compute. reflexivity.
  - apply Hd. vm_compute. discriminate.
Defined.

Lemma layout_unset_before_compilation_witness :
  parent (node_at sparse_tree 2) = None
  ∧ num_active_indices (node_at sparse_tree 2) = 0.
Proof.
  destruct (layout_unset_before_compilation sparse_tree 2%nat (node_at sparse_tree 2))
    as (Hp & _ & Hn & _).
  - apply built_sparse_tree.
  - vm_compute. reflexivity.
  - split; [exact Hp | exact Hn].
Defined.

Lemma queries_before_compilation_witness :
  get_least_sparse_ancestor 1 2%nat sparse_tree = Fatal "result" sparse_tree
  ∧ get_least_sparse_ancestor 1 1%nat sparse_tree = Ok (Some 1%nat) sparse_tree.
Proof.
  split.
  - apply (queries_before_compilation sparse_tree 2%nat (node_at sparse_tree 2) 0).
    + apply built_sparse_tree.
    + vm_compute. reflexivity.
  - apply (queries_before_compilation sparse_tree 1%nat (node_at sparse_tree 1) 0).
    + apply built_sparse_tree.
    + vm_compute. reflexivity.
Defined.

Lemma built_session_x_state : built session_x_state.
Proof.
  apply (built_returns session_state (call_place 1%nat (Some 0%nat) []) session_x_state).
  - apply (built_returns
             (set_exprs [GlobalVariable field_x; GlobalVariable field_y] dense_tree)
             call_begin_shared_exp_placement session_state).
    + apply built_declare.
      apply (built_returns initial_state
               (call_create_node 0%nat [mkIndex 0] [4] SNodeType.dense) dense_tree).
      * apply built_initial.
      * vm_compute. reflexivity.
    + vm_compute. reflexivity.
  - vm_compute. reflexivity.
Qed.

Lemma session_node_needs_open_session_witness :
  begin_shared_exp_placement session_x_state = Fatal "!placing_shared_exp" session_x_state.
Proof.
  destruct (session_node_needs_open_session session_x_state) as [_ Hbegin].
  - apply built_session_x_state.
  - exact Hbegin.
Defined.

Lemma create_node_failure_keeps_child_witness :
  ∃ st' nd' c,
    create_node 0%nat [mkIndex 0; mkIndex 1] [4; 0] SNodeType.dense initial_state
    = Fatal "sizes[i] > 0" st'
    ∧ length (nodes st') = 2%nat
    ∧ nodes st' !! 0%nat = Some nd'
    ∧ ch nd' = [1%nat]
    ∧ nodes st' !! 1%nat = Some c
    ∧ type c = SNodeType.dense
    ∧ n c = 4.
Proof.
  apply (create_node_failure_keeps_child 0%nat [mkIndex 0; mkIndex 1] [4; 0]
           SNodeType.dense initial_state (node_at initial_state 0) [4] 0 []).
  - vm_compute. reflexivity.
  - discriminate.
  - discriminate.
  - left. reflexivity.
  - reflexivity.
  - apply Forall_singleton. lia.
  - vm_compute. reflexivity.
  - lia.
Defined.

Lemma bit_struct_returns_witness :
  ∃ st' nd' c,
    bit_struct 1%nat 32 dense_tree = Ok 2%nat st'
    ∧ nodes st' !! 1%nat = Some nd'
    ∧ ch nd' = [2%nat]
    ∧ nodes st' !! 2%nat = Some c
    ∧ type c = SNodeType.bit_struct
    ∧ n c = 1
    ∧ extractors c = replicate 8 (mkExtractor false 0 0 1)
    ∧ physical_type c = Some 132%nat
    ∧ is_path_all_dense c = true.
Proof.
  assert (nodes dense_tree !! 1%nat = Some (node_at dense_tree 1)) as Hnd
    by (vm_compute; reflexivity).
  exact (bit_struct_returns 1%nat 32 dense_tree (node_at dense_tree 1) Hnd).
Defined.

Lemma dynamic_returns_witness :
  ∃ st' c e,
    dynamic 0%nat (mkIndex 0) 10 4 initial_state = Ok 1%nat st'
    ∧ nodes st' !! 1%nat = Some c
    ∧ type c = SNodeType.dynamic
    ∧ n c = 16
    ∧ chunk_size c = 4
    ∧ is_path_all_dense c = false
    ∧ array_get (extractors c) 0 = Some e
    ∧ active e = true ∧ num_elements e = 10
    ∧ num_bits e = 4
    ∧ ∀ fuel, get_least_sparse_ancestor (S fuel) 1%nat st' = Ok (Some 1%nat) st'.
Proof.
  apply (dynamic_returns 0%nat (mkIndex 0) 10 4 initial_state (node_at initial_state 0)).
  - vm_compute. reflexivity.
  - vm_compute. split; [discriminate | reflexivity].
  - lia.
  - vm_compute. reflexivity.
Defined.

Lemma get_num_bits_of_new_node_witness :
  ∃ st', create_node 0%nat [mkIndex 0] [10] SNodeType.dense initial_state = Ok 1%nat st'
         ∧ get_num_bits 1 1%nat 0 st' = Ok 4 st'.
Proof.
  destruct (get_num_bits_of_new_node 0%nat [mkIndex 0] [10] SNodeType.dense
              initial_state (node_at initial_state 0)) as (st' & Hcreate & Hbits).
  - vm_compute. reflexivity.
  - discriminate.
  - discriminate.
  - left. reflexivity.
  - split; [apply NoDup_singleton | apply Forall_singleton; vm_compute; split; [discriminate | reflexivity]].
  - apply Forall_singleton. lia.
  - vm_compute. reflexivity.
  - exists st'. split; [exact Hcreate |].
    exact (Hbits 0%nat (mkIndex 0) 10 0%nat eq_refl eq_refl).
Defined.

Lemma place_refusal_witness :
  ∃ st', place 0%nat None [] initial_state
         = Fatal "expr_.is<GlobalVariableExpression>()" st'
         ∧ length (nodes st') = 2%nat.
Proof.
  destruct (place_refusal 0%nat (node_at initial_state 0) None [] initial_state)
    as (Hnull & _).
  - vm_compute. reflexivity.
  - eexists. split; [apply Hnull; by left | vm_compute; reflexivity].
Defined.

Lemma empty_session_cannot_end_witness :
  ∃ st1, begin_shared_exp_placement dense_tree = Ok tt st1
         ∧ end_shared_exp_placement st1
           = Fatal "currently_placing_exp_snode != nullptr" st1.
Proof.
  destruct (empty_session_cannot_end dense_tree) as (st1 & Hbegin & _ & _ & Hend & _).
  - vm_compute. reflexivity.
  - vm_compute. reflexivity.
  - exists st1. split; [exact Hbegin | exact Hend].
Defined.

Lemma index_offsets_written_once_witness :
  ∃ st', set_index_offsets 2%nat [3] (placed_state false) = Ok tt st'
         ∧ set_index_offsets 2%nat [5] st' = Fatal "this->index_offsets.empty()" st'.
Proof.
  destruct (index_offsets_written_once 2%nat (node_at (placed_state false) 2) [3]
              (placed_state false)) as (st' & nd' & Hset & _ & _ & Hagain).
  - vm_compute. reflexivity.
  - vm_compute. reflexivity.
  - vm_compute. reflexivity.
  - discriminate.
  - exists st'. split; [exact Hset | apply Hagain].
Defined.

Lemma place_binds_witness :
  ∃ st' cn,
    place 0%nat (Some 0%nat) [2] ambient_state = Ok tt st'
    ∧ nodes st' !! 3%nat = Some cn
    ∧ expr cn = Some 0%nat ∧ name cn = "a"%string
    ∧ has_ambient cn = true ∧ ambient_val cn = 7 ∧ index_offsets cn = [2].
Proof.
  destruct (place_binds 0%nat 0%nat field_a [2] ambient_state)
    as (st' & c & cn & Hplace & Hlen & Hcn & _ & _ & Hexpr & _ & _ & Hname & Ha & Hv & _ & Hi).
  - exists (node_at ambient_state 0). vm_compute. reflexivity.
  - vm_compute. reflexivity.
  - reflexivity.
  - intros exp cur Hexp. vm_compute in Hexp. discriminate.
  - assert (st' = state_of (place 0%nat (Some 0%nat) [2] ambient_state)) as ->
      by (by rewrite Hplace).
    vm_compute in Hlen. injection Hlen as <-.
    exists (state_of (place 0%nat (Some 0%nat) [2] ambient_state)), cn.
    split; [exact Hplace |]. split; [exact Hcn |]. split; [exact Hexpr |].
    split; [exact Hname |]. split; [exact Ha |]. split; [by apply Hv | exact Hi].
Defined.

Lemma place_twice_fails_witness :
  place 1%nat (Some 0%nat) [] (placed_state false)
  = Fatal "This variable has been placed." (placed_state false).
Proof.
  apply (place_twice_fails 1%nat 0%nat [] (declared_state false) (placed_state false)
           1%nat (node_at (placed_state false) 1) []).
  - vm_compute. reflexivity.
  - vm_compute. reflexivity.
  - vm_compute. discriminate.
Defined.

Lemma exponent_per_field_outside_session_witness :
  ∃ st1 st2 ex lx ey ly,
    place 1%nat (Some 0%nat) [] fields_state = Ok tt st1
    ∧ place 1%nat (Some 1%nat) [] st1 = Ok tt st2
    ∧ new_place_leaves fields_state st1 = [ex; lx]
    ∧ new_place_leaves st1 st2 = [ey; ly]
    ∧ ex ≠ ey.
Proof.
  destruct (exponent_per_field_outside_session 1%nat 1%nat 0%nat 1%nat field_x field_y
              2%nat 2%nat [] [] fields_state)
    as (st1 & st2 & ex & lx & ey & ly & nex & ney & H1 & H2 & H3 & H4 & H5 & _).
  - vm_compute. reflexivity.
  - exists (node_at fields_state 1). vm_compute. reflexivity.
  - exists (node_at fields_state 1). vm_compute. reflexivity.
  - vm_compute. reflexivity.
  - vm_compute. reflexivity.
  - discriminate.
  - reflexivity.
  - reflexivity.
  - vm_compute. reflexivity.
  - vm_compute. reflexivity.
  - exists st1, st2, ex, lx, ey, ly. by repeat split.
Defined.

Lemma session_round_trip_witness :
  ∃ st1 st2 st3,
    begin_shared_exp_placement fields_state = Ok tt st1
    ∧ place 1%nat (Some 0%nat) [] st1 = Ok tt st2
    ∧ end_shared_exp_placement st2 = Ok tt st3
    ∧ placing_shared_exp st3 = false
    ∧ currently_placing_exp_snode st3 = None.
Proof.
  destruct (session_round_trip 1%nat 0%nat field_x 2%nat [] fields_state)
    as (st1 & st2 & st3 & e & H1 & H2 & _ & H3 & H4 & H5 & _).
  - vm_compute. reflexivity.
  - vm_compute. reflexivity.
  - exists (node_at fields_state 1). vm_compute. reflexivity.
  - vm_compute. reflexivity.
  - reflexivity.
  - vm_compute. reflexivity.
  - exists st1, st2, st3. by repeat split.
Defined.

Lemma get_grad_outcome_witness :
  get_grad 2%nat (placed_state false) = Fatal "has_grad()" (placed_state false)
  ∧ get_grad 2%nat (state_of (lazy_grad 3 1%nat (placed_state false)))
    = Ok (Some 3%nat) (state_of (lazy_grad 3 1%nat (placed_state false))).
Proof.
  split.
  - destruct (get_grad_outcome 2%nat (placed_state false)
                (node_at (placed_state false) 2)
                (mkGlobalVariableExpression "x" 1%nat (Some 2%nat) false 0 true
                   (Some 1%nat))) as [_ Hgrad].
    + vm_compute. reflexivity.
    + vm_compute. reflexivity.
    + intros _ _. eexists. vm_compute. reflexivity.
    + rewrite Hgrad. vm_compute. reflexivity.
  - destruct (get_grad_outcome 2%nat (state_of (lazy_grad 3 1%nat (placed_state false)))
                (node_at (state_of (lazy_grad 3 1%nat (placed_state false))) 2)
                (mkGlobalVariableExpression "x" 1%nat (Some 2%nat) false 0 true
                   (Some 1%nat))) as [_ Hgrad].
    + vm_compute. reflexivity.
    + vm_compute. reflexivity.
    + intros _ _. eexists. vm_compute. reflexivity.
    + rewrite Hgrad. vm_compute. reflexivity.
Defined.

Lemma lazy_grad_gives_gradients_witness :
  has_grad 2%nat (state_of (lazy_grad 3 1%nat (placed_state false)))
  = Ok true (state_of (lazy_grad 3 1%nat (placed_state false)))
  ∧ ∃ a, get_grad 2%nat (state_of (lazy_grad 3 1%nat (placed_state false)))
         = Ok (Some a) (state_of (lazy_grad 3 1%nat (placed_state false))).
Proof.
  apply (lazy_grad_gives_gradients 3 1%nat (placed_state false)
           (state_of (lazy_grad 3 1%nat (placed_state false)))
           (node_at (state_of (lazy_grad 3 1%nat (placed_state false))) 1)
           2%nat
           (node_at (state_of (lazy_grad 3 1%nat (placed_state false))) 2)
           (mkGlobalVariableExpression "x" 1%nat (Some 2%nat) false 0 true (Some 1%nat))).
  - apply adjoints_plain_placed_state.
  - vm_compute. reflexivity.
  - vm_compute. reflexivity.
  - vm_compute. discriminate.
  - vm_compute. constructor.
  - vm_compute. reflexivity.
  - vm_compute. reflexivity.
  - vm_compute. reflexivity.
  - reflexivity.
  - vm_compute. reflexivity.
Defined.

Lemma lazy_grad_stops_at_leaf_without_field_witness :
  lazy_grad 2 1%nat session_x_state = Fatal "expr.expr != nullptr" session_x_state.
Proof.
  apply (lazy_grad_stops_at_leaf_without_field 0 1%nat (node_at session_x_state 1)
           [] 2%nat (node_at session_x_state 2) [3%nat] session_x_state).
  - vm_compute. reflexivity.
  - vm_compute. discriminate.
  - vm_compute. reflexivity.
  - vm_compute. apply Forall_cons. split; [reflexivity |].
    apply Forall_cons. split; [reflexivity | apply Forall_nil_2].
  - apply Forall_nil_2.
  - vm_compute. reflexivity.
  - vm_compute. reflexivity.
Defined.

Lemma node_type_names_distinct_witness :
  get_node_type_name (node_at sparse_tree 2) = "S2"%string.
Proof.
  destruct (node_type_names_distinct sparse_tree) as [Hname _].
  - apply built_sparse_tree.
  - vm_compute. reflexivity.
  - apply (Hname 2%nat (node_at sparse_tree 2)). vm_compute. reflexivity.
Defined.

Lemma create_node_repeated_axis_witness :
  ∃ st' c e,
    create_node 0%nat [mkIndex 0; mkIndex 0] [4; 10] SNodeType.dense initial_state
    = Ok 1%nat st'
    ∧ nodes st' !! 1%nat = Some c
    ∧ n c = 64
    ∧ array_get (extractors c) 0 = Some e
    ∧ active e = true
    ∧ num_elements e = 10
    ∧ num_bits e = 4.
Proof.
  apply (create_node_repeated_axis 0%nat (mkIndex 0) 4 10 SNodeType.dense initial_state
           (node_at initial_state 0)).
  - vm_compute. reflexivity.
  - discriminate.
  - discriminate.
  - vm_compute. split; [discriminate | reflexivity].
  - lia.
  - lia.
  - vm_compute. reflexivity.
Defined.

Lemma create_node_axis_out_of_range_witness :
  create_node 0%nat [mkIndex 8] [4] SNodeType.dense initial_state = Undefined.
Proof.
  apply (create_node_axis_out_of_range 0%nat (mkIndex 8) [] [4] SNodeType.dense
           initial_state (node_at initial_state 0)).
  - vm_compute. reflexivity.
  - discriminate.
  - discriminate.
  - left. reflexivity.
  - apply Forall_singleton. lia.
  - vm_compute. reflexivity.
  - vm_compute. intros [_ Hlt]. discriminate.
Defined.

Lemma bit_array_returns_witness :
  ∃ st' c,
    bit_array 0%nat [mkIndex 0] [10] 5 initial_state = Ok 1%nat st'
    ∧ nodes st' !! 1%nat = Some c
    ∧ type c = SNodeType.bit_array
    ∧ n c = 16
    ∧ physical_type c = Some 105%nat.
Proof.
  destruct (bit_array_returns 0%nat [mkIndex 0] [10] 5 initial_state
              (node_at initial_state 0)) as (st' & c & Hb & Hc & Ht & Hn & Hp & _).
  - vm_compute. reflexivity.
  - left. reflexivity.
  - split; [apply NoDup_singleton
           | apply Forall_singleton; vm_compute; split; [discriminate | reflexivity]].
  - apply Forall_singleton. lia.
  - vm_compute. reflexivity.
  - exists st', c. split; [exact Hb |]. split; [exact Hc |]. split; [exact Ht |].
    split; [exact Hn | exact Hp].
Defined.

End Witnesses.

Section MixedExponentWitnesses.
#[local] Existing Instance two_exponent_declarations.

Lemma shared_exponent_type_mismatch_witness :
  place 1%nat (Some 1%nat) [] mixed_session_state
  = Fatal "CustomFloatTypes with shared exponents must have exactly the same exponent type."
      mixed_session_state.
Proof.
  apply (shared_exponent_type_mismatch 1%nat (node_at mixed_session_state 1) 1%nat
           (mkGlobalVariableExpression "z" 5%nat None false 0 true None) 4%nat 2%nat []
           mixed_session_state).
  - vm_compute. reflexivity.
  - vm_compute. discriminate.
  - vm_compute. reflexivity.
  - reflexivity.
  - vm_compute. reflexivity.
  - vm_compute. reflexivity.
  - vm_compute. reflexivity.
  - vm_compute. discriminate.
Defined.
End MixedExponentWitnesses.
